(** * Wolf-Byte showcase: the page interactivity script

    A shallow embedding of [assets/js/main.js] and the properties its
    specification states about it.

    Conventions of the embedding.
    - DOM strings are [string]s of bytes (UTF-8).  Every character the
      script inspects ([0-9], [+], [-], [%]) is ASCII, and no byte of a
      multi-byte UTF-8 sequence is ASCII, so scanning bytes and scanning
      UTF-16 code units find the same occurrences.
    - A JavaScript Number of the counter is a [Num.number], a finite
      rational or [Infinity]; [NaN] is [None].  The arithmetic of the
      counter loop, which accumulates a rounded quotient, goes through
      an interface [Rounding] whose laws hold for exact arithmetic and
      for binary64 round-to-nearest alike.  The scroll listeners compute
      in binary64 itself ([Float.binary64], on rationals).
    - Handlers are functions on an explicit state; a handler that can
      throw returns a [completion].
    - What the browser does between two runs of the script (the entries
      an intersection observer is called with, the entries of a form,
      what a selector finds) is an input of the handlers. *)

From Stdlib Require Import ZArith QArith Qround Qminmax Qabs Qpower Lia Lqa.
From Stdlib Require Import List String Ascii Bool DecimalString Sorted.
From Stdlib Require DecimalPos.
Import ListNotations.

Set Implicit Arguments.

(* ===================================================================== *)
(** * Part I.  The embedding                                              *)
(* ===================================================================== *)

(** ** Strings *)

Module Str.

Open Scope string_scope.

Definition is_digit (c : ascii) : bool :=
  let n := nat_of_ascii c in (48 <=? n)%nat && (n <=? 57)%nat.

(** [s.includes(pat)] *)
Fixpoint includes (pat s : string) : bool :=
  String.prefix pat s ||
  match s with
  | EmptyString => false
  | String _ rest => includes pat rest
  end.

(** [s.startsWith(pat)] and [s.endsWith(pat)], used to word the
    specification's "prefix" and "suffix". *)
Definition startsWith (pat s : string) : bool := String.prefix pat s.

Fixpoint endsWith (pat s : string) : bool :=
  match s with
  | EmptyString => String.eqb pat EmptyString
  | String _ rest => String.eqb pat s || endsWith pat rest
  end.

(** [s.replace(/[^0-9]/g, '')]: every character that is not a decimal
    digit is dropped, the digits stay in order. *)
Fixpoint strip_non_digits (s : string) : string :=
  match s with
  | EmptyString => EmptyString
  | String c rest =>
      if is_digit c then String c (strip_non_digits rest)
      else strip_non_digits rest
  end.

Definition digit_value (c : ascii) : Z := (Z.of_nat (nat_of_ascii c) - 48)%Z.

(** Value of the leading run of decimal digits of [s], read after the
    digits [acc] already seen. *)
Fixpoint leading_digits (acc : Z) (s : string) : Z :=
  match s with
  | EmptyString => acc
  | String c rest =>
      if is_digit c then leading_digits (10 * acc + digit_value c)%Z rest
      else acc
  end.

(** [parseInt(s)] for a string without leading blanks or sign, which is
    all the script passes (the argument went through
    [strip_non_digits]): the integer written by the leading digits,
    [NaN] (here [None]) when [s] does not start with a digit. *)
Definition parseInt (s : string) : option Z :=
  match s with
  | EmptyString => None
  | String c _ => if is_digit c then Some (leading_digits 0%Z s) else None
  end.

(** The text contains at least one decimal digit. *)
Fixpoint has_digit (s : string) : bool :=
  match s with
  | EmptyString => false
  | String c rest => is_digit c || has_digit rest
  end.

(** The values of the decimal digits of the text, in order. *)
Fixpoint digits (s : string) : list Z :=
  match s with
  | EmptyString => []
  | String c rest =>
      if is_digit c then digit_value c :: digits rest else digits rest
  end.

(** The integer a list of digits writes in base ten. *)
Definition decimal (ds : list Z) : Z :=
  fold_left (fun acc d => (10 * acc + d)%Z) ds 0%Z.

(** The decimal digits of an integer, with a minus sign if negative:
    what [String] writes for an integer of magnitude [2^53] at most. *)
Definition of_Z (z : Z) : string := NilZero.string_of_int (Z.to_int z).

End Str.

(** ** binary64

    The Numbers of the script are IEEE 754 binary64 values.  A finite
    one is a rational; [binary64] rounds a rational to the nearest of
    them, ties to even, with the subnormal numbers and with the exponent
    unbounded above (the overflow to [Infinity] is [Num.to_number]). *)

Module Float.

Open Scope Q_scope.

Definition pow2 (k : Z) : Q := 2 ^ k.

(** For [x > 0], the [E] with [2^E <= x < 2^(E+1)]. *)
Definition floor_log2 (x : Q) : Z :=
  let l := (Z.log2 (Qnum x) - Z.log2 (Zpos (Qden x)))%Z in
  if Qle_bool (pow2 l) x then l else (l - 1)%Z.

(** The exponent of the unit in the last place at [x > 0]: 53
    significant bits, and no exponent below that of the subnormal
    numbers. *)
Definition exponent (x : Q) : Z := Z.max (floor_log2 x - 52) (-1074).

(** The integer nearest to [y], the even one of two equally near. *)
Definition nearest_even (y : Q) : Z :=
  let f := Qfloor y in
  match Qcompare (y - inject_Z f) (1 # 2) with
  | Lt => f
  | Gt => (f + 1)%Z
  | Eq => if Z.even f then f else (f + 1)%Z
  end.

Definition round_pos (x : Q) : Q :=
  let e := exponent x in
  inject_Z (nearest_even (x / pow2 e)) * pow2 e.

Definition binary64 (x : Q) : Q :=
  match Qcompare x 0 with
  | Eq => 0
  | Gt => Qred (round_pos x)
  | Lt => Qred (- round_pos (- x))
  end.


(** *** Number::toString, for an integer-valued Number [v >= 0]

    The digits are the fewest that read back as [v], followed by
    zeros; from 22 digits on the exponent notation is used. *)

Open Scope string_scope.

Fixpoint zeros (n : nat) : string :=
  match n with
  | O => ""
  | S n' => String "0" (zeros n')
  end.

(** The integer [c] reads as the double [v]. *)
Definition reads_as (v c : Z) : bool :=
  Qeq_bool (binary64 (inject_Z c)) (inject_Z v).

(** The [k]-digit integer [s], if any, for which [s * 10^(n-k)] reads
    as [v]; of two, the one nearer to [v], the even one if equally
    near. *)
Definition significand (v : Z) (n k : nat) : option Z :=
  let base := (10 ^ Z.of_nat (n - k))%Z in
  let lo := (v / base)%Z in
  let hi := (lo + 1)%Z in
  let ok c :=
    ((10 ^ Z.of_nat (k - 1) <=? c) && (c <? 10 ^ Z.of_nat k)
     && reads_as v (c * base))%Z in
  match ok lo, ok hi with
  | true, true =>
      match (v - lo * base ?= hi * base - v)%Z with
      | Lt => Some lo
      | Gt => Some hi
      | Eq => Some (if Z.even lo then lo else hi)
      end
  | true, false => Some lo
  | false, true => Some hi
  | false, false => None
  end.

(** The least number of digits, from [k] on, with such an integer, and
    the integer. *)
Fixpoint shortest (fuel : nat) (v : Z) (n k : nat) : Z * nat :=
  match fuel with
  | O => (v, n)
  | S fuel' =>
      match significand v n k with
      | Some s => (s, k)
      | None => shortest fuel' v n (S k)
      end
  end.

(** Up to [2^53] every integer is a double and only its own digits
    read back as it.  Beyond, [v] has [n] digits and [n] is the decimal
    exponent, unless the next power of ten reads as [v]. *)
Definition ToString (v : Z) : string :=
  if (v <=? 2 ^ 53)%Z then Str.of_Z v
  else
    let n := String.length (Str.of_Z v) in
    let (s, k) := shortest n v n 1 in
    if (n <=? 21)%nat then Str.of_Z s ++ zeros (n - k)
    else if reads_as v (10 ^ Z.of_nat n) then "1e+" ++ Str.of_Z (Z.of_nat n)
    else
      match Str.of_Z s with
      | String c rest =>
          String c (if (k <=? 1)%nat then "" else "." ++ rest)
          ++ "e+" ++ Str.of_Z (Z.of_nat (n - 1))
      | EmptyString => ""
      end.

End Float.

(** ** Numbers *)

Module Num.

Open Scope Q_scope.

(** Unit round-off of binary64, and the least value from which the
    counter relies on it (well inside the normal numbers). *)
Definition u : Q := Eval vm_compute in 1 # (2 ^ 53).
Definition range_min : Q := 1 # 64.

(** Integers up to [2^53] are Numbers. *)
Definition MAX_EXACT : Z := Eval vm_compute in 2 ^ 53.

(** [Number.MAX_VALUE], [2^1024 - 2^971]. *)
Definition MAX_VALUE : Q := Eval vm_compute in inject_Z (2 ^ 1024 - 2 ^ 971).

(** A Number that is not [NaN]: a finite one, or [Infinity].  (The
    script forms no negative Number from a counter and no [-Infinity].) *)
Inductive number :=
| Finite (q : Q)
| Infinity.

(** The Number arithmetic of the engine: how an exact result is rounded
    (exponent unbounded above), which value [parseInt] reads from
    decimal digits that write the integer [z] (the standard lets an
    engine drop the digits after the 20th), and how an integer-valued
    Number is written by [String].  Zero and the integers up to [2^53]
    are kept by the rounding, from [range_min] on its relative error is
    at most [u]; up to [2^53] an integer is read as itself and written
    with its decimal digits, and an integer from 1 on is read as 1 at
    least.  Exact arithmetic satisfies these laws, and so does binary64
    round-to-nearest ([Float.binary64], [Float.ToString]). *)
Class Rounding := {
  rnd : Q -> Q;
  of_digits : Z -> Q;
  ToString_integer : Z -> string;
  rnd_zero : forall x, x == 0 -> rnd x == 0;
  rnd_integer :
    forall z : Z, (0 <= z <= MAX_EXACT)%Z -> rnd (inject_Z z) == inject_Z z;
  rnd_relative :
    forall x, range_min <= x -> (1 - u) * x <= rnd x <= (1 + u) * x;
  of_digits_integer :
    forall z : Z, (0 <= z <= MAX_EXACT)%Z -> of_digits z == inject_Z z;
  of_digits_positive : forall z : Z, (1 <= z)%Z -> 1 <= of_digits z;
  ToString_integer_digits :
    forall z : Z, (0 <= z <= MAX_EXACT)%Z -> ToString_integer z = Str.of_Z z
}.

Section Arithmetic.
Context {R : Rounding}.

(** The Number for the exact result [x]: its rounding, [Infinity] when
    that exceeds [MAX_VALUE]. *)
Definition to_number (x : Q) : number :=
  if Qle_bool (rnd x) MAX_VALUE then Finite (rnd x) else Infinity.

(** [parseInt] on decimal digits that write the integer [z]. *)
Definition parseInt_decimal (z : Z) : number :=
  if Qle_bool (of_digits z) MAX_VALUE then Finite (of_digits z) else Infinity.

(** [a + b] *)
Definition add (a b : number) : number :=
  match a, b with
  | Finite x, Finite y => to_number (x + y)
  | _, _ => Infinity
  end.

(** [a / b] for a finite [b > 0] *)
Definition div (a : number) (b : Q) : number :=
  match a with
  | Finite x => to_number (x / b)
  | Infinity => Infinity
  end.

(** [String(a)] for an integer-valued [a] *)
Definition ToString (a : number) : string :=
  match a with
  | Finite x => ToString_integer (Qfloor x)
  | Infinity => "Infinity"%string
  end.

End Arithmetic.

(** [a >= b] *)
Definition geb (a b : number) : bool :=
  match a, b with
  | Infinity, _ => true
  | Finite _, Infinity => false
  | Finite x, Finite y => Qle_bool y x
  end.

(** [Math.floor] *)
Definition Math_floor (a : number) : number :=
  match a with
  | Finite x => Finite (inject_Z (Qfloor x))
  | Infinity => Infinity
  end.

(** The order of the Numbers. *)
Definition le (a b : number) : Prop :=
  match a, b with
  | Finite x, Finite y => x <= y
  | _, Infinity => True
  | Infinity, Finite _ => False
  end.

Definition lt (a b : number) : Prop :=
  match a, b with
  | Finite x, Finite y => x < y
  | Finite _, Infinity => True
  | Infinity, _ => False
  end.

Definition finite (a : number) : Prop :=
  match a with
  | Finite _ => True
  | Infinity => False
  end.

(** The value of a finite Number. *)
Definition value (a : number) : Q :=
  match a with
  | Finite x => x
  | Infinity => 0
  end.

(** The Number of an integer up to [2^53]. *)
Definition integer (z : Z) : number := Finite (inject_Z z).

(** A rounding other than the exact one and binary64: towards minus
    infinity on the grid of the multiples of [2^-60]. *)
Definition fine : positive := Eval vm_compute in (2 ^ 60)%positive.
Definition chop (x : Q) : Q := Qfloor (x * inject_Z (Zpos fine)) # fine.

End Num.

(** ** The counter animator ([animateValue], main.js 62-91) *)

Module Counter.

Import Num.
Open Scope string_scope.

(** What the interval callback closes over. *)
Record closure := {
  hasPercent : bool;
  hasPlus : bool;
  hasMinus : bool;
  numericValue : number;
  increment : number;
  current : number
}.

(** A counter element and its interval timer; [None] when no interval
    is running (never set, or cleared). *)
Record element := {
  textContent : string;
  timer : option closure
}.

Definition duration : Q := 2000.
Definition stepTime : Q := 50.
(** [duration / stepTime] is exactly 40. *)
Definition steps : Q := duration / stepTime.

Section WithRounding.
Context {R : Rounding}.

(** [parseInt(text.replace(/[^0-9]/g, ''))]: [None] for [NaN], else
    the Number read from the digits. *)
Definition parse (text : string) : option number :=
  match Str.parseInt (Str.strip_non_digits text) with
  | None => None
  | Some z => Some (parseInt_decimal z)
  end.

(** [animateValue(element)], lines 63-76, on an element whose
    [textContent] is [text] and which has no interval yet: either
    returns at once ([isNaN]) or installs the interval. *)
Definition animateValue (text : string) : element :=
  let hasPercent := Str.includes "%" text in
  let hasPlus := Str.includes "+" text in
  let hasMinus := Str.includes "-" text in
  match parse text with
  | None => {| textContent := text; timer := None |}
  | Some numericValue =>
      let increment := div numericValue steps in
      {| textContent := text;
         timer := Some {| hasPercent := hasPercent;
                          hasPlus := hasPlus;
                          hasMinus := hasMinus;
                          numericValue := numericValue;
                          increment := increment;
                          current := Finite 0 |} |}
  end.

(** The closure after [current] was assigned. *)
Definition set_current (t : closure) (c : number) : closure :=
  {| hasPercent := hasPercent t;
     hasPlus := hasPlus t;
     hasMinus := hasMinus t;
     numericValue := numericValue t;
     increment := increment t;
     current := c |}.

(** Lines 78-79: [current += increment], then the test
    [current >= numericValue]. *)
Definition reaches (t : closure) : bool :=
  geb (add (current t) (increment t)) (numericValue t).

(** Lines 78-82: the new [current] and whether the interval was
    cleared. *)
Definition advance (t : closure) : number * bool :=
  let c := add (current t) (increment t) in
  if geb c (numericValue t) then (numericValue t, true) else (c, false).

(** Lines 85-87: the prefixes and the suffix around the digits [d]. *)
Definition decorate (plus minus percent : bool) (d : string) : string :=
  let d := if minus then "-" ++ d else d in
  let d := if plus then "+" ++ d else d in
  if percent then d ++ "%" else d.

(** Lines 84-87. *)
Definition displayValue (t : closure) (c : number) : string :=
  decorate (hasPlus t) (hasMinus t) (hasPercent t) (ToString (Math_floor c)).

(** One firing of the interval callback (lines 77-90).  A cleared
    interval does not fire. *)
Definition tick (el : element) : element :=
  match timer el with
  | None => el
  | Some t =>
      let (c, cleared) := advance t in
      {| textContent := displayValue t c;
         timer := if cleared then None else Some (set_current t c) |}
  end.

(** The element after the timer has had [k] occasions to fire. *)
Fixpoint run (k : nat) (el : element) : element :=
  match k with
  | O => el
  | S k' => run k' (tick el)
  end.

(** The number shown by each callback that fires, in order, over at
    most [k] firings. *)
Fixpoint shown (k : nat) (el : element) : list number :=
  match k, timer el with
  | S k', Some t => Math_floor (fst (advance t)) :: shown k' (tick el)
  | _, _ => []
  end.

(** The text the element shows after each of these firings. *)
Fixpoint displayed (k : nat) (el : element) : list string :=
  match k, timer el with
  | S k', Some _ => textContent (tick el) :: displayed k' (tick el)
  | _, _ => []
  end.

(** How many callbacks fire before the interval is cleared, within
    [k] occasions. *)
Definition firings (k : nat) (el : element) : nat := List.length (shown k el).

(** The text [d] with the decorations found in [text] put back. *)
Definition redecorate (text : string) (d : string) : string :=
  decorate (Str.includes "+" text) (Str.includes "-" text)
           (Str.includes "%" text) d.

(** *** Invariants of the running interval *)

(** The closure [animateValue] installs for a text with digits. *)
Definition installed (text : string) : closure :=
  let n := parseInt_decimal (Str.decimal (Str.digits text)) in
  {| hasPercent := Str.includes "%" text;
     hasPlus := Str.includes "+" text;
     hasMinus := Str.includes "-" text;
     numericValue := n;
     increment := div n steps;
     current := Finite 0 |}.

(** The closure [t] belongs to a counter with the finite target
    [v >= 1] and is still below it. *)
Definition running (t : closure) (v : Q) : Prop :=
  1 <= v <= MAX_VALUE /\
  (finite (numericValue t) /\ value (numericValue t) == v) /\
  (finite (increment t) /\
   (1 - u) * (v / 40) <= value (increment t) <= (1 + u) * (v / 40)) /\
  (finite (current t) /\ 0 <= value (current t) < v).

(** [m] firings to go: [current] is within [m] 41sts of the target. *)
Definition within (m : nat) (t : closure) (v : Q) : Prop :=
  v - inject_Z (Z.of_nat m) * (v * (1 # 41)) <= value (current t).

End WithRounding.

(** The digits of [z] with the decorations found in [text] put back:
    what lines 84-87 build from the flags of lines 64-66. *)
Definition decorated (text : string) (z : Z) : string :=
  (if Str.includes "+" text then "+" else "") ++
  (if Str.includes "-" text then "-" else "") ++
  Str.of_Z z ++
  (if Str.includes "%" text then "%" else "").

End Counter.

(** ** The specification's wording of the counter parse

    Section 4.3 of the specification describes the parse as recovering
    "a sign (+/- prefix presence), a percent suffix presence, and a base
    integer magnitude (first sequence of digits found)".  These
    definitions follow that sentence, to be compared with [Counter.parse]
    and the flags of [Counter.animateValue]. *)

Module SpecWords.

Open Scope string_scope.

Definition plus_prefix (text : string) : bool := Str.startsWith "+" text.
Definition minus_prefix (text : string) : bool := Str.startsWith "-" text.
Definition percent_suffix (text : string) : bool := Str.endsWith "%" text.

(** The first sequence of digits found, as an integer. *)
Fixpoint first_digit_sequence (s : string) : option Z :=
  match s with
  | EmptyString => None
  | String c rest =>
      if Str.is_digit c then Some (Str.leading_digits 0 s)
      else first_digit_sequence rest
  end.

(** What follows that first sequence. *)
Fixpoint skip_digits (s : string) : string :=
  match s with
  | EmptyString => EmptyString
  | String c rest => if Str.is_digit c then skip_digits rest else s
  end.

Fixpoint after_first_digit_sequence (s : string) : string :=
  match s with
  | EmptyString => EmptyString
  | String c rest =>
      if Str.is_digit c then skip_digits rest
      else after_first_digit_sequence rest
  end.

End SpecWords.

(** ** One-shot intersection observers (main.js 49-60, 95-112, 163-172,
       277-291) *)

Module Observer.

(** Elements are named by a number (their identity as DOM nodes). *)
Definition node := nat.

Record entry := {
  target : node;
  isIntersecting : bool
}.

Section OneShot.
(** The state the triggered action works on, and the action; the four
    observers of the script differ in nothing else. *)
Variable world : Type.
Variable action : node -> world -> world.

(** An observer: its observation targets in the order they were
    added, the world, and a trace of the targets on which the action
    ran, latest first, once for each run. *)
Record observer := {
  observationTargets : list node;
  state : world;
  trace : list node
}.

Definition create (w : world) : observer :=
  {| observationTargets := []; state := w; trace := [] |}.

(** [observer.observe(e)]: observing a target twice has no effect. *)
Definition observe (e : node) (o : observer) : observer :=
  if existsb (Nat.eqb e) (observationTargets o) then o
  else {| observationTargets := observationTargets o ++ [e];
          state := state o;
          trace := trace o |}.

(** [observer.unobserve(e)] *)
Definition unobserve (e : node) (o : observer) : observer :=
  {| observationTargets :=
       filter (fun x => negb (Nat.eqb e x)) (observationTargets o);
     state := state o;
     trace := trace o |}.

(** The body of the callback for one entry:
    [if (entry.isIntersecting) { action(entry.target);
                                 observer.unobserve(entry.target); }] *)
Definition on_entry (o : observer) (en : entry) : observer :=
  if isIntersecting en then
    unobserve (target en)
      {| observationTargets := observationTargets o;
         state := action (target en) (state o);
         trace := target en :: trace o |}
  else o.

(** [entries.forEach(entry => ...)] *)
Definition callback (entries : list entry) (o : observer) : observer :=
  fold_left on_entry entries o.

(** What one update of the rendering appends to the queue of the
    observer.  [change e] tells whether the intersection of [e] crossed
    the threshold since the update before, and to which side.  The
    browser walks the observation targets and queues an entry for each
    one that changed. *)
Definition queued (change : node -> option bool) (o : observer)
  : list entry :=
  flat_map
    (fun e => match change e with
              | Some b => [{| target := e; isIntersecting := b |}]
              | None => []
              end)
    (observationTargets o).

(** One call of the callback.  The browser hands it the whole queue:
    the entries of every update of the rendering since the call
    before, oldest first (the observation targets are the same at each
    of these updates, since only the callback unobserves), so that one
    target can have several entries.  With no entry queued the browser
    does not call, which is the callback on no entry. *)
Definition notify (o : observer) (updates : list (node -> option bool))
  : observer :=
  callback (flat_map (fun change => queued change o) updates) o.

(** The page load: the elements found by the selector are observed,
    then the browser calls any number of times. *)
Definition page_load (w : world) (found : list node)
           (calls : list (list (node -> option bool))) : observer :=
  fold_left notify calls
    (fold_left (fun o e => observe e o) found (create w)).

(** How often the action ran on [e]. *)
Definition runs_on (e : node) (o : observer) : nat :=
  count_occ Nat.eq_dec (trace o) e.

(** Targets are distinct, and no triggered target is still observed. *)
Definition one_shot (o : observer) : Prop :=
  NoDup (observationTargets o) /\
  (forall e, In e (trace o) -> ~ In e (observationTargets o)).

End OneShot.

(** The observer of the counters (lines 49-60).  A [.stat-value]
    element has its text and the intervals set on it, in the order
    they were set; the action is [animateValue]. *)
Record stat := {
  text : string;
  intervals : list Counter.closure
}.

Definition stats := node -> stat.

(** [animateValue(element)] on such an element: the interval, if one
    is installed, is one more on the element. *)
Definition animateValue_on {R : Num.Rounding} (s : stat) : stat :=
  match Counter.timer (Counter.animateValue (text s)) with
  | Some t => {| text := text s; intervals := intervals s ++ [t] |}
  | None => s
  end.

Definition stats_action {R : Num.Rounding} (e : node) (w : stats) : stats :=
  fun x => if Nat.eqb x e then animateValue_on (w e) else w x.

(** The observer of the chat bubbles (lines 95-105): the action sets a
    300 ms timeout that will show the bubble; the world is the list of
    the bubbles with a timeout set, in order. *)
Definition typing_action (e : node) (timeouts : list node) : list node :=
  timeouts ++ [e].

(** The observer of the cards (lines 277-284): the world gives the class
    list of each card, the action is [classList.add('animate-in')]. *)
Definition classList_add (c : string) (l : list string) : list string :=
  if existsb (String.eqb c) l then l else l ++ [c].

Definition reveal_action (e : node) (w : node -> list string)
  : node -> list string :=
  fun x => if Nat.eqb x e then classList_add "animate-in" (w e) else w x.

(** The observer of the chart (lines 163-172): the action is
    [drawChart], whatever the target; the world counts its calls. *)
Definition chart_action (e : node) (calls : nat) : nat := S calls.

(** Sample updates of the rendering: every target has come into view,
    every target has gone out of view. *)
Definition enters : node -> option bool := fun _ => Some true.
Definition leaves : node -> option bool := fun _ => Some false.

End Observer.

(** ** Optional elements and the scroll handlers (main.js 3-12, 33-41,
       266-274) *)

Module Page.

Open Scope string_scope.

(** What a handler can throw. *)
Inductive error := TypeError | SyntaxError.

(** How a handler ends, and the page it leaves. *)
Inductive completion (A : Type) :=
| Normal (a : A)
| Throw (e : error) (a : A).
Arguments Normal {A} a.
Arguments Throw {A} e a.

(** A value assigned to a style property. *)
Inductive css :=
| Unset
| Text (s : string)
| Number (q : Q)
| TranslateY_px (q : Q).   (* translateY(${q}px) *)

Record element := {
  classList : list string;
  background : css;
  transform : css;
  opacity : css
}.

(** The results of the [querySelector]/[getElementById] calls for the
    elements that may be missing; [None] is [null]. *)
Record page := {
  menuToggle : option element;
  navMenu : option element;
  header : option element;
  heroContent : option element;
  has_contactForm : bool;
  has_chartCanvas : bool
}.

(** Which optional listeners the initialisation installed. *)
Record listeners := {
  menu_click : bool;       (* line 7 *)
  header_scroll : bool;    (* line 35, unconditional *)
  parallax_scroll : bool;  (* line 267, unconditional *)
  form_submit : bool;      (* line 116 *)
  chart_observer : bool    (* line 158 *)
}.

Definition is_some {A} (o : option A) : bool :=
  match o with Some _ => true | None => false end.

Definition init (p : page) : listeners :=
  {| menu_click := is_some (menuToggle p);
     header_scroll := true;
     parallax_scroll := true;
     form_submit := has_contactForm p;
     chart_observer := has_chartCanvas p |}.

Definition set_header (p : page) (h : element) : page :=
  {| menuToggle := menuToggle p; navMenu := navMenu p; header := Some h;
     heroContent := heroContent p; has_contactForm := has_contactForm p;
     has_chartCanvas := has_chartCanvas p |}.

Definition set_heroContent (p : page) (h : element) : page :=
  {| menuToggle := menuToggle p; navMenu := navMenu p; header := header p;
     heroContent := Some h; has_contactForm := has_contactForm p;
     has_chartCanvas := has_chartCanvas p |}.

Definition set_menu (p : page) (toggle nav : element) : page :=
  {| menuToggle := Some toggle; navMenu := Some nav; header := header p;
     heroContent := heroContent p; has_contactForm := has_contactForm p;
     has_chartCanvas := has_chartCanvas p |}.

(** [classList.toggle(c)] *)
Definition classList_toggle (c : string) (e : element) : element :=
  {| classList :=
       if existsb (String.eqb c) (classList e)
       then filter (fun x => negb (String.eqb c x)) (classList e)
       else (classList e ++ [c])%list;
     background := background e;
     transform := transform e;
     opacity := opacity e |}.

(** The click listener of lines 8-11.  It is installed only when
    [menuToggle] was found; [navMenu] is used as found. *)
Definition menuToggle_click (p : page) : completion page :=
  match navMenu p, menuToggle p with
  | Some nav, Some toggle =>
      Normal (set_menu p (classList_toggle "active" toggle)
                         (classList_toggle "active" nav))
  | _, _ => Throw TypeError p
  end.

Definition header_gradient : string :=
  "linear-gradient(180deg, rgba(10,10,10,0.95) 0%, rgba(26,26,26,0.9) 100%)".

(** The scroll listener of lines 35-41; [scrollY] is [window.scrollY]. *)
Definition header_on_scroll (scrollY : Q) (p : page) : completion page :=
  match header p with
  | None => Throw TypeError p    (* [header.style] with [header] null *)
  | Some h =>
      Normal (set_header p
        {| classList := classList h;
           background :=
             if Qlt_le_dec 100 scrollY
             then Text "rgba(10, 10, 10, 0.98)"
             else Text header_gradient;
           transform := transform h;
           opacity := opacity h |})
  end.

(** The two expressions of lines 271-272, in binary64: the product by
    [0.5], and the quotient rounded before the difference is. *)
Definition parallax_translateY (scrolled : Q) : Q :=
  Float.binary64 (scrolled * (1 # 2)).
Definition parallax_opacity (scrolled : Q) : Q :=
  Float.binary64 (1 - Float.binary64 (scrolled / 600)).

(** The scroll listener of lines 267-274; [scrolled] is
    [window.pageYOffset]. *)
Definition parallax_on_scroll (scrolled : Q) (p : page) : completion page :=
  match heroContent p with
  | Some hero =>
      Normal (set_heroContent p
        {| classList := classList hero;
           background := background hero;
           transform := TranslateY_px (parallax_translateY scrolled);
           opacity := Number (parallax_opacity scrolled) |})
  | None => Normal p
  end.

(** A scroll event, at offset [y] ([scrollY] and [pageYOffset] name the
    same offset): the installed listeners run in the order they were
    added.  A listener that throws does not stop the next one; what it
    threw is reported as an uncaught error. *)
Definition run_listener (h : page -> completion page)
           (acc : page * list error) : page * list error :=
  match h (fst acc) with
  | Normal p' => (p', snd acc)
  | Throw e p' => (p', (snd acc ++ [e])%list)
  end.

Definition scroll_event (y : Q) (p : page) : page * list error :=
  run_listener (parallax_on_scroll y)
    (run_listener (header_on_scroll y) (p, [])).

(** An element with no class and no inline style, and a page with
    nothing but a hero content. *)
Definition plain : element :=
  {| classList := []; background := Unset; transform := Unset;
     opacity := Unset |}.

Definition hero_only : page :=
  {| menuToggle := None; navMenu := None; header := None;
     heroContent := Some plain;
     has_contactForm := false; has_chartCanvas := false |}.

End Page.

(** ** The contact form (main.js 114-143) *)

Module Form.

Open Scope string_scope.
Open Scope Z_scope.

(** The state of a control of the form, by kind: a text-like or hidden
    input or a textarea (with no [dirname] attribute), with the value
    it submits and the value [reset()] gives it back; a checkbox or
    radio button, with its value and whether it is checked now and by
    default; a select, with the values of the options selected now and
    after a reset; a file input with the names of the files chosen; a
    button (or an input of type submit, reset, button or image). *)
Inductive control_state :=
| Input (value defaultValue : string)
| Checkable (value : string) (checked defaultChecked : bool)
| Select (selected defaultSelected : list string)
| FileInput (files : list string)
| Button.

(** A control of the form: its name (empty when it has none), whether
    it is disabled, and its state. *)
Record field := {
  name : string;
  disabled : bool;
  control : control_state
}.

(** The submit control: its label and its background. *)
Record button := {
  textContent : string;
  background : string
}.

(** The value of a form entry: a string, or a file. *)
Inductive entry_value :=
| Text (s : string)
| File (filename : string).

(** The entries a control adds to the entry list of the form: none
    when it is disabled or has no name, when it is a button (the form
    is read with no submitter) or an unchecked checkbox or radio button;
    one for each selected option of a select, one for each file of a
    file input (and one empty file when there is none); else one with
    its value. *)
Definition entries_of (f : field) : list (string * entry_value) :=
  if disabled f || String.eqb (name f) "" then []
  else
    match control f with
    | Input v _ => [(name f, Text v)]
    | Checkable v checked _ => if checked then [(name f, Text v)] else []
    | Select selected _ => map (fun v => (name f, Text v)) selected
    | FileInput [] => [(name f, File "")]
    | FileInput files => map (fun n => (name f, File n)) files
    | Button => []
    end.

(** [new FormData(form)]: the entries of the controls, in tree order. *)
Definition FormData (fs : list field) : list (string * entry_value) :=
  flat_map entries_of fs.

(** An object with string keys, its properties in the order of its own
    keys: the array indices first, ascending, then the other names in
    the order they were created. *)
Definition object := list (string * entry_value).

(** The integer of a key that is an array index: the decimal digits,
    without a leading zero, of an integer below [2^32 - 1]. *)
Definition array_index (k : string) : option Z :=
  match Str.parseInt k with
  | Some n =>
      if String.eqb (Str.of_Z n) k && (n <=? 4294967294) then Some n
      else None
  | None => None
  end.

Definition has_property (k : string) (o : object) : bool :=
  existsb (fun kv => String.eqb k (fst kv)) o.

Fixpoint get_property (k : string) (o : object) : option entry_value :=
  match o with
  | [] => None
  | (k', v') :: rest => if String.eqb k k' then Some v' else get_property k rest
  end.

(** An existing property takes the value where it is. *)
Fixpoint replace_property (k : string) (v : entry_value) (o : object)
  : object :=
  match o with
  | [] => []
  | (k', v') :: rest =>
      if String.eqb k k' then (k, v) :: rest
      else (k', v') :: replace_property k v rest
  end.

(** A new array index goes before the first greater index, or after
    the last index. *)
Fixpoint insert_index (n : Z) (k : string) (v : entry_value) (o : object)
  : object :=
  match o with
  | [] => [(k, v)]
  | (k', v') :: rest =>
      match array_index k' with
      | Some n' =>
          if n' <? n then (k', v') :: insert_index n k v rest
          else (k, v) :: o
      | None => (k, v) :: o
      end
  end.

(** Creating or setting the data property [k]. *)
Definition set_property (k : string) (v : entry_value) (o : object)
  : object :=
  if has_property k o then replace_property k v o
  else
    match array_index k with
    | Some n => insert_index n k v o
    | None => (o ++ [(k, v)])%list
    end.

(** [Object.fromEntries(entries)] *)
Definition fromEntries (entries : list (string * entry_value)) : object :=
  fold_left (fun o kv => set_property (fst kv) (snd kv) o) entries [].

(** [form.reset()] on one control. *)
Definition reset (f : field) : field :=
  {| name := name f;
     disabled := disabled f;
     control :=
       match control f with
       | Input _ d => Input d d
       | Checkable v _ d => Checkable v d d
       | Select _ d => Select d d
       | FileInput _ => FileInput []
       | Button => Button
       end |}.

(** A pending [setTimeout] of line 135: when it is due and the
    [originalText] its callback closes over. *)
Record timeout := {
  due : Z;
  originalText : string
}.

Record state := {
  now : Z;                                  (* milliseconds *)
  fields : list field;
  submitButton : option button;             (* [.submit-button], if any *)
  defaultPrevented : bool;                  (* of the submit event *)
  timeouts : list timeout;                  (* in the order they were set *)
  console : list (string * object)          (* what was logged *)
}.

Definition success_label : string := "✓ Mensaje Enviado!".
Definition success_color : string :=
  "linear-gradient(135deg, #2ecc71, #27ae60)".
Definition brand_color : string :=
  "linear-gradient(135deg, var(--lannister-gold), var(--lannister-red))".

Inductive completion := Normal (s : state) | Throw (s : state).

(** The submit listener, lines 117-142. *)
Definition on_submit (s : state) : completion :=
  let data := fromEntries (FormData (fields s)) in
  match submitButton s with
  | None =>
      (* [submitButton.textContent] with [submitButton] null *)
      Throw {| now := now s; fields := fields s; submitButton := None;
               defaultPrevented := true; timeouts := timeouts s;
               console := console s |}
  | Some b =>
      let originalText := textContent b in
      Normal {| now := now s;
                fields := map reset (fields s);
                submitButton :=
                  Some {| textContent := success_label;
                          background := success_color |};
                defaultPrevented := true;
                timeouts :=
                  (timeouts s ++
                   [{| due := now s + 3000; originalText := originalText |}])%list;
                console :=
                  (console s ++ [("Form submitted:", data)])%list |}
  end.

(** The callback of line 135-138 with its closure [t]. *)
Definition on_timeout (t : timeout) (b : option button) : option button :=
  match b with
  | Some _ => Some {| textContent := originalText t; background := brand_color |}
  | None => None
  end.

(** The timeouts due by [t] run, in the order they were set (they all
    have the same delay); the others stay pending. *)
Fixpoint fire (t : Z) (pending : list timeout) (b : option button)
  : list timeout * option button :=
  match pending with
  | [] => ([], b)
  | p :: rest =>
      if due p <=? t then fire t rest (on_timeout p b)
      else let (keep, b') := fire t rest b in (p :: keep, b')
  end.

(** [dt] milliseconds pass. *)
Definition elapse (dt : Z) (s : state) : state :=
  let t := now s + dt in
  let (keep, b) := fire t (timeouts s) (submitButton s) in
  {| now := t; fields := fields s; submitButton := b;
     defaultPrevented := defaultPrevented s; timeouts := keep;
     console := console s |}.

(** The user submits the form: a fresh event goes to the listener. *)
Definition submit_event (s : state) : completion :=
  on_submit {| now := now s; fields := fields s;
               submitButton := submitButton s; defaultPrevented := false;
               timeouts := timeouts s; console := console s |}.

(** The value a name has in an entry list when the last entry of a
    name wins. *)
Definition last_value (k : string) (entries : list (string * entry_value))
  : option entry_value :=
  fold_left (fun acc kv => if String.eqb k (fst kv) then Some (snd kv) else acc)
            entries None.

(** The order of the own keys. *)
Definition key_before (k1 k2 : string) : Prop :=
  match array_index k1, array_index k2 with
  | Some a, Some b => a < b
  | Some _, None => True
  | None, Some _ => False
  | None, None => True
  end.

(** A sample form, already filled in: two empty-by-default fields, a
    country preset to "MX", a newsletter box left unchecked and a
    disabled field, under a gold submit control. *)
Definition sample : state :=
  {| now := 0;
     fields :=
       [ {| name := "name"; disabled := false; control := Input "Ana" "" |};
         {| name := "email"; disabled := false;
            control := Input "a@b.com" "" |};
         {| name := "country"; disabled := false;
            control := Input "MX" "MX" |};
         {| name := "news"; disabled := false;
            control := Checkable "on" false false |};
         {| name := "ref"; disabled := true; control := Input "x" "" |} ];
     submitButton := Some {| textContent := "Enviar Mensaje";
                             background := "#d4af37" |};
     defaultPrevented := false;
     timeouts := [];
     console := [] |}.

(** The state a completion carries. *)
Definition after (c : completion) : state :=
  match c with Normal s => s | Throw s => s end.

End Form.

(** ** The chart ([drawChart], main.js 175-264) *)

Module Chart.

Open Scope string_scope.
Open Scope Q_scope.

Definition data : list Q := [65; 78; 85; 72; 90; 95; 88; 92; 97; 100; 105; 110].
Definition padding : Q := 40.
Definition animationDuration : Q := 2000.

(** What [fillStyle] is set to: a colour or the gradient built at
    lines 191-193. *)
Inductive paint := Color (c : string) | gradient.

(** The calls on the 2D context, as a trace. *)
Inductive op :=
| clearRect (x y w h : Q)
| set_strokeStyle (c : string)
| set_lineWidth (w : Q)
| set_lineCap (c : string)
| set_lineJoin (c : string)
| set_fillStyle (p : paint)
| set_shadowBlur (b : Q)
| set_shadowColor (c : string)
| beginPath
| moveTo (x y : Q)
| lineTo (x y : Q)
| closePath
| stroke
| fill
| arc (x y r : Q).        (* from angle 0 to [Math.PI * 2] *)

Record point := { x : Q; y : Q }.

(** [Math.max(...l)] of a non-empty list. *)
Definition Math_max (l : list Q) : Q :=
  match l with
  | [] => 0
  | v :: rest => fold_left Qmax rest v
  end.

(** [Math.min(a, b)] *)
Definition Math_min (a b : Q) : Q := Qmin a b.

(** [l.slice(0, stop)] for an integer [stop]; a negative [stop] counts
    from the end. *)
Definition slice0 {A} (stop : Z) (l : list A) : list A :=
  let len := Z.of_nat (List.length l) in
  let k := if (stop <? 0)%Z then Z.max (len + stop) 0 else Z.min stop len in
  firstn (Z.to_nat k) l.

(** [l.map((value, index) => f value index)] *)
Fixpoint mapi_from {A B} (i : nat) (f : A -> nat -> B) (l : list A) : list B :=
  match l with
  | [] => []
  | v :: rest => f v i :: mapi_from (S i) f rest
  end.
Definition mapi {A B} (f : A -> nat -> B) (l : list A) : list B :=
  mapi_from 0 f l.

Definition length_Q {A} (l : list A) : Q := inject_Z (Z.of_nat (List.length l)).

Section Canvas.
Variables width height : Q.

Definition chartWidth : Q := width - padding * 2.
Definition chartHeight : Q := height - padding * 2.

(** Lines 218-223. *)
Definition points (progress : Q) : list point :=
  let maxValue := Math_max data in
  mapi (fun value index =>
          {| x := padding
                  + (chartWidth / (length_Q data - 1))
                    * inject_Z (Z.of_nat index);
             y := height - padding - (value / maxValue) * chartHeight |})
       (slice0 (Qfloor (length_Q data * progress)) data).

(** Lines 204-215: the canvas is cleared and the grid drawn. *)
Definition grid : list op :=
  [clearRect 0 0 width height;
   set_strokeStyle "rgba(192, 192, 192, 0.1)";
   set_lineWidth 1] ++
  flat_map
    (fun i : Z =>
       let y := padding + (chartHeight / 5) * inject_Z i in
       [beginPath; moveTo padding y; lineTo (width - padding) y; stroke])
    [0; 1; 2; 3; 4; 5]%Z.

Definition lineTo_point (p : point) : op := lineTo (x p) (y p).

(** Lines 226-233, 235-241, 244-255. *)
Definition area (first last : point) (pts : list point) : list op :=
  [set_fillStyle gradient; beginPath; moveTo (x first) (height - padding)]
  ++ map lineTo_point pts
  ++ [lineTo (x last) (height - padding); closePath; fill].

Definition line (first : point) (pts : list point) : list op :=
  [set_strokeStyle "#d4af37"; set_lineWidth 3; beginPath;
   moveTo (x first) (y first)]
  ++ map lineTo_point pts
  ++ [stroke].

Definition dots (pts : list point) : list op :=
  flat_map
    (fun p =>
       [set_fillStyle (Color "#d4af37"); beginPath; arc (x p) (y p) 4; fill;
        set_shadowBlur 10; set_shadowColor "#d4af37"; fill;
        set_shadowBlur 0])
    pts.

(** What one call of [animate] draws, for the [progress] it computed
    (lines 204-256). *)
Definition frame (progress : Q) : list op :=
  grid ++
  match points progress with
  | (first :: _ :: _) as pts =>        (* [points.length > 1] *)
      area first (List.last pts first) pts ++ line first pts ++ dots pts
  | _ => []
  end.

End Canvas.

(** Line 202, for clock readings in milliseconds. *)
Definition progress_at (startTime currentTime : Z) : Q :=
  Math_min (inject_Z (currentTime - startTime) / animationDuration) 1.

(** Line 258: is another frame requested? *)
Definition again (progress : Q) : bool :=
  if Qlt_le_dec progress 1 then true else false.

(** The frame loop.  [clock] lists what [Date.now()] returns in the
    successive calls of [animate], the first being the direct call of
    line 263.  The result is the progress of each frame drawn and
    whether a further frame is still requested when the list ends. *)
Fixpoint animate (startTime : Z) (clock : list Z) : list Q * bool :=
  match clock with
  | [] => ([], true)
  | currentTime :: later =>
      let progress := progress_at startTime currentTime in
      if again progress then
        let (ps, pending) := animate startTime later in (progress :: ps, pending)
      else ([progress], false)
  end.

(** Counting calls in a trace. *)
Definition is_fill (o : op) : bool :=
  match o with fill => true | _ => false end.
Definition is_stroke (o : op) : bool :=
  match o with stroke => true | _ => false end.
Definition is_arc (o : op) : bool :=
  match o with arc _ _ _ => true | _ => false end.
Definition count (f : op -> bool) (l : list op) : nat :=
  List.length (filter f l).

End Chart.

(** ** Further notions on counter texts and runs *)

Module CounterMore.

Import Num Counter.

(** Every character of the string is a decimal digit. *)
Fixpoint all_digits (s : string) : bool :=
  match s with
  | EmptyString => true
  | String c rest => Str.is_digit c && all_digits rest
  end.

(** The largest gain of one firing is below a 39.5th of the target. *)
Definition behind (k : nat) (t : closure) (v : Q) : Prop :=
  (value (current t) + inject_Z (Z.of_nat k) * (v * (2 # 79)) < v)%Q.

End CounterMore.

(** ** What the browser reported over a page load *)

Module ObserverMore.

Import Observer.

(** The element is among the elements found by the selector. *)
Definition found_in (e : node) (found : list node) : bool :=
  existsb (Nat.eqb e) found.

Definition intersecting (e : node) (change : node -> option bool) : bool :=
  match change e with
  | Some true => true
  | _ => false
  end.

(** How many updates behind one call report the element as
    intersecting. *)
Definition reports (e : node) (updates : list (node -> option bool)) : nat :=
  List.length (filter (intersecting e) updates).

(** Some call reported the element as intersecting. *)
Definition reported (e : node) (calls : list (list (node -> option bool)))
  : bool :=
  existsb (fun updates => negb (Nat.eqb (reports e updates) 0)) calls.

(** The reports of the first call that has any. *)
Fixpoint first_reports (e : node) (calls : list (list (node -> option bool)))
  : nat :=
  match calls with
  | [] => 0
  | updates :: rest =>
      if Nat.eqb (reports e updates) 0 then first_reports e rest
      else reports e updates
  end.

(** How many entries of a queue trigger the action on the element. *)
Definition triggers (e : node) (entries : list entry) : nat :=
  List.length
    (filter (fun en => Nat.eqb (target en) e && isIntersecting en) entries).

End ObserverMore.

(** ** Navigation: the internal anchors (main.js 14-31) and sequences of
       scroll events *)

Module Nav.

Import Page.
Open Scope string_scope.

(** [e.classList.contains(c)] *)
Definition has_class (c : string) (e : element) : bool :=
  existsb (String.eqb c) (classList e).

(** [e.classList.remove(c)] *)
Definition classList_remove (c : string) (e : element) : element :=
  {| classList := filter (fun x => negb (String.eqb c x)) (classList e);
     background := background e;
     transform := transform e;
     opacity := opacity e |}.

Definition set_navMenu (p : page) (nav : element) : page :=
  {| menuToggle := menuToggle p; navMenu := Some nav; header := header p;
     heroContent := heroContent p; has_contactForm := has_contactForm p;
     has_chartCanvas := has_chartCanvas p |}.

(** What [document.querySelector(selector)] does: it throws a
    [SyntaxError] when the selector is not valid, returns [null] when no
    element matches and else the first element that matches. *)
Inductive selected :=
| Invalid
| Missing
| Found (t : nat).

(** [document.querySelector] on a document, given what the document
    answers to each selector.  The lone "#" (a hash with no identifier
    after it) is not a valid selector, whatever the document. *)
Definition querySelector (document : string -> selected) (selector : string)
  : selected :=
  if String.eqb selector "#" then Invalid else document selector.

(** What a click on an anchor leaves: the page, whether the default
    jump was prevented, and the element scrolled into view (smoothly,
    its top at the top of the viewport), if any. *)
Record click := {
  page_after : page;
  defaultPrevented : bool;
  scrolledIntoView : option nat
}.

(** The click listener of lines 16-30 on an anchor whose [href]
    attribute reads [href]. *)
Definition anchor_click (document : string -> selected) (href : string)
           (p : page) : completion click :=
  match querySelector document href with
  | Invalid =>                   (* thrown by [document.querySelector] *)
      Throw SyntaxError {| page_after := p; defaultPrevented := true;
                           scrolledIntoView := None |}
  | Missing =>
      Normal {| page_after := p; defaultPrevented := true;
                scrolledIntoView := None |}
  | Found t =>
      match navMenu p with
      | None =>                  (* [navMenu.classList] with [navMenu] null *)
          Throw TypeError {| page_after := p; defaultPrevented := true;
                             scrolledIntoView := Some t |}
      | Some nav =>
          if has_class "active" nav then
            let nav' := classList_remove "active" nav in
            match menuToggle p with
            | None =>            (* [menuToggle.classList], idem *)
                Throw TypeError {| page_after := set_navMenu p nav';
                                   defaultPrevented := true;
                                   scrolledIntoView := Some t |}
            | Some toggle =>
                Normal {| page_after :=
                            set_menu p (classList_remove "active" toggle) nav';
                          defaultPrevented := true;
                          scrolledIntoView := Some t |}
            end
          else
            Normal {| page_after := p; defaultPrevented := true;
                      scrolledIntoView := Some t |}
      end
  end.

(** What a completion carries. *)
Definition outcome {A} (c : completion A) : A :=
  match c with Normal a => a | Throw _ a => a end.

(** The menu and its toggle agree on being active. *)
Definition in_sync (p : page) : Prop :=
  match navMenu p, menuToggle p with
  | Some nav, Some toggle => has_class "active" nav = has_class "active" toggle
  | _, _ => True
  end.

(** The page after a sequence of scroll events. *)
Definition scroll_all (offsets : list Q) (p : page) : page :=
  fold_left (fun q y => fst (scroll_event y q)) offsets p.

End Nav.

(** ** The contact form over time *)

Module FormLoop.

Import Form.

(** What happens to the form: the user submits it, or time passes. *)
Inductive event :=
| Submit
| Elapse (dt : Z).

Definition step (s : state) (ev : event) : state :=
  match ev with
  | Submit => after (submit_event s)
  | Elapse dt => elapse dt s
  end.

Definition run (evs : list event) (s : state) : state := fold_left step evs s.

(** Time does not go back. *)
Definition forward (ev : event) : Prop :=
  match ev with
  | Submit => True
  | Elapse dt => (0 <= dt)%Z
  end.




End FormLoop.

(** ** The cards: hover effect (main.js 145-154), entrance (276-301) *)

Module Cards.

Open Scope string_scope.

(** A card: its classes and the inline style properties the script
    sets (the empty string for a property not set). *)
Record card := {
  classList : list string;
  opacity : string;
  transform : string;
  transition : string
}.

(** Lines 287-289, for each [.solution-card], [.about-card] and
    [.info-card]. *)
Definition prepare (c : card) : card :=
  {| classList := classList c;
     opacity := "0";
     transform := "translateY(50px)";
     transition := "all 0.6s ease" |}.

(** Lines 147-149 and 151-153, on a [.solution-card]. *)
Definition mouseenter (c : card) : card :=
  {| classList := classList c; opacity := opacity c;
     transform := "translateY(-10px)"; transition := transition c |}.

Definition mouseleave (c : card) : card :=
  {| classList := classList c; opacity := opacity c;
     transform := "translateY(0)"; transition := transition c |}.

(** Line 280: [classList.add('animate-in')]. *)
Definition reveal (c : card) : card :=
  {| classList := Observer.classList_add "animate-in" (classList c);
     opacity := opacity c; transform := transform c;
     transition := transition c |}.

Inductive event := MouseEnter | MouseLeave | Reveal.

(** [hover] tells whether the card is a [.solution-card], the only kind
    with the two mouse listeners. *)
Definition step (hover : bool) (c : card) (ev : event) : card :=
  match ev with
  | MouseEnter => if hover then mouseenter c else c
  | MouseLeave => if hover then mouseleave c else c
  | Reveal => reveal c
  end.

Definition run (hover : bool) (evs : list event) (c : card) : card :=
  fold_left (step hover) evs c.

Definition revealed (c : card) : bool :=
  existsb (String.eqb "animate-in") (classList c).

(** What the inline style and the rule injected at lines 294-301
    ([.animate-in { opacity: 1 !important; transform: translateY(0)
    !important; }]) give together: a declaration marked important in a
    rule wins over an inline declaration that is not. *)
Definition styled_opacity (c : card) : string :=
  if revealed c then "1" else opacity c.

Definition styled_transform (c : card) : string :=
  if revealed c then "translateY(0)" else transform c.

Definition is_reveal (ev : event) : bool :=
  match ev with Reveal => true | _ => false end.

(** The transform the last mouse event, if any, left inline. *)
Fixpoint last_hover (evs : list event) (start : string) : string :=
  match evs with
  | [] => start
  | MouseEnter :: rest => last_hover rest "translateY(-10px)"
  | MouseLeave :: rest => last_hover rest "translateY(0)"
  | Reveal :: rest => last_hover rest start
  end.

End Cards.

(** ** The chat bubbles over time (main.js 93-112) *)

Module Bubbles.
Import Observer.

Open Scope string_scope.
Open Scope Z_scope.

(** The three inline style properties the script sets on a
    [.chat-message]. *)
Record style := {
  opacity : string;
  transform : string;
  transition : string
}.

(** The world of the typing observer: the clock in milliseconds, the
    inline style of each bubble, and the timeouts set and not yet run,
    each with the time it is due, in the order they were set. *)
Record world := {
  now : Z;
  styles : node -> style;
  timeouts : list (Z * node)
}.

Definition set_style (e : node) (s : style) (st : node -> style)
  : node -> style :=
  fun x => if Nat.eqb x e then s else st x.

(** Lines 108-110. *)
Definition hidden : style :=
  {| opacity := "0";
     transform := "translateY(20px)";
     transition := "all 0.5s ease" |}.

(** Lines 99-100, the body of the timeout. *)
Definition shown_style (s : style) : style :=
  {| opacity := "1";
     transform := "translateY(0)";
     transition := transition s |}.

Definition show (e : node) (st : node -> style) : node -> style :=
  set_style e (shown_style (st e)) st.

(** Lines 98-101: [setTimeout(() => {...}, 300)]. *)
Definition action (e : node) (w : world) : world :=
  {| now := now w;
     styles := styles w;
     timeouts := (timeouts w ++ [(now w + 300, e)])%list |}.

Definition due (t : Z) (to : Z * node) : bool := fst to <=? t.

(** [dt] milliseconds pass: the timeouts due by then run, in the order
    they were set, and are gone. *)
Definition elapse (dt : Z) (w : world) : world :=
  let t := now w + dt in
  {| now := t;
     styles :=
       fold_left (fun st to => if due t to then show (snd to) st else st)
                 (timeouts w) (styles w);
     timeouts := filter (fun to => negb (due t to)) (timeouts w) |}.

(** Lines 107-112, for one [.chat-message]: the three style
    properties are set, then the element is observed. *)
Definition prepare (e : node) (o : observer world) : observer world :=
  observe e
    {| observationTargets := observationTargets o;
       state := {| now := now (state o);
                   styles := set_style e hidden (styles (state o));
                   timeouts := timeouts (state o) |};
       trace := trace o |}.

Definition start (found : list node) (st0 : node -> style)
  : observer world :=
  fold_left (fun o e => prepare e o) found
    (create {| now := 0; styles := st0; timeouts := [] |}).

(** What follows: calls of the callback by the browser, each with the
    updates of the rendering behind it, and time passing. *)
Inductive event :=
| Notify (updates : list (node -> option bool))
| Elapse (dt : Z).

Definition step (o : observer world) (ev : event) : observer world :=
  match ev with
  | Notify updates => notify action o updates
  | Elapse dt =>
      {| observationTargets := observationTargets o;
         state := elapse dt (state o);
         trace := trace o |}
  end.

Definition run (evs : list event) (o : observer world) : observer world :=
  fold_left step evs o.

(** The clock does not run backwards. *)
Definition forward (ev : event) : Prop :=
  match ev with
  | Notify _ => True
  | Elapse dt => 0 <= dt
  end.

(** The milliseconds that pass during [evs]. *)
Fixpoint elapsed (evs : list event) : Z :=
  match evs with
  | [] => 0
  | Notify _ :: rest => elapsed rest
  | Elapse dt :: rest => dt + elapsed rest
  end.

Definition visible : style :=
  {| opacity := "1";
     transform := "translateY(0)";
     transition := "all 0.5s ease" |}.

(** [o'] comes after [o] with the clock and the styles untouched, and
    the new timeouts are those of the new triggers. *)
Definition later (o o' : observer world) : Prop :=
  now (state o') = now (state o) /\
  styles (state o') = styles (state o) /\
  incl (timeouts (state o)) (timeouts (state o')) /\
  incl (trace o) (trace o') /\
  (forall d x, In (d, x) (timeouts (state o')) ->
               In (d, x) (timeouts (state o)) \/
               (d = now (state o) + 300 /\ In x (trace o'))) /\
  (forall x, In x (trace o') ->
             In x (trace o) \/
             In (now (state o) + 300, x) (timeouts (state o'))).

(** The bubble [e] is shown, or hidden with a timeout due by [D]. *)
Definition awaited (e : node) (D : Z) (o : observer world) : Prop :=
  styles (state o) e = visible \/
  (styles (state o) e = hidden /\
   exists d, In (d, e) (timeouts (state o)) /\ d <= D).

(** What holds of the page after the events [evs]. *)
Definition sound (found : list node) (st0 : node -> style)
           (evs : list event) : Prop :=
  let o := run evs (start found st0) in
  now (state o) = elapsed evs /\
  (forall d x, In (d, x) (timeouts (state o)) ->
     now (state o) < d /\
     exists pre post,
       evs = (pre ++ post)%list /\
       In x (trace (run pre (start found st0))) /\
       d = elapsed pre + 300) /\
  (forall x, In x found ->
     (styles (state o) x = hidden /\
      (In x (trace o) -> exists d, In (d, x) (timeouts (state o)))) \/
     (styles (state o) x = visible /\
      exists pre post,
        evs = (pre ++ post)%list /\
        In x (trace (run pre (start found st0))) /\
        300 <= elapsed post)).

(** Sample data. *)
Definition blank : node -> style :=
  fun _ => {| opacity := ""; transform := ""; transition := "" |}.

(** One update of the rendering, at which every bubble has come into
    view. *)
Definition appear : list (node -> option bool) := [fun _ => Some true].

End Bubbles.

(* ===================================================================== *)
(** * Part II.  Properties                                                *)
(* ===================================================================== *)

(** ** binary64 rounding *)

Section FloatFacts.
Import Float.
Open Scope Q_scope.

Lemma pow2_pos (k : Z) : 0 < pow2 k.
Proof. apply Qpower_0_lt. reflexivity. Qed.

Lemma pow2_plus (a b : Z) : pow2 (a + b) == pow2 a * pow2 b.
Proof. apply Qpower_plus. discriminate. Qed.

Lemma pow2_lt (a b : Z) : (a < b)%Z -> pow2 a < pow2 b.
Proof. intros H. apply Qpower_lt_compat_l; [exact H | reflexivity]. Qed.

Lemma pow2_le (a b : Z) : (a <= b)%Z -> pow2 a <= pow2 b.
Proof. intros H. apply Qpower_le_compat_l; [exact H | discriminate]. Qed.

Lemma pow2_lt_inv (a b : Z) : pow2 a < pow2 b -> (a < b)%Z.
Proof. intros H. apply (Qpower_lt_compat_l_inv 2); [exact H | reflexivity]. Qed.

Lemma pow2_Z (k : Z) : (0 <= k)%Z -> pow2 k == inject_Z (2 ^ k).
Proof. intros H. unfold pow2. rewrite (Zpower_Qpower 2 k H). reflexivity. Qed.

Lemma pow2_sub (a b : Z) : pow2 (a - b) * pow2 b == pow2 a.
Proof. rewrite <- pow2_plus. replace (a - b + b)%Z with a by ring. reflexivity. Qed.

Lemma log2_bounds (a : Z) :
  (0 < a)%Z -> pow2 (Z.log2 a) <= inject_Z a < pow2 (Z.log2 a + 1).
Proof.
  intros H. destruct (Z.log2_spec a H) as [H1 H2].
  pose proof (Z.log2_nonneg a) as H0.
  rewrite !pow2_Z by lia. rewrite <- Zle_Qle, <- Zlt_Qlt.
  split; [exact H1 | exact H2].
Qed.

Lemma floor_log2_spec (x : Q) :
  0 < x -> pow2 (floor_log2 x) <= x < pow2 (floor_log2 x + 1).
Proof.
  intros Hx. destruct x as [a b].
  assert (Ha : (0 < a)%Z).
  { unfold Qlt in Hx. cbn in Hx. lia. }
  destruct (log2_bounds Ha) as [A1 A2].
  destruct (@log2_bounds (Zpos b) eq_refl) as [B1 B2].
  assert (Hb : 0 < inject_Z (Zpos b)) by reflexivity.
  assert (E : a # b == inject_Z a / inject_Z (Zpos b)) by apply Qmake_Qdiv.
  unfold floor_log2. cbn [Qnum Qden].
  set (la := Z.log2 a) in *. set (lb := Z.log2 (Zpos b)) in *.
  set (A := inject_Z a) in *. set (B := inject_Z (Zpos b)) in *.
  destruct (Qle_bool (pow2 (la - lb)) (a # b)) eqn:T.
  - apply Qle_bool_iff in T. split; [exact T|].
    rewrite E. apply Qlt_shift_div_r; [exact Hb|].
    apply Qlt_le_trans with (pow2 (la + 1)); [exact A2|].
    replace (la + 1)%Z with ((la - lb + 1) + lb)%Z by ring.
    rewrite pow2_plus. apply Qmult_le_l; [apply pow2_pos | exact B1].
  - assert (T' : a # b < pow2 (la - lb)).
    { apply Qnot_le_lt. intro H. apply Qle_bool_iff in H. congruence. }
    split.
    + rewrite E. apply Qle_shift_div_l; [exact Hb|].
      apply Qle_trans with (pow2 la); [|exact A1].
      replace la with ((la - lb - 1) + (lb + 1))%Z at 2 by ring.
      rewrite pow2_plus. apply Qmult_le_l; [apply pow2_pos|].
      apply Qlt_le_weak, B2.
    + replace (la - lb - 1 + 1)%Z with (la - lb)%Z by ring. exact T'.
Qed.

Lemma nearest_even_close (y : Q) :
  y - (1 # 2) <= inject_Z (nearest_even y) <= y + (1 # 2).
Proof.
  unfold nearest_even.
  pose proof (Qfloor_le y) as H1. pose proof (Qlt_floor y) as H2.
  set (f := Qfloor y) in *.
  rewrite inject_Z_plus in H2. change (inject_Z 1) with 1 in H2.
  destruct (Qcompare_spec (y - inject_Z f) (1 # 2)) as [H|H|H].
  - destruct (Z.even f); [|rewrite inject_Z_plus; change (inject_Z 1) with 1];
      split; lra.
  - split; lra.
  - rewrite inject_Z_plus. change (inject_Z 1) with 1. split; lra.
Qed.

Lemma nearest_even_comp (y y' : Q) :
  y == y' -> nearest_even y = nearest_even y'.
Proof.
  intros H. unfold nearest_even. rewrite (Qfloor_comp _ _ H).
  assert (E : Qcompare (y - inject_Z (Qfloor y')) (1 # 2)
              = Qcompare (y' - inject_Z (Qfloor y')) (1 # 2)).
  { apply Qcompare_comp; [rewrite H|]; reflexivity. }
  rewrite E. reflexivity.
Qed.

Lemma nearest_even_Z (z : Z) : nearest_even (inject_Z z) = z.
Proof.
  unfold nearest_even. rewrite Qfloor_Z.
  assert (E : Qcompare (inject_Z z - inject_Z z) (1 # 2) = Lt).
  { rewrite <- Qlt_alt. setoid_replace (inject_Z z - inject_Z z) with 0 by ring.
    reflexivity. }
  rewrite E. reflexivity.
Qed.

Lemma scaled (x : Q) (e : Z) : x / pow2 e * pow2 e == x.
Proof.
  pose proof (pow2_pos e) as H. field. intro H0. rewrite H0 in H.
  discriminate H.
Qed.

(** In the normal range the relative error is at most [2^-53]. *)
Lemma round_pos_relative (x : Q) :
  pow2 (-1022) <= x ->
  (1 - (1 # 9007199254740992)) * x <= round_pos x
  <= (1 + (1 # 9007199254740992)) * x.
Proof.
  intros Hx.
  assert (H0 : 0 < x).
  { apply Qlt_le_trans with (pow2 (-1022)); [apply pow2_pos | exact Hx]. }
  destruct (floor_log2_spec H0) as [L1 L2].
  set (E := floor_log2 x) in *.
  assert (HE : (-1022 <= E)%Z).
  { assert (pow2 (-1022) < pow2 (E + 1)) by (eapply Qle_lt_trans; eassumption).
    apply pow2_lt_inv in H. lia. }
  unfold round_pos, exponent. fold E.
  replace (Z.max (E - 52) (-1074)) with (E - 52)%Z by lia.
  set (e := (E - 52)%Z).
  pose proof (pow2_pos e) as Hp.
  pose proof (scaled x e) as Hs.
  set (y := x / pow2 e) in *.
  assert (Hy : 4503599627370496 <= y).
  { apply Qle_shift_div_l; [exact Hp|].
    change 4503599627370496 with (inject_Z (2 ^ 52)).
    rewrite <- pow2_Z by lia. rewrite <- pow2_plus.
    replace (52 + e)%Z with E by (unfold e; ring). exact L1. }
  destruct (nearest_even_close y) as [M1 M2].
  set (m := inject_Z (nearest_even y)) in *.
  rewrite <- Hs. rewrite !Qmult_assoc. split.
  - apply Qmult_le_compat_r; [lra | apply Qlt_le_weak, Hp].
  - apply Qmult_le_compat_r; [lra | apply Qlt_le_weak, Hp].
Qed.

(** A number with at most 53 significant bits and an exponent the
    format has is not changed. *)
Lemma round_pos_fixed (x : Q) (m k : Z) :
  (0 < m < 2 ^ 53)%Z -> (-1074 <= k)%Z ->
  x == inject_Z m * pow2 k ->
  round_pos x == x.
Proof.
  intros Hm Hk Hx.
  pose proof (pow2_pos k) as Hpk.
  assert (H0 : 0 < x).
  { rewrite Hx. apply Qmult_lt_0_compat; [|exact Hpk].
    change 0 with (inject_Z 0). rewrite <- Zlt_Qlt. lia. }
  destruct (floor_log2_spec H0) as [L1 _].
  set (E := floor_log2 x) in *.
  assert (HE : (E - 52 <= k)%Z).
  { assert (Hlt : pow2 E < pow2 (53 + k)).
    { apply Qle_lt_trans with x; [exact L1|]. rewrite Hx, pow2_plus.
      apply Qmult_lt_compat_r; [exact Hpk|].
      rewrite pow2_Z by lia. rewrite <- Zlt_Qlt. lia. }
    apply pow2_lt_inv in Hlt. lia. }
  unfold round_pos, exponent. fold E.
  set (e := Z.max (E - 52) (-1074)).
  assert (He : (e <= k)%Z) by (unfold e; lia).
  pose proof (pow2_pos e) as Hp.
  assert (Hy : x / pow2 e == inject_Z (m * 2 ^ (k - e))).
  { rewrite inject_Z_mult, <- pow2_Z by lia.
    apply Qmult_inj_r with (pow2 e).
    - intro H. rewrite H in Hp. discriminate Hp.
    - rewrite scaled, <- Qmult_assoc, pow2_sub. exact Hx. }
  rewrite (nearest_even_comp Hy), nearest_even_Z.
  rewrite <- Hy. apply scaled.
Qed.

Lemma binary64_pos (x : Q) : 0 < x -> binary64 x == round_pos x.
Proof.
  intros H. unfold binary64.
  assert (E : Qcompare x 0 = Gt) by (rewrite <- Qgt_alt; exact H).
  rewrite E. apply Qred_correct.
Qed.

Lemma binary64_neg (x : Q) : x < 0 -> binary64 x == - round_pos (- x).
Proof.
  intros H. unfold binary64.
  assert (E : Qcompare x 0 = Lt) by (rewrite <- Qlt_alt; exact H).
  rewrite E. apply Qred_correct.
Qed.

Lemma binary64_zero (x : Q) : x == 0 -> binary64 x == 0.
Proof.
  intros H. unfold binary64.
  assert (E : Qcompare x 0 = Eq) by (rewrite <- Qeq_alt; exact H).
  rewrite E. reflexivity.
Qed.

Lemma binary64_integer (z : Z) :
  (0 <= z <= 2 ^ 53)%Z -> binary64 (inject_Z z) == inject_Z z.
Proof.
  intros Hz. destruct (Z.eq_dec z 0) as [->|Hne]; [reflexivity|].
  assert (Hpos : 0 < inject_Z z).
  { change 0 with (inject_Z 0). rewrite <- Zlt_Qlt. lia. }
  rewrite (binary64_pos Hpos).
  destruct (Z.eq_dec z (2 ^ 53)) as [->|Hlt].
  - apply round_pos_fixed with (m := (2 ^ 52)%Z) (k := 1%Z); [lia | lia |].
    reflexivity.
  - apply round_pos_fixed with (m := z) (k := 0%Z); [lia | lia |].
    change (pow2 0) with 1. ring.
Qed.

Lemma binary64_relative (x : Q) :
  (1 # 64) <= x ->
  (1 - (1 # 9007199254740992)) * x <= binary64 x
  <= (1 + (1 # 9007199254740992)) * x.
Proof.
  intros Hx.
  assert (H0 : 0 < x) by lra.
  rewrite (binary64_pos H0). apply round_pos_relative.
  apply Qle_trans with (pow2 (-6)); [|exact Hx].
  apply pow2_le. lia.
Qed.

Lemma floor_log2_unique (x : Q) (a b : Z) :
  pow2 a <= x < pow2 (a + 1) -> pow2 b <= x < pow2 (b + 1) -> a = b.
Proof.
  intros [A1 A2] [B1 B2].
  assert (H1 : pow2 a < pow2 (b + 1)) by (eapply Qle_lt_trans; eassumption).
  assert (H2 : pow2 b < pow2 (a + 1)) by (eapply Qle_lt_trans; eassumption).
  apply pow2_lt_inv in H1. apply pow2_lt_inv in H2. lia.
Qed.

Lemma floor_log2_comp (x y : Q) :
  0 < x -> x == y -> floor_log2 x = floor_log2 y.
Proof.
  intros Hx E. assert (Hy : 0 < y) by (rewrite <- E; exact Hx).
  pose proof (floor_log2_spec Hx) as Sx.
  destruct (floor_log2_spec Hy) as [S1 S2].
  eapply floor_log2_unique; [exact Sx|].
  split; [apply Qle_trans with y | apply Qle_lt_trans with y];
    try assumption; rewrite E; apply Qle_refl.
Qed.

Lemma round_pos_comp (x y : Q) :
  0 < x -> x == y -> round_pos x == round_pos y.
Proof.
  intros Hx E. unfold round_pos, exponent.
  rewrite (floor_log2_comp Hx E).
  set (e := Z.max (floor_log2 y - 52) (-1074)).
  assert (Ey : x / pow2 e == y / pow2 e) by (rewrite E; reflexivity).
  rewrite (nearest_even_comp Ey). reflexivity.
Qed.

#[export] Instance binary64_comp : Proper (Qeq ==> Qeq) binary64.
Proof.
  intros x y E.
  destruct (Qlt_le_dec 0 x) as [Hx|Hx].
  - assert (Hy : 0 < y) by (rewrite <- E; exact Hx).
    rewrite (binary64_pos Hx), (binary64_pos Hy).
    apply round_pos_comp; assumption.
  - destruct (Qeq_dec x 0) as [H0|H0].
    + rewrite (binary64_zero H0). symmetry. apply binary64_zero.
      rewrite <- E. exact H0.
    + assert (Hn : x < 0).
      { apply Qle_lteq in Hx. destruct Hx as [Hx|Hx]; [exact Hx|].
        contradiction. }
      assert (Hy : y < 0) by (rewrite <- E; exact Hn).
      rewrite (binary64_neg Hn), (binary64_neg Hy).
      assert (Hx' : 0 < - x) by lra.
      assert (E' : - x == - y) by (rewrite E; reflexivity).
      rewrite (round_pos_comp Hx' E'). reflexivity.
Qed.









End FloatFacts.

(** Exact arithmetic is a rounding. *)

Lemma exact_zero (x : Q) : x == 0 -> x == 0.
Proof. trivial. Qed.

Lemma exact_integer (z : Z) :
  (0 <= z <= Num.MAX_EXACT)%Z -> inject_Z z == inject_Z z.
Proof. reflexivity. Qed.

Lemma exact_relative (x : Q) :
  Num.range_min <= x -> (1 - Num.u) * x <= x <= (1 + Num.u) * x.
Proof. unfold Num.u, Num.range_min. intros Hlo. split; lra. Qed.

Lemma exact_positive (z : Z) : (1 <= z)%Z -> 1 <= inject_Z z.
Proof. intros H. change 1 with (inject_Z 1). rewrite <- Zle_Qle. exact H. Qed.

Lemma exact_digits (z : Z) :
  (0 <= z <= Num.MAX_EXACT)%Z -> Str.of_Z z = Str.of_Z z.
Proof. reflexivity. Qed.

#[export] Instance exact : Num.Rounding :=
  {| Num.rnd := fun x => x;
     Num.of_digits := inject_Z;
     Num.ToString_integer := Str.of_Z;
     Num.rnd_zero := exact_zero;
     Num.rnd_integer := exact_integer;
     Num.rnd_relative := exact_relative;
     Num.of_digits_integer := exact_integer;
     Num.of_digits_positive := exact_positive;
     Num.ToString_integer_digits := exact_digits |}.

(** Rounding down on a fine grid is a rounding too. *)

Lemma chop_bounds (x : Q) :
  (Num.chop x <= x /\ x < Num.chop x + (1 # Num.fine))%Q.
Proof.
  unfold Num.chop.
  pose proof (Qfloor_le (x * inject_Z (Zpos Num.fine))) as H1.
  pose proof (Qlt_floor (x * inject_Z (Zpos Num.fine))) as H2.
  set (f := Qfloor (x * inject_Z (Z.pos Num.fine))) in *.
  assert (E : f # Num.fine == inject_Z f * (1 # Num.fine)).
  { unfold Qeq, Qmult, inject_Z. cbn [Qnum Qden]. rewrite Pos.mul_1_l. ring. }
  rewrite E.
  rewrite inject_Z_plus in H2. change (inject_Z 1) with 1 in H2.
  assert (G : inject_Z (Z.pos Num.fine) * (1 # Num.fine) == 1).
  { unfold Qeq. vm_compute. reflexivity. }
  assert (P : 0 < (1 # Num.fine)) by reflexivity.
  split.
  - apply Qle_trans with (x * inject_Z (Z.pos Num.fine) * (1 # Num.fine)).
    + apply Qmult_le_compat_r; [exact H1 | apply Qlt_le_weak, P].
    + rewrite <- Qmult_assoc, G. lra.
  - apply Qlt_le_trans with ((inject_Z f + 1) * (1 # Num.fine)); [|lra].
    apply Qle_lt_trans with (x * inject_Z (Z.pos Num.fine) * (1 # Num.fine)).
    + rewrite <- Qmult_assoc, G. lra.
    + apply Qmult_lt_compat_r; [exact P | exact H2].
Qed.

Lemma chop_integer (z : Z) :
  (0 <= z <= Num.MAX_EXACT)%Z -> Num.chop (inject_Z z) == inject_Z z.
Proof.
  intros _. unfold Num.chop.
  rewrite (Qfloor_comp _ (inject_Z (z * Z.pos Num.fine)))
    by (rewrite inject_Z_mult; reflexivity).
  rewrite Qfloor_Z. unfold Qeq, inject_Z. cbn [Qnum Qden]. ring.
Qed.

Lemma chop_zero (x : Q) : x == 0 -> Num.chop x == 0.
Proof.
  intros H. unfold Num.chop.
  rewrite (Qfloor_comp _ 0) by (rewrite H; reflexivity).
  reflexivity.
Qed.

Lemma chop_relative (x : Q) :
  Num.range_min <= x ->
  (1 - Num.u) * x <= Num.chop x <= (1 + Num.u) * x.
Proof.
  intros Hlo. destruct (chop_bounds x) as [H1 H2].
  unfold Num.u, Num.range_min, Num.fine in *. split; lra.
Qed.

#[export] Instance chopped : Num.Rounding :=
  {| Num.rnd := Num.chop;
     Num.of_digits := inject_Z;
     Num.ToString_integer := Str.of_Z;
     Num.rnd_zero := chop_zero;
     Num.rnd_integer := chop_integer;
     Num.rnd_relative := chop_relative;
     Num.of_digits_integer := exact_integer;
     Num.of_digits_positive := exact_positive;
     Num.ToString_integer_digits := exact_digits |}.

(** binary64 round-to-nearest is a rounding. *)

Lemma binary64_digits (z : Z) :
  (0 <= z <= Num.MAX_EXACT)%Z -> Float.ToString z = Str.of_Z z.
Proof.
  intros [_ H]. unfold Float.ToString.
  apply Z.leb_le in H. change (2 ^ 53)%Z with Num.MAX_EXACT.
  rewrite H. reflexivity.
Qed.

(** The Number nearest to an integer from 1 on is at least 1. *)
Lemma binary64_positive (z : Z) :
  (1 <= z)%Z -> 1 <= Float.binary64 (inject_Z z).
Proof.
  intros Hz.
  assert (H1 : 1 <= inject_Z z).
  { change 1 with (inject_Z 1). rewrite <- Zle_Qle. exact Hz. }
  destruct (Z_le_gt_dec z Num.MAX_EXACT) as [Hm|Hm].
  - assert (E : Float.binary64 (inject_Z z) == inject_Z z).
    { apply binary64_integer. change (2 ^ 53)%Z with Num.MAX_EXACT. lia. }
    rewrite E. exact H1.
  - assert (H2 : 9007199254740993 <= inject_Z z).
    { change 9007199254740993 with (inject_Z 9007199254740993).
      rewrite <- Zle_Qle. unfold Num.MAX_EXACT in Hm. lia. }
    assert (Hr : (1 - (1 # 9007199254740992)) * inject_Z z
                 <= Float.binary64 (inject_Z z)).
    { apply binary64_relative. lra. }
    lra.
Qed.

(** In binary64 the digits are read as the Number nearest to the
    integer they write, which is what the engines do. *)
#[export] Instance binary64 : Num.Rounding :=
  {| Num.rnd := Float.binary64;
     Num.of_digits := fun z => Float.binary64 (inject_Z z);
     Num.ToString_integer := Float.ToString;
     Num.rnd_zero := binary64_zero;
     Num.rnd_integer := binary64_integer;
     Num.rnd_relative := binary64_relative;
     Num.of_digits_integer := binary64_integer;
     Num.of_digits_positive := binary64_positive;
     Num.ToString_integer_digits := binary64_digits |}.

(** ** Reading the digits of a text *)

Section DigitFacts.
Import Str.

Lemma digit_value_range (c : ascii) :
  is_digit c = true -> (0 <= digit_value c <= 9)%Z.
Proof.
  unfold is_digit, digit_value. intros H.
  apply andb_true_iff in H. destruct H as [H1 H2].
  apply Nat.leb_le in H1. apply Nat.leb_le in H2. lia.
Qed.

Lemma strip_only_digits (s : string) :
  leading_digits 0 (strip_non_digits s) = decimal (digits s).
Proof.
  unfold decimal. generalize 0%Z as acc.
  induction s as [|c rest IH]; intros acc; cbn.
  - reflexivity.
  - destruct (is_digit c) eqn:E; cbn; [rewrite E|]; apply IH.
Qed.

Lemma parseInt_strip (s : string) :
  parseInt (strip_non_digits s) =
  if has_digit s then Some (decimal (digits s)) else None.
Proof.
  rewrite <- strip_only_digits.
  induction s as [|c rest IH]; cbn.
  - reflexivity.
  - destruct (is_digit c) eqn:E; cbn; [rewrite E; reflexivity | exact IH].
Qed.

Lemma decimal_from_nonneg (ds : list Z) (acc : Z) :
  Forall (fun d => 0 <= d)%Z ds -> (0 <= acc)%Z ->
  (0 <= fold_left (fun a d => 10 * a + d) ds acc)%Z.
Proof.
  intros H. revert acc.
  induction H as [|d ds Hd _ IH]; intros acc Hacc; cbn [fold_left].
  - exact Hacc.
  - apply IH. cbv beta in Hd. lia.
Qed.

Lemma digits_nonneg (s : string) : Forall (fun d => 0 <= d)%Z (digits s).
Proof.
  induction s as [|c rest IH]; cbn; [constructor|].
  destruct (is_digit c) eqn:E; [constructor|]; auto.
  apply digit_value_range in E. lia.
Qed.

Lemma decimal_digits_nonneg (s : string) : (0 <= decimal (digits s))%Z.
Proof. apply decimal_from_nonneg; [apply digits_nonneg | lia]. Qed.

End DigitFacts.

(** ** The parse of the counter against the specification's wording *)

Section ParseFacts.
Import Str SpecWords.

Lemma leading_digits_skip (s : string) (acc : Z) :
  has_digit (skip_digits s) = false ->
  leading_digits acc (strip_non_digits s) = leading_digits acc s.
Proof.
  revert acc. induction s as [|c rest IH]; intros acc H; [reflexivity|].
  cbn in *. destruct (is_digit c) eqn:E.
  - cbn. rewrite E. apply IH, H.
  - cbn in H. rewrite E in H. cbn in H.
    clear IH. revert acc H. induction rest as [|d rest' IH']; intros acc H.
    + reflexivity.
    + cbn in *. apply orb_false_iff in H. destruct H as [Hd Hr].
      rewrite Hd. apply IH', Hr.
Qed.

Lemma first_sequence_alone (s : string) :
  has_digit (after_first_digit_sequence s) = false ->
  first_digit_sequence s = parseInt (strip_non_digits s).
Proof.
  induction s as [|c rest IH]; intros H; [reflexivity|].
  cbn in *. destruct (is_digit c) eqn:E.
  - cbn. rewrite E. f_equal. symmetry.
    change (leading_digits (10 * 0 + digit_value c) (strip_non_digits rest)
            = leading_digits (10 * 0 + digit_value c) rest)%Z.
    apply leading_digits_skip, H.
  - apply IH, H.
Qed.

Lemma prefix_includes (pat s : string) :
  startsWith pat s = true -> includes pat s = true.
Proof.
  unfold startsWith. intros H. destruct s; cbn in *; rewrite H; reflexivity.
Qed.

Lemma prefix_self (s : string) : String.prefix s s = true.
Proof.
  induction s as [|c rest IH]; cbn; [reflexivity|].
  destruct (ascii_dec c c); [exact IH | congruence].
Qed.

Lemma suffix_includes (pat s : string) :
  endsWith pat s = true -> includes pat s = true.
Proof.
  induction s as [|c rest IH]; intros H.
  - cbn in H. apply String.eqb_eq in H. subst pat. reflexivity.
  - cbn [endsWith] in H. cbn [includes].
    apply orb_true_iff in H. destruct H as [H|H].
    + apply String.eqb_eq in H. subst pat. rewrite prefix_self. reflexivity.
    + rewrite (IH H). apply orb_true_r.
Qed.

End ParseFacts.

(** *** When the first sequence of digits writes the magnitude *)

Section FirstSequence.
Import Str SpecWords.

Lemma fold_digits (ds : list Z) (acc : Z) :
  fold_left (fun a d => 10 * a + d)%Z ds acc
  = (acc * 10 ^ Z.of_nat (List.length ds) + decimal ds)%Z.
Proof.
  unfold decimal. revert acc.
  induction ds as [|d ds IH]; intros acc.
  - cbn. lia.
  - cbn [fold_left List.length]. rewrite IH, (IH (10 * 0 + d)%Z).
    rewrite Nat2Z.inj_succ, Z.pow_succ_r by lia. ring.
Qed.

Lemma leading_strip (s : string) (acc : Z) :
  leading_digits acc (strip_non_digits s)
  = fold_left (fun a d => 10 * a + d)%Z (digits s) acc.
Proof.
  revert acc. induction s as [|c rest IH]; intros acc; cbn.
  - reflexivity.
  - destruct (is_digit c) eqn:E; cbn; [rewrite E|]; apply IH.
Qed.

Lemma has_digit_digits (s : string) :
  has_digit s = false <-> digits s = [].
Proof.
  induction s as [|c rest IH]; cbn; [tauto|].
  destruct (is_digit c); cbn; [|exact IH].
  split; discriminate.
Qed.

(** With more digits to come, the value changes unless it is zero. *)
Lemma leading_more (s : string) (acc : Z) :
  (0 <= acc)%Z ->
  (acc = leading_digits acc (strip_non_digits s) <->
   has_digit s = false \/ leading_digits acc (strip_non_digits s) = 0%Z).
Proof.
  intros Hacc. rewrite leading_strip, fold_digits.
  pose proof (decimal_digits_nonneg s) as Hd.
  rewrite has_digit_digits.
  destruct (digits s) as [|d ds] eqn:E.
  - split; [intros _; left; reflexivity|].
    intros _. unfold decimal. cbn. lia.
  - set (k := Z.of_nat (List.length (d :: ds))).
    assert (Hk : (1 <= k)%Z) by (unfold k; cbn [List.length]; lia).
    assert (Hp : (10 <= 10 ^ k)%Z).
    { change 10%Z with (10 ^ 1)%Z at 1. apply Z.pow_le_mono_r; lia. }
    split.
    + intros H. right. nia.
    + intros [H|H]; [discriminate | nia].
Qed.

Lemma leading_digits_nonneg (s : string) (acc : Z) :
  (0 <= acc)%Z -> (0 <= leading_digits acc s)%Z.
Proof.
  revert acc. induction s as [|c rest IH]; intros acc H;
    cbn [leading_digits]; [exact H|].
  destruct (is_digit c) eqn:E; [|exact H].
  apply IH. apply digit_value_range in E. lia.
Qed.

Lemma leading_digits_iff (s : string) (acc : Z) :
  (0 <= acc)%Z ->
  (leading_digits acc s = leading_digits acc (strip_non_digits s) <->
   has_digit (skip_digits s) = false \/
   leading_digits acc (strip_non_digits s) = 0%Z).
Proof.
  revert acc. induction s as [|c rest IH]; intros acc Hacc.
  - cbn. tauto.
  - cbn [leading_digits strip_non_digits skip_digits].
    destruct (is_digit c) eqn:E.
    + cbn [leading_digits]. rewrite E. apply IH.
      apply digit_value_range in E. lia.
    + cbn [has_digit]. rewrite E. cbn [orb]. apply leading_more, Hacc.
Qed.

(** The first sequence of digits writes the integer parsed exactly
    when no digit follows it or the integer parsed is zero. *)
Lemma first_sequence_iff (s : string) :
  first_digit_sequence s = parseInt (strip_non_digits s) <->
  has_digit (after_first_digit_sequence s) = false \/
  parseInt (strip_non_digits s) = Some 0%Z.
Proof.
  induction s as [|c rest IH].
  - cbn. split; [tauto | reflexivity].
  - cbn [first_digit_sequence strip_non_digits after_first_digit_sequence].
    destruct (is_digit c) eqn:E; [|exact IH].
    cbn [parseInt leading_digits]. rewrite E.
    assert (H0 : (0 <= 10 * 0 + digit_value c)%Z).
    { apply digit_value_range in E. lia. }
    pose proof (leading_digits_iff rest H0) as L.
    split.
    + intros H. injection H as H. apply L in H.
      destruct H as [H|H]; [left; exact H | right; f_equal; exact H].
    + intros [H|H].
      * f_equal. apply L. left. exact H.
      * injection H as H. f_equal. apply L. right. exact H.
Qed.

End FirstSequence.

(** ** The counter *)

Section CounterFacts.
Import Num Counter.
Context {R : Rounding}.
Open Scope Q_scope.

(** Division by a literal, for [lra]. *)
Ltac qlin :=
  unfold steps, duration, stepTime, Qdiv, u, range_min, MAX_VALUE in *;
  cbn [value] in *;
  repeat match goal with
         | |- context [ / ?c ] =>
             let r := eval vm_compute in (/ c) in change (/ c) with r
         | H : context [ / ?c ] |- _ =>
             let r := eval vm_compute in (/ c) in change (/ c) with r in H
         end;
  lra.

Lemma to_number_cases (x : Q) :
  (to_number x = Finite (rnd x) /\ rnd x <= MAX_VALUE) \/
  (to_number x = Infinity /\ MAX_VALUE < rnd x).
Proof.
  unfold to_number. destruct (Qle_bool (rnd x) MAX_VALUE) eqn:E.
  - left. split; [reflexivity | apply Qle_bool_iff, E].
  - right. split; [reflexivity|].
    apply Qnot_le_lt. intro H. apply Qle_bool_iff in H. congruence.
Qed.

Lemma to_number_finite (x : Q) :
  rnd x <= MAX_VALUE -> to_number x = Finite (rnd x).
Proof.
  intros H. destruct (to_number_cases x) as [[E _]|[_ E]]; [exact E|].
  exfalso. apply (Qlt_irrefl MAX_VALUE). eapply Qlt_le_trans; eassumption.
Qed.

Lemma parseInt_decimal_cases (z : Z) :
  (parseInt_decimal z = Finite (of_digits z) /\ of_digits z <= MAX_VALUE) \/
  (parseInt_decimal z = Infinity /\ MAX_VALUE < of_digits z).
Proof.
  unfold parseInt_decimal. destruct (Qle_bool (of_digits z) MAX_VALUE) eqn:E.
  - left. split; [reflexivity | apply Qle_bool_iff, E].
  - right. split; [reflexivity|].
    apply Qnot_le_lt. intro H. apply Qle_bool_iff in H. congruence.
Qed.

Lemma finite_value (a : number) : finite a -> a = Finite (value a).
Proof. destruct a; [reflexivity | intros []]. Qed.

Lemma le_refl (a : number) : le a a.
Proof. destruct a; cbn; [apply Qle_refl | exact I]. Qed.

Lemma le_trans (a b c : number) : le a b -> le b c -> le a c.
Proof.
  destruct a, b, c; cbn; try tauto. apply Qle_trans.
Qed.

Lemma Math_floor_le (a : number) : le (Math_floor a) a.
Proof. destruct a; cbn; [apply Qfloor_le | exact I]. Qed.

Lemma Math_floor_mono (a b : number) :
  le a b -> le (Math_floor a) (Math_floor b).
Proof.
  destruct a, b; cbn; try tauto. intros H.
  rewrite <- Zle_Qle. apply Qfloor_resp_le, H.
Qed.

Lemma advance_reaches (t : closure) : snd (advance t) = reaches t.
Proof.
  unfold advance, reaches.
  destruct (geb (add (current t) (increment t)) (numericValue t));
    reflexivity.
Qed.

(** One firing never moves [current] down nor past the target; unless
    it clears the interval it gains at least a 41st of the target. *)
Lemma advance_running (t : closure) (v : Q) :
  running t v ->
  finite (fst (advance t)) /\
  value (current t) <= value (fst (advance t)) <= v /\
  (snd (advance t) = true -> fst (advance t) = numericValue t) /\
  (snd (advance t) = false ->
   value (current t) + v * (1 # 41) <= value (fst (advance t)) < v).
Proof.
  intros ([Hv1 Hv2] & [Fn Hn] & [Fi [Hi1 Hi2]] & [Fc [Hc1 Hc2]]).
  rewrite (finite_value _ Fn), (finite_value _ Fi), (finite_value _ Fc) in *.
  set (n := value (numericValue t)) in *.
  set (i := value (increment t)) in *.
  set (c := value (current t)) in *.
  cbn [value] in *.
  assert (Hr : (1 - u) * (c + i) <= rnd (c + i) <= (1 + u) * (c + i)).
  { apply rnd_relative. qlin. }
  destruct Hr as [Hr1 _].
  unfold advance.
  rewrite (finite_value _ Fn), (finite_value _ Fi), (finite_value _ Fc).
  fold n i c. cbn [add].
  destruct (to_number_cases (c + i)) as [[-> _]|[-> _]]; cbn [geb].
  - destruct (Qle_bool n (rnd (c + i))) eqn:E; cbn [fst snd value finite].
    + repeat split; try (intros; reflexivity); try (intros; discriminate);
        qlin.
    + assert (~ n <= rnd (c + i)) as Hlt.
      { intro H. apply Qle_bool_iff in H. congruence. }
      apply Qnot_le_lt in Hlt. rewrite Hn in Hlt.
      repeat split; try (intros; reflexivity); try (intros; discriminate);
        qlin.
  - cbn [fst snd value finite].
    repeat split; try (intros; reflexivity); try (intros; discriminate);
      qlin.
Qed.

Lemma run_cleared (k : nat) (el : element) :
  timer el = None -> run k el = el.
Proof.
  intros H. induction k as [|k IH]; cbn; [reflexivity|].
  replace (tick el) with el; [exact IH|].
  unfold tick. rewrite H. reflexivity.
Qed.

Lemma run_S (k : nat) (el : element) : run (S k) el = run k (tick el).
Proof. reflexivity. Qed.

Lemma run_plus (a b : nat) (el : element) :
  run (a + b) el = run b (run a el).
Proof. revert el. induction a as [|a IH]; intros el; cbn; auto. Qed.

Lemma tick_timer (txt : string) (t : closure) :
  tick {| textContent := txt; timer := Some t |} =
  {| textContent := displayValue t (fst (advance t));
     timer := if snd (advance t) then None
              else Some (set_current t (fst (advance t))) |}.
Proof. unfold tick. cbn. destruct (advance t). reflexivity. Qed.

Lemma shown_cleared (k : nat) (el : element) :
  timer el = None -> shown k el = [].
Proof. intros H. destruct k; cbn; rewrite ?H; reflexivity. Qed.

Lemma running_set_current (t : closure) (v : Q) (c : number) :
  running t v -> finite c -> 0 <= value c < v ->
  running (set_current t c) v.
Proof. intros (Hv & Hn & Hi & _) Fc Hc. repeat split; cbn; tauto. Qed.

Lemma running_next (t : closure) (v : Q) :
  running t v -> snd (advance t) = false ->
  running (set_current t (fst (advance t))) v.
Proof.
  intros Hr Hs. destruct (advance_running Hr) as (Hf & _ & _ & Hg).
  specialize (Hg Hs).
  apply running_set_current; [exact Hr | exact Hf |].
  destruct Hr as ([Hv1 _] & _ & _ & [_ [Hc _]]). lra.
Qed.

Lemma within_zero (t : closure) (v : Q) :
  running t v -> within 0 t v -> False.
Proof.
  unfold within. intros (_ & _ & _ & [_ Hc]). cbn [Z.of_nat].
  change (inject_Z 0) with 0. lra.
Qed.

Lemma within_step (m : nat) (t : closure) (v : Q) :
  running t v -> within (S m) t v -> snd (advance t) = false ->
  within m (set_current t (fst (advance t))) v.
Proof.
  intros Hr Hw Hs. destruct (advance_running Hr) as (_ & _ & _ & Hg).
  specialize (Hg Hs). unfold within in *. cbn [current set_current].
  rewrite Nat2Z.inj_succ in Hw. unfold Z.succ in Hw.
  rewrite inject_Z_plus in Hw. change (inject_Z 1) with 1 in Hw.
  set (a := inject_Z (Z.of_nat m)) in *. lra.
Qed.

(** Within [m] firings the condition [current >= numericValue] is
    met, once, by the last callback that fires; then the interval is
    cleared and the element shows the target. *)
Lemma run_reaches (m : nat) (txt : string) (t : closure) (v : Q) :
  running t v -> within m t v ->
  let el := {| textContent := txt; timer := Some t |} in
  exists n, (1 <= n <= m)%nat /\
    (forall k, (k < n)%nat ->
       exists txt' t', run k el = {| textContent := txt'; timer := Some t' |} /\
                       running t' v /\
                       (reaches t' = true <-> S k = n)) /\
    run n el = {| textContent := displayValue t (numericValue t);
                  timer := None |} /\
    (forall k, List.length (shown k el) = Nat.min k n).
Proof.
  revert txt t. induction m as [|m IH]; intros txt t Hr Hw; cbn zeta.
  - destruct (within_zero Hr Hw).
  - destruct (advance_running Hr) as (_ & _ & Ht & _).
    destruct (snd (advance t)) eqn:Hs.
    + exists 1%nat. split; [lia|]. split; [|split].
      * intros k Hk. assert (k = 0%nat) as -> by lia.
        exists txt, t. split; [reflexivity|]. split; [exact Hr|].
        rewrite <- advance_reaches, Hs. tauto.
      * rewrite run_S, tick_timer, Hs, (Ht eq_refl). reflexivity.
      * intros [|k]; [reflexivity|].
        cbn [shown timer]. rewrite tick_timer, Hs.
        rewrite shown_cleared by reflexivity. cbn. lia.
    + destruct (IH (displayValue t (fst (advance t))) _
                  (running_next Hr Hs) (within_step Hr Hw Hs))
        as (n & Hn & Hbefore & Hat & Hlen).
      cbn zeta in *.
      exists (S n). split; [lia|]. split; [|split].
      * intros [|k] Hk.
        -- exists txt, t. split; [reflexivity|]. split; [exact Hr|].
           rewrite <- advance_reaches, Hs. split; [discriminate | lia].
        -- rewrite run_S, tick_timer, Hs.
           destruct (Hbefore k) as (txt' & t' & E & Hr' & Hiff); [lia|].
           exists txt', t'. split; [exact E|]. split; [exact Hr'|].
           rewrite Hiff. lia.
      * rewrite run_S, tick_timer, Hs. exact Hat.
      * intros [|k]; [reflexivity|].
        cbn [shown timer]. rewrite tick_timer, Hs.
        cbn [List.length]. rewrite Hlen. reflexivity.
Qed.

(** Within [m] firings the interval is cleared and the element shows
    the target. *)
Lemma run_running (m : nat) (txt : string) (t : closure) (v : Q) :
  running t v -> within m t v ->
  run m {| textContent := txt; timer := Some t |} =
  {| textContent := displayValue t (numericValue t); timer := None |}.
Proof.
  intros Hr Hw. destruct (run_reaches txt Hr Hw) as (n & Hn & _ & Hat & _).
  cbn zeta in Hat. replace m with (n + (m - n))%nat by lia.
  rewrite run_plus, Hat. apply run_cleared. reflexivity.
Qed.

(** The numbers shown while running: each at least the floor of the
    [current] before it, at most the target, in non-decreasing order;
    and no more of them than firings to go. *)
Lemma shown_running (k m : nat) (txt : string) (t : closure) (v : Q) :
  running t v -> within m t v ->
  let l := shown k {| textContent := txt; timer := Some t |} in
  Forall (fun x => le (Math_floor (current t)) x /\ le x (numericValue t)) l /\
  StronglySorted le l /\
  (List.length l <= m)%nat.
Proof.
  revert m txt t. induction k as [|k IH]; intros m txt t Hr Hw; cbn zeta.
  - cbn. repeat split; [constructor | constructor | lia].
  - destruct m as [|m]; [destruct (within_zero Hr Hw)|].
    cbn [shown timer]. rewrite tick_timer.
    destruct (advance_running Hr) as (Hfin & Hb & Ht & Hf).
    assert (Hfl : le (Math_floor (current t)) (Math_floor (fst (advance t)))
                  /\ le (Math_floor (fst (advance t))) (numericValue t)).
    { destruct Hr as (_ & [Fn Hn] & _ & [Fc _]).
      rewrite (finite_value _ Fc), (finite_value _ Hfin).
      split.
      - apply Math_floor_mono. cbn. tauto.
      - eapply le_trans; [apply Math_floor_le|].
        rewrite (finite_value _ Fn). cbn. rewrite Hn. tauto. }
    destruct (snd (advance t)) eqn:Hs.
    + rewrite shown_cleared by reflexivity.
      repeat split.
      * constructor; [exact Hfl | constructor].
      * constructor; constructor.
      * cbn. lia.
    + destruct (IH m (displayValue t (fst (advance t))) _
                  (running_next Hr Hs) (within_step Hr Hw Hs))
        as (Ha & Hb' & Hc).
      cbn [current set_current numericValue] in Ha.
      repeat split.
      * constructor; [exact Hfl|].
        eapply Forall_impl; [|exact Ha]. cbv beta. intros x [Hx1 Hx2].
        split; [|exact Hx2]. eapply le_trans; [apply Hfl | exact Hx1].
      * constructor; [exact Hb'|].
        eapply Forall_impl; [|exact Ha]. cbv beta. intros x Hx. tauto.
      * cbn [List.length]. lia.
Qed.

Lemma animateValue_digits (text : string) :
  Str.has_digit text = true ->
  animateValue text = {| textContent := text; timer := Some (installed text) |}.
Proof.
  intros H. unfold animateValue, parse.
  rewrite parseInt_strip, H. reflexivity.
Qed.

Lemma animateValue_no_digits (text : string) :
  Str.has_digit text = false ->
  animateValue text = {| textContent := text; timer := None |}.
Proof.
  intros H. unfold animateValue, parse.
  rewrite parseInt_strip, H. reflexivity.
Qed.

Lemma parse_digits (text : string) :
  Str.has_digit text = true ->
  parse text = Some (numericValue (installed text)).
Proof.
  intros H. unfold parse. rewrite parseInt_strip, H. reflexivity.
Qed.

(** A finite target of at least 1: the closure installed is running,
    with 41 firings to go at most. *)
Lemma installed_running (text : string) (v : Q) :
  (1 <= Str.decimal (Str.digits text))%Z ->
  numericValue (installed text) = Finite v ->
  running (installed text) v /\ within 41 (installed text) v.
Proof.
  intros Hz Hv. cbn [numericValue installed] in Hv.
  destruct (parseInt_decimal_cases (Str.decimal (Str.digits text)))
    as [[E Hmax]|[E _]]; rewrite E in Hv; [|discriminate].
  injection Hv as Hv.
  pose proof (of_digits_positive Hz) as H1. rewrite Hv in H1, Hmax.
  assert (Hi : (1 - u) * (v / steps) <= rnd (v / steps)
               <= (1 + u) * (v / steps)).
  { apply rnd_relative. qlin. }
  assert (Ei : div (Finite v) steps = Finite (rnd (v / steps))).
  { cbn [div]. apply to_number_finite. qlin. }
  split.
  - unfold running, installed. cbn [numericValue increment current].
    rewrite E, Hv, Ei. cbn [finite value].
    repeat split; try exact I; try apply Qle_refl; try reflexivity; qlin.
  - unfold within, installed. cbn [current value].
    change (inject_Z (Z.of_nat 41)) with 41. lra.
Qed.

Lemma append_empty (s : string) : (s ++ "")%string = s.
Proof. induction s as [|c s IH]; cbn; [|rewrite IH]; reflexivity. Qed.

Lemma displayValue_installed (text : string) (c : number) :
  displayValue (installed text) c
  = redecorate text (ToString (Math_floor c)).
Proof. reflexivity. Qed.

Lemma displayValue_set_current (t : closure) (c x : number) :
  displayValue (set_current t c) x = displayValue t x.
Proof. reflexivity. Qed.

Lemma redecorate_digits (text : string) (z : Z) :
  redecorate text (Str.of_Z z) = decorated text z.
Proof.
  unfold redecorate, decorate, decorated.
  destruct (Str.includes "+" text), (Str.includes "-" text),
    (Str.includes "%" text); cbn; rewrite ?append_empty; reflexivity.
Qed.

(** Up to [2^53] the Number parsed is the integer, and it is written
    with its digits. *)
Lemma parseInt_decimal_integer (z : Z) :
  (0 <= z <= MAX_EXACT)%Z ->
  exists q, parseInt_decimal z = Finite q /\ q == inject_Z z /\
            ToString (Math_floor (Finite q)) = Str.of_Z z.
Proof.
  intros Hz. pose proof (of_digits_integer Hz) as Hr.
  exists (of_digits z). split; [|split; [exact Hr|]].
  - destruct (parseInt_decimal_cases z) as [[E _]|[_ E]]; [exact E|].
    exfalso. rewrite Hr in E. apply (Qlt_irrefl MAX_VALUE).
    eapply Qlt_le_trans; [exact E|].
    apply Qle_trans with (inject_Z MAX_EXACT).
    + rewrite <- Zle_Qle. lia.
    + unfold MAX_EXACT, MAX_VALUE. apply Qle_bool_iff. reflexivity.
  - cbn [Math_floor ToString]. rewrite Qfloor_Z.
    rewrite (Qfloor_comp _ _ Hr), Qfloor_Z.
    apply ToString_integer_digits, Hz.
Qed.

(** A zero target: the first test succeeds. *)
Lemma reaches_zero (text : string) :
  Str.decimal (Str.digits text) = 0%Z ->
  reaches (installed text) = true.
Proof.
  intros Hz. unfold reaches. cbn [current increment numericValue installed].
  rewrite Hz.
  destruct (@parseInt_decimal_integer 0%Z) as (q & -> & Hq & _);
    [unfold MAX_EXACT; lia|].
  assert (Hq0 : q == 0) by exact Hq. clear Hq.
  assert (Hi : rnd (q / steps) == 0).
  { apply rnd_zero. rewrite Hq0. reflexivity. }
  assert (Ei : div (Finite q) steps = Finite (rnd (q / steps))).
  { cbn [div]. apply to_number_finite. rewrite Hi.
    unfold MAX_VALUE. apply Qle_bool_iff. reflexivity. }
  rewrite Ei. cbn [add].
  assert (Hc : rnd (0 + rnd (q / steps)) == 0).
  { apply rnd_zero. rewrite Hi. reflexivity. }
  rewrite to_number_finite
    by (rewrite Hc; unfold MAX_VALUE; apply Qle_bool_iff; reflexivity).
  cbn [geb]. apply Qle_bool_iff. rewrite Hc, Hq0. apply Qle_refl.
Qed.

(** An infinite target: the first test succeeds. *)
Lemma reaches_infinity (text : string) :
  numericValue (installed text) = Infinity ->
  reaches (installed text) = true.
Proof.
  intros H. unfold reaches. cbn [current increment installed].
  cbn [numericValue installed] in H. rewrite H. reflexivity.
Qed.

(** When the first test succeeds, one callback fires. *)
Lemma run_first (txt : string) (t : closure) :
  reaches t = true ->
  let el := {| textContent := txt; timer := Some t |} in
  (forall k, (1 <= k)%nat ->
     run k el = {| textContent := displayValue t (numericValue t);
                   timer := None |}) /\
  (forall k, shown (S k) el = [Math_floor (numericValue t)]).
Proof.
  intros H. cbn zeta.
  assert (E : advance t = (numericValue t, true)).
  { unfold advance. unfold reaches in H. rewrite H. reflexivity. }
  split.
  - intros [|k] Hk; [lia|].
    rewrite run_S, tick_timer, E. apply run_cleared. reflexivity.
  - intros k. cbn [shown timer]. rewrite tick_timer, E. cbn [fst snd].
    rewrite shown_cleared by reflexivity. reflexivity.
Qed.

(** The callback never assigns [numericValue]. *)
Lemma run_numericValue (k : nat) (txt txt' : string) (t t' : closure) :
  run k {| textContent := txt; timer := Some t |}
  = {| textContent := txt'; timer := Some t' |} ->
  numericValue t' = numericValue t.
Proof.
  revert txt t. induction k as [|k IH]; intros txt t E.
  - cbn in E. injection E as _ <-. reflexivity.
  - rewrite run_S, tick_timer in E. destruct (snd (advance t)).
    + rewrite run_cleared in E by reflexivity. discriminate.
    + apply IH in E. exact E.
Qed.

(** The three kinds of target a text with digits has. *)
Lemma installed_cases (text : string) :
  reaches (installed text) = true \/
  exists v, numericValue (installed text) = Finite v /\
            running (installed text) v /\ within 41 (installed text) v.
Proof.
  pose proof (decimal_digits_nonneg text) as H0.
  destruct (Z.eq_dec (Str.decimal (Str.digits text)) 0) as [Hz|Hz].
  - left. apply reaches_zero, Hz.
  - destruct (numericValue (installed text)) as [v|] eqn:E.
    + right. exists v. split; [reflexivity|].
      apply installed_running; [lia | exact E].
    + left. apply reaches_infinity, E.
Qed.

(** The counter of a text with digits: the condition is met by the
    [n]th callback, [n <= 41], and by no earlier one; from then on the
    interval is cleared and the element shows the target. *)
Lemma animateValue_reaches (text : string) :
  Str.has_digit text = true ->
  let el := animateValue text in
  let final := redecorate text
                 (ToString (Math_floor (numericValue (installed text)))) in
  exists n, (1 <= n <= 41)%nat /\
    (forall k, (k < n)%nat ->
       exists t, timer (run k el) = Some t /\
                 numericValue t = numericValue (installed text) /\
                 (reaches t = true <-> S k = n)) /\
    (forall k, (n <= k)%nat ->
       run k el = {| textContent := final; timer := None |}) /\
    (forall k, firings k el = Nat.min k n).
Proof.
  intros Hd. cbn zeta. rewrite (animateValue_digits _ Hd).
  destruct (installed_cases text) as [H1|(v & Ev & Hr & Hw)].
  - destruct (@run_first text _ H1) as [Hrun Hshown]. cbn zeta in *.
    exists 1%nat. split; [lia|]. split; [|split].
    + intros k Hk. assert (k = 0%nat) as -> by lia.
      exists (installed text). cbn. repeat split; auto.
    + intros k Hk. rewrite (Hrun k Hk). reflexivity.
    + intros [|k]; [reflexivity|]. unfold firings. rewrite Hshown.
      cbn [List.length]. lia.
  - destruct (run_reaches text Hr Hw) as (n & Hn & Hbefore & Hat & Hlen).
    cbn zeta in *.
    exists n. split; [exact Hn|]. split; [|split].
    + intros k Hk. destruct (Hbefore k Hk) as (txt' & t' & E & Hr' & Hiff).
      exists t'. rewrite E. split; [reflexivity|]. split; [|exact Hiff].
      apply (@run_numericValue k text txt' _ _ E).
    + intros k Hk. replace k with (n + (k - n))%nat by lia.
      rewrite run_plus, Hat. apply run_cleared. reflexivity.
    + exact Hlen.
Qed.

(** The numbers shown for a text with digits: between zero and the
    target, in non-decreasing order, 41 at most; and the texts shown
    are these numbers with the decorations of the text. *)
Lemma shown_animateValue (text : string) (k : nat) :
  Str.has_digit text = true ->
  let l := shown k (animateValue text) in
  Forall (fun x => le (Finite 0) x /\ le x (numericValue (installed text))) l /\
  StronglySorted le l /\
  (List.length l <= 41)%nat.
Proof.
  intros Hd. cbn zeta. rewrite (animateValue_digits _ Hd).
  destruct (installed_cases text) as [H1|(v & Ev & Hr & Hw)].
  - destruct (@run_first text _ H1) as [_ Hshown]. cbn zeta in *.
    destruct k as [|k]; [cbn; repeat split; try constructor; lia|].
    rewrite Hshown. repeat split.
    + constructor; [|constructor]. split.
      * destruct (numericValue (installed text)) as [q|] eqn:E;
          cbn; [|exact I].
        pose proof (decimal_digits_nonneg text) as H0.
        cbn [numericValue installed] in E.
        destruct (parseInt_decimal_cases (Str.decimal (Str.digits text)))
          as [[E' _]|[E' _]]; rewrite E' in E; [|discriminate].
        injection E as <-.
        change 0 with (inject_Z 0). rewrite <- Zle_Qle.
        rewrite <- (Qfloor_Z 0). apply Qfloor_resp_le.
        destruct (Z.eq_dec (Str.decimal (Str.digits text)) 0) as [Hz|Hz].
        -- rewrite Hz.
           rewrite (@of_digits_integer _ 0%Z) by (unfold MAX_EXACT; lia).
           apply Qle_refl.
        -- apply Qle_trans with 1; [discriminate|].
           apply of_digits_positive. lia.
      * apply Math_floor_le.
    + constructor; constructor.
    + cbn. lia.
  - destruct (shown_running k text Hr Hw) as (Ha & Hb & Hc).
    repeat split; [|exact Hb | exact Hc].
    eapply Forall_impl; [|exact Ha]. cbv beta. intros x [Hx1 Hx2].
    split; [|exact Hx2]. cbn [current installed Math_floor] in Hx1.
    exact Hx1.
Qed.

(** The texts are the numbers with the decorations of the closure. *)
Lemma displayed_shown (k : nat) (txt : string) (t : closure) :
  displayed k {| textContent := txt; timer := Some t |}
  = map (fun x => decorate (hasPlus t) (hasMinus t) (hasPercent t)
                    (ToString x))
        (shown k {| textContent := txt; timer := Some t |}).
Proof.
  revert txt t. induction k as [|k IH]; intros txt t; [reflexivity|].
  cbn [displayed shown timer map]. rewrite tick_timer. cbn [textContent].
  f_equal.
  destruct (snd (advance t)).
  - destruct k; reflexivity.
  - rewrite IH. reflexivity.
Qed.

(** After 41 occasions or more, the counter of a text whose digits
    write at most [2^53] is at rest on that integer. *)
Lemma run_animateValue (text : string) (k : nat) :
  let v := Str.decimal (Str.digits text) in
  Str.has_digit text = true -> (v <= MAX_EXACT)%Z -> (41 <= k)%nat ->
  run k (animateValue text) =
  {| textContent := decorated text v; timer := None |}.
Proof.
  intros v Hd Hv Hk.
  pose proof (decimal_digits_nonneg text) as H0. fold v in H0.
  destruct (animateValue_reaches text Hd) as (n & Hn & _ & Hat & _).
  cbn zeta in Hat. rewrite Hat by lia. f_equal.
  cbn [numericValue installed]. fold v.
  destruct (@parseInt_decimal_integer v) as (q & -> & _ & Hs); [lia|].
  rewrite Hs. apply redecorate_digits.
Qed.

End CounterFacts.

Section CounterClaims.
Import Num Counter.
Open Scope string_scope.

Lemma parsed_target (text : string) (target : Z) :
  Str.parseInt (Str.strip_non_digits text) = Some target ->
  Str.has_digit text = true /\ target = Str.decimal (Str.digits text).
Proof.
  rewrite parseInt_strip. destruct (Str.has_digit text); [|discriminate].
  intros H. injection H as <-. split; reflexivity.
Qed.

(** C1, as the code has it.  For a counter whose text contains a digit,
    with [target] the Number parsed from it: the interval is cleared
    after at most 41 occasions to fire; whenever it is cleared the
    element shows [target] as [String] writes it, with the [+], [-] and
    [%] found in the original text put back; no number shown on the
    way exceeds [target]; and when the digits of the text write an
    integer of at most [2^53], [target] is that integer and the text
    shown is its decimal digits with the decorations. *)
Theorem C1_counter_ends_on_target :
  forall (R : Rounding) (text : string),
    Str.has_digit text = true ->
    exists target : number,
      parse text = Some target /\
      (forall k, (41 <= k)%nat -> timer (run k (animateValue text)) = None) /\
      (forall k, timer (run k (animateValue text)) = None ->
                 textContent (run k (animateValue text))
                 = redecorate text (ToString (Math_floor target))) /\
      (forall k, Forall (fun x => le x target) (shown k (animateValue text))) /\
      (forall z, Str.parseInt (Str.strip_non_digits text) = Some z ->
                 (z <= MAX_EXACT)%Z ->
                 finite target /\ (value target == inject_Z z)%Q /\
                 redecorate text (ToString (Math_floor target))
                 = decorated text z).
Proof.
  intros R text Hd.
  exists (numericValue (installed text)).
  split; [apply parse_digits, Hd|].
  destruct (animateValue_reaches text Hd) as (n & Hn & Hbefore & Hat & _).
  cbn zeta in *.
  split; [|split; [|split]].
  - intros k Hk. rewrite Hat by lia. reflexivity.
  - intros k Hc. destruct (Nat.lt_ge_cases k n) as [Hlt|Hge].
    + destruct (Hbefore k Hlt) as (t & Ht & _). congruence.
    + rewrite (Hat k Hge). reflexivity.
  - intros k. destruct (shown_animateValue text k Hd) as (Ha & _).
    eapply Forall_impl; [|exact Ha]. cbv beta. tauto.
  - intros z Hz Hmax. destruct (parsed_target _ Hz) as [_ ->].
    pose proof (decimal_digits_nonneg text) as H0.
    cbn [numericValue installed].
    destruct (@parseInt_decimal_integer R (Str.decimal (Str.digits text)))
      as (q & -> & Hq & Hs); [lia|].
    split; [exact I|]. split; [exact Hq|].
    rewrite Hs. apply redecorate_digits.
Qed.

Lemma C1_counter_ends_on_target_witness :
  Str.has_digit "+150%" = true /\
  textContent (@run exact 41 (@animateValue exact "+150%")) = "+150%".
Proof.
  assert (Hd : Str.has_digit "+150%" = true) by reflexivity.
  split; [exact Hd|].
  destruct (@C1_counter_ends_on_target exact "+150%" Hd)
    as (target & Hp & Hc & Ht & _ & Hz).
  rewrite (Ht 41%nat (Hc 41%nat (le_n 41))).
  destruct (Hz 150%Z eq_refl) as (_ & _ & E); [discriminate|].
  rewrite E. reflexivity.
Defined.

(** C1 as stated fails by the Number type: the digits of
    "1152921504606846976" write [2^60], which is a Number, and the
    counter ends on "1152921504606847000", the fewest digits that read
    back as that Number. *)
Lemma C1_large_magnitude_counterexample :
  Str.parseInt (Str.strip_non_digits "1152921504606846976")
  = Some 1152921504606846976%Z /\
  @parse binary64 "1152921504606846976"
  = Some (integer 1152921504606846976) /\
  @run binary64 41 (@animateValue binary64 "1152921504606846976")
  = {| textContent := "1152921504606847000"; timer := None |} /\
  decorated "1152921504606846976" 1152921504606846976
  <> "1152921504606847000".
Proof.
  split; [reflexivity|]. split; [vm_compute; reflexivity|].
  split; [vm_compute; reflexivity|]. vm_compute. discriminate.
Qed.

(** C2, as the code has it.  The flags are the presence of [+], [-]
    and [%] anywhere in the text (a prefix or suffix is one such
    presence), and the magnitude is the Number [parseInt] reads from
    all the decimal digits of the text in order, whatever stands between
    them: the integer they write when that is at most [2^53].  That
    integer is the one the first sequence of digits writes exactly when
    no digit follows that sequence or every digit of the text is a
    zero. *)
Theorem C2_parse_takes_every_digit :
  forall (R : Rounding) (text : string),
    (Str.has_digit text = true ->
     exists t, timer (animateValue text) = Some t /\
               hasPlus t = Str.includes "+" text /\
               hasMinus t = Str.includes "-" text /\
               hasPercent t = Str.includes "%" text /\
               numericValue t
               = parseInt_decimal (Str.decimal (Str.digits text)) /\
               ((Str.decimal (Str.digits text) <= MAX_EXACT)%Z ->
                finite (numericValue t) /\
                (value (numericValue t)
                 == inject_Z (Str.decimal (Str.digits text)))%Q)) /\
    (SpecWords.plus_prefix text = true -> Str.includes "+" text = true) /\
    (SpecWords.minus_prefix text = true -> Str.includes "-" text = true) /\
    (SpecWords.percent_suffix text = true -> Str.includes "%" text = true) /\
    (SpecWords.first_digit_sequence text
     = Str.parseInt (Str.strip_non_digits text) <->
     Str.has_digit (SpecWords.after_first_digit_sequence text) = false \/
     Str.parseInt (Str.strip_non_digits text) = Some 0%Z).
Proof.
  intros R text. split; [|split; [|split; [|split]]].
  - intros Hd. exists (installed text).
    rewrite (animateValue_digits _ Hd). repeat split.
    + cbn [numericValue installed].
      pose proof (decimal_digits_nonneg text) as H0.
      destruct (@parseInt_decimal_integer R (Str.decimal (Str.digits text)))
        as (q & -> & _); [lia | exact I].
    + cbn [numericValue installed].
      pose proof (decimal_digits_nonneg text) as H0.
      destruct (@parseInt_decimal_integer R (Str.decimal (Str.digits text)))
        as (q & -> & Hq & _); [lia | exact Hq].
  - apply prefix_includes.
  - apply prefix_includes.
  - apply suffix_includes.
  - apply first_sequence_iff.
Qed.

Lemma C2_parse_takes_every_digit_witness :
  Str.has_digit "+150%" = true /\
  exists t, timer (@animateValue exact "+150%") = Some t /\
            hasPlus t = true /\ hasMinus t = false /\ hasPercent t = true /\
            numericValue t = integer 150.
Proof.
  assert (Hd : Str.has_digit "+150%" = true) by reflexivity.
  split; [exact Hd|].
  destruct (proj1 (@C2_parse_takes_every_digit exact "+150%") Hd)
    as (t & Ht & Hp & Hm & Hc & Hn & _).
  exists t. repeat split; assumption.
Defined.

(** C2 as stated fails: for "24/7" the first sequence of digits is 24
    but the magnitude parsed is 247; in "1-2" the [-] is no prefix and
    in "5% off" the [%] is no suffix, yet both flags are set. *)
Lemma C2_first_sequence_counterexample :
  SpecWords.first_digit_sequence "24/7" = Some 24%Z /\
  @parse exact "24/7" = Some (integer 247) /\
  (SpecWords.minus_prefix "1-2" = false /\
   option_map hasMinus (timer (@animateValue exact "1-2")) = Some true) /\
  (SpecWords.percent_suffix "5% off" = false /\
   option_map hasPercent (timer (@animateValue exact "5% off")) = Some true).
Proof. repeat split. Qed.

(** C8.  For a counter whose text contains no digit, [animateValue]
    returns with no interval installed and the text as it was; no
    callback ever fires and the text stays as it was. *)
Theorem C8_no_digits_no_effect :
  forall (R : Rounding) (text : string),
    Str.has_digit text = false ->
    animateValue text = {| textContent := text; timer := None |} /\
    (forall k, run k (animateValue text)
               = {| textContent := text; timer := None |}) /\
    (forall k, firings k (animateValue text) = 0%nat).
Proof.
  intros R text Hd. rewrite (animateValue_no_digits _ Hd).
  repeat split.
  - intros k. apply run_cleared. reflexivity.
  - intros k. destruct k; reflexivity.
Qed.

Lemma C8_no_digits_no_effect_witness :
  Str.has_digit "N/A" = false /\
  @animateValue exact "N/A" = {| textContent := "N/A"; timer := None |}.
Proof.
  assert (Hd : Str.has_digit "N/A" = false) by reflexivity.
  split; [exact Hd|].
  exact (proj1 (@C8_no_digits_no_effect exact "N/A" Hd)).
Defined.

(** C10.  For a counter with a positive target, the Number parsed from
    its text, the numbers shown by the successive firings are in
    non-decreasing order, each one is at most the target, and the texts
    shown are these numbers with the decorations of the original
    text. *)
Theorem C10_shown_values_monotone_bounded :
  forall (R : Rounding) (text : string) (target : number) (k : nat),
    parse text = Some target ->
    lt (Finite 0) target ->
    StronglySorted le (shown k (animateValue text)) /\
    Forall (fun x => le (Finite 0) x /\ le x target)
           (shown k (animateValue text)) /\
    displayed k (animateValue text)
    = map (fun x => redecorate text (ToString x))
          (shown k (animateValue text)).
Proof.
  intros R text target k Hp _.
  assert (Hd : Str.has_digit text = true).
  { unfold parse in Hp. rewrite parseInt_strip in Hp.
    destruct (Str.has_digit text); [reflexivity | discriminate]. }
  rewrite (parse_digits _ Hd) in Hp. injection Hp as <-.
  destruct (shown_animateValue text k Hd) as (Ha & Hs & _).
  split; [exact Hs|]. split; [exact Ha|].
  rewrite (animateValue_digits _ Hd). apply displayed_shown.
Qed.

Lemma C10_shown_values_monotone_bounded_witness :
  @parse exact "24/7" = Some (integer 247) /\
  lt (Finite 0) (integer 247) /\
  StronglySorted le (@shown exact 50 (@animateValue exact "24/7")).
Proof.
  assert (Hp : @parse exact "24/7" = Some (integer 247)) by reflexivity.
  assert (Ht : lt (Finite 0) (integer 247)) by reflexivity.
  split; [exact Hp|]. split; [exact Ht|].
  exact (proj1 (@C10_shown_values_monotone_bounded exact "24/7"
                  (integer 247) 50 Hp Ht)).
Defined.

End CounterClaims.

(** ** One-shot observers *)

Section ObserverFacts.
Import Observer ObserverMore.
Variable world : Type.
Variable action : node -> world -> world.

Abbreviation obs := (observer world).

Lemma observe_targets (found : list node) (o : obs) :
  NoDup (observationTargets o) -> trace o = [] ->
  let o' := fold_left (fun o e => observe e o) found o in
  NoDup (observationTargets o') /\ trace o' = [].
Proof.
  revert o. induction found as [|e found IH]; intros o Hn Ht; cbn.
  - split; assumption.
  - apply IH.
    + unfold observe.
      destruct (existsb (Nat.eqb e) (observationTargets o)) eqn:E; cbn.
      * exact Hn.
      * apply NoDup_app; [exact Hn | repeat constructor; intros [] | ].
        intros x Hx [<-|[]].
        assert (existsb (Nat.eqb e) (observationTargets o) = true) as Hex.
        { apply existsb_exists. exists e. split; [exact Hx|apply Nat.eqb_refl]. }
        congruence.
    + unfold observe.
      destruct (existsb (Nat.eqb e) (observationTargets o)); exact Ht.
Qed.

Lemma observed_found (found : list node) (o : obs) (e : node) :
  In e (observationTargets (fold_left (fun o x => observe x o) found o)) <->
  In e (observationTargets o) \/ In e found.
Proof.
  revert o. induction found as [|x found IH]; intros o; cbn [fold_left].
  - cbn. tauto.
  - rewrite IH. unfold observe.
    destruct (existsb (Nat.eqb x) (observationTargets o)) eqn:E; cbn [In].
    + apply existsb_exists in E. destruct E as (y & Hy & Hxy).
      apply Nat.eqb_eq in Hxy. subst y. intuition (subst; auto).
    + cbn [observationTargets]. rewrite in_app_iff. cbn [In]. tauto.
Qed.

Lemma found_in_spec (e : node) (found : list node) :
  found_in e found = true <-> In e found.
Proof.
  unfold found_in. rewrite existsb_exists. split.
  - intros (x & Hx & Hex). apply Nat.eqb_eq in Hex. subst. exact Hx.
  - intros H. exists e. split; [exact H | apply Nat.eqb_refl].
Qed.

Lemma unobserve_targets (e x : node) (o : obs) :
  In x (observationTargets (unobserve e o)) <->
  In x (observationTargets o) /\ x <> e.
Proof.
  unfold unobserve. cbn. rewrite filter_In, negb_true_iff, Nat.eqb_neq.
  intuition congruence.
Qed.

Lemma triggers_app (e : node) (a b : list entry) :
  triggers e (a ++ b) = (triggers e a + triggers e b)%nat.
Proof. unfold triggers. rewrite filter_app, length_app. reflexivity. Qed.

(** The callback has no guard: the action runs once for each entry
    that reports its target as intersecting. *)
Lemma callback_runs (entries : list entry) (o : obs) (e : node) :
  runs_on e (callback action entries o)
  = (runs_on e o + triggers e entries)%nat.
Proof.
  unfold callback. revert o.
  induction entries as [|[t b] entries IH]; intros o; cbn [fold_left].
  - unfold triggers. cbn. lia.
  - rewrite IH. change ({| target := t; isIntersecting := b |} :: entries)
      with ([{| target := t; isIntersecting := b |}] ++ entries)%list.
    rewrite triggers_app. unfold on_entry, triggers, runs_on.
    cbn [isIntersecting target filter].
    destruct b; cbn [unobserve trace andb].
    + cbn [count_occ]. destruct (Nat.eq_dec t e) as [->|Hne].
      * rewrite Nat.eqb_refl. cbn [andb List.length]. lia.
      * apply Nat.eqb_neq in Hne. rewrite Hne. cbn [andb List.length]. lia.
    + rewrite andb_false_r. cbn [List.length]. lia.
Qed.

Lemma callback_targets (entries : list entry) (o : obs) (e : node) :
  In e (observationTargets (callback action entries o)) <->
  In e (observationTargets o) /\ triggers e entries = 0%nat.
Proof.
  unfold callback. revert o.
  induction entries as [|[t b] entries IH]; intros o; cbn [fold_left].
  - unfold triggers. cbn. tauto.
  - rewrite IH. change ({| target := t; isIntersecting := b |} :: entries)
      with ([{| target := t; isIntersecting := b |}] ++ entries)%list.
    rewrite triggers_app. unfold on_entry, triggers at 2.
    cbn [isIntersecting target filter].
    destruct b; cbn [andb].
    + rewrite unobserve_targets. cbn [observationTargets].
      destruct (Nat.eqb t e) eqn:E; cbn [andb List.length].
      * apply Nat.eqb_eq in E. subst t. split; [tauto | lia].
      * apply Nat.eqb_neq in E. intuition (congruence || lia).
    + rewrite andb_false_r. cbn [List.length]. intuition lia.
Qed.

Lemma callback_NoDup (entries : list entry) (o : obs) :
  NoDup (observationTargets o) ->
  NoDup (observationTargets (callback action entries o)).
Proof.
  unfold callback. revert o.
  induction entries as [|en entries IH]; intros o H; cbn [fold_left];
    [exact H|].
  apply IH. unfold on_entry. destruct (isIntersecting en); [|exact H].
  cbn. apply NoDup_filter, H.
Qed.

(** One update queues one entry at most for a target. *)
Lemma queued_triggers (change : node -> option bool) (o : obs) (e : node) :
  NoDup (observationTargets o) ->
  triggers e (queued change o)
  = if found_in e (observationTargets o) && intersecting e change
    then 1%nat else 0%nat.
Proof.
  unfold queued. generalize (observationTargets o) as l.
  induction l as [|x l IH]; intros Hn; cbn [flat_map found_in existsb].
  - reflexivity.
  - inversion Hn as [|? ? Hx Hl]; subst.
    rewrite triggers_app, (IH Hl). fold (found_in e l).
    destruct (Nat.eqb e x) eqn:E; cbn [orb andb].
    + apply Nat.eqb_eq in E. subst x.
      assert (Hf : found_in e l = false).
      { apply not_true_is_false. rewrite found_in_spec. exact Hx. }
      rewrite Hf. cbn [andb]. unfold intersecting, triggers.
      destruct (change e) as [[|]|]; cbn; rewrite ?Nat.eqb_refl; reflexivity.
    + assert (T : triggers e
                    match change x with
                    | Some b => [{| target := x; isIntersecting := b |}]
                    | None => []
                    end = 0%nat).
      { unfold triggers. destruct (change x) as [b|]; [|reflexivity].
        cbn. rewrite Nat.eqb_sym, E. reflexivity. }
      rewrite T. reflexivity.
Qed.

Lemma queue_triggers (updates : list (node -> option bool)) (o : obs)
      (e : node) :
  NoDup (observationTargets o) ->
  triggers e (flat_map (fun change => queued change o) updates)
  = if found_in e (observationTargets o) then reports e updates else 0%nat.
Proof.
  intros Hn. induction updates as [|c updates IH]; cbn [flat_map].
  - unfold reports. destruct (found_in e (observationTargets o)); reflexivity.
  - rewrite triggers_app, IH, (@queued_triggers c o e Hn).
    unfold reports. cbn [filter].
    destruct (found_in e (observationTargets o)); cbn [andb]; [|reflexivity].
    destruct (intersecting e c); reflexivity.
Qed.

(** One call: how often the action runs, and who stays observed. *)
Lemma notify_runs (o : obs) (updates : list (node -> option bool))
      (e : node) :
  NoDup (observationTargets o) ->
  runs_on e (notify action o updates)
  = (runs_on e o
     + if found_in e (observationTargets o) then reports e updates else 0)%nat.
Proof.
  intros Hn. unfold notify. rewrite callback_runs, (@queue_triggers updates o e Hn).
  reflexivity.
Qed.

Lemma notify_targets (o : obs) (updates : list (node -> option bool))
      (e : node) :
  NoDup (observationTargets o) ->
  (In e (observationTargets (notify action o updates)) <->
   In e (observationTargets o) /\ reports e updates = 0%nat).
Proof.
  intros Hn. unfold notify. rewrite callback_targets, (@queue_triggers updates o e Hn).
  destruct (found_in e (observationTargets o)) eqn:E; [tauto|].
  assert (~ In e (observationTargets o)).
  { rewrite <- found_in_spec. congruence. }
  tauto.
Qed.

Lemma notify_NoDup (o : obs) (updates : list (node -> option bool)) :
  NoDup (observationTargets o) ->
  NoDup (observationTargets (notify action o updates)).
Proof. apply callback_NoDup. Qed.

(** Any number of calls. *)
Lemma calls_effect (calls : list (list (node -> option bool))) (o : obs)
      (e : node) :
  NoDup (observationTargets o) ->
  runs_on e (fold_left (notify action) calls o)
  = (runs_on e o
     + if found_in e (observationTargets o) then first_reports e calls
       else 0)%nat /\
  (In e (observationTargets (fold_left (notify action) calls o)) <->
   In e (observationTargets o) /\ reported e calls = false) /\
  NoDup (observationTargets (fold_left (notify action) calls o)).
Proof.
  revert o. induction calls as [|b calls IH]; intros o Hn; cbn [fold_left].
  - cbn. split; [|split; [tauto | exact Hn]].
    destruct (found_in e (observationTargets o)); lia.
  - destruct (IH (notify action o b) (@notify_NoDup o b Hn)) as (I1 & I2 & I3).
    pose proof (@notify_runs o b e Hn) as N1.
    pose proof (@notify_targets o b e Hn) as N2.
    split; [|split; [|exact I3]].
    + rewrite I1, N1. cbn [first_reports].
      destruct (found_in e (observationTargets (notify action o b))) eqn:F.
      * apply found_in_spec, N2 in F. destruct F as [F1 F2].
        apply found_in_spec in F1. rewrite F1, F2. cbn. lia.
      * destruct (found_in e (observationTargets o)) eqn:F0; [|lia].
        destruct (Nat.eqb (reports e b) 0) eqn:Z; [|lia].
        apply Nat.eqb_eq in Z. exfalso.
        assert (found_in e (observationTargets (notify action o b)) = true).
        { apply found_in_spec, N2. split; [apply found_in_spec, F0 | exact Z]. }
        congruence.
    + rewrite I2, N2. unfold reported. cbn [existsb].
      destruct (Nat.eqb (reports e b) 0) eqn:Z; cbn [negb orb].
      * apply Nat.eqb_eq in Z. tauto.
      * apply Nat.eqb_neq in Z. intuition discriminate.
Qed.

(** Over a page load: how often the action ran, and who is still
    observed. *)
Lemma page_load_effect (w : world) (found : list node)
      (calls : list (list (node -> option bool))) (e : node) :
  runs_on e (page_load action w found calls)
  = (if found_in e found then first_reports e calls else 0%nat) /\
  (In e (observationTargets (page_load action w found calls)) <->
   found_in e found = true /\ reported e calls = false).
Proof.
  unfold page_load.
  destruct (@observe_targets found (create w)) as [Hn Ht];
    [constructor | reflexivity |].
  pose proof (observed_found found (create w) e) as Hf.
  set (o := fold_left (fun o x => observe x o) found (create w)) in *.
  destruct (@calls_effect calls o e Hn) as (H1 & H2 & _).
  assert (F : found_in e (observationTargets o) = found_in e found).
  { apply eq_true_iff_eq. rewrite !found_in_spec, Hf. cbn. tauto. }
  split.
  - rewrite H1, F. unfold runs_on at 1. rewrite Ht. reflexivity.
  - rewrite H2, Hf, found_in_spec. cbn. tauto.
Qed.

Lemma first_reports_reported (e : node)
      (calls : list (list (node -> option bool))) :
  (first_reports e calls <> 0%nat <-> reported e calls = true) /\
  ((forall updates, In updates calls -> (reports e updates <= 1)%nat) ->
   (first_reports e calls <= 1)%nat).
Proof.
  induction calls as [|b calls [IH1 IH2]]; cbn [first_reports].
  - split; [cbn; intuition discriminate | lia].
  - unfold reported. cbn [existsb]. fold (reported e calls).
    destruct (Nat.eqb (reports e b) 0) eqn:Z; cbn [negb orb].
    + split; [exact IH1|]. intros H. apply IH2. intros x Hx. apply H.
      right. exact Hx.
    + apply Nat.eqb_neq in Z. split; [tauto|].
      intros H. apply H. left. reflexivity.
Qed.

Lemma first_reports_app (e : node)
      (calls more : list (list (node -> option bool))) :
  first_reports e calls <> 0%nat ->
  first_reports e (calls ++ more) = first_reports e calls.
Proof.
  induction calls as [|b calls IH]; cbn [first_reports app]; [congruence|].
  destruct (Nat.eqb (reports e b) 0); [exact IH | reflexivity].
Qed.

Lemma page_load_once (w : world) (found : list node)
      (calls : list (list (node -> option bool))) (e : node) :
  (forall updates, In updates calls -> (reports e updates <= 1)%nat) ->
  (runs_on e (page_load action w found calls) <= 1)%nat.
Proof.
  intros H. rewrite (proj1 (page_load_effect w found calls e)).
  destruct (found_in e found); [|lia].
  apply (first_reports_reported e calls), H.
Qed.

(** C3, as the code has it.  Over a page load, that is the elements
    found being observed and then any sequence of calls by the browser,
    the action of a one-shot observer (starting a counter, fading a chat
    bubble in, revealing a card, drawing the chart) runs on an element
    in one call only, the first that reports it as intersecting, once
    for each entry of that call that does; so at most once when no call
    reports the element twice as intersecting.  An element whose action
    ran is no longer among the observation targets, and no later call
    runs the action on it again. *)
Theorem C3_one_shot_at_most_once :
  forall (w : world) (found : list node)
         (calls : list (list (node -> option bool))) (e : node),
    runs_on e (page_load action w found calls)
    = (if found_in e found then first_reports e calls else 0%nat) /\
    ((forall updates, In updates calls -> (reports e updates <= 1)%nat) ->
     (runs_on e (page_load action w found calls) <= 1)%nat) /\
    (In e (trace (page_load action w found calls)) ->
     ~ In e (observationTargets (page_load action w found calls))) /\
    (forall more,
       runs_on e (page_load action w found calls) <> 0%nat ->
       runs_on e (page_load action w found (calls ++ more))
       = runs_on e (page_load action w found calls)).
Proof.
  intros w found calls e.
  destruct (page_load_effect w found calls e) as [H1 H2].
  destruct (first_reports_reported e calls) as [F1 F2].
  split; [exact H1|]. split; [|split].
  - apply page_load_once.
  - intros Hin Hobs. apply H2 in Hobs. destruct Hobs as [Hf Hr].
    assert (Hc : runs_on e (page_load action w found calls) <> 0%nat).
    { unfold runs_on. intros H0.
      apply (count_occ_not_In Nat.eq_dec) in H0. exact (H0 Hin). }
    rewrite H1, Hf in Hc. apply F1 in Hc. congruence.
  - intros more Hc.
    destruct (page_load_effect w found (calls ++ more) e) as [H1' _].
    rewrite H1', H1. rewrite H1 in Hc.
    destruct (found_in e found); [|reflexivity].
    apply first_reports_app, Hc.
Qed.

(** X3.  Over a page load the action of a one-shot observer runs on
    every element that was found and reported intersecting by some
    call, and on no other; the elements found and never reported
    intersecting are the ones still observed. *)
Theorem X3_triggered_exactly_when_reported :
  forall (w : world) (found : list node)
         (calls : list (list (node -> option bool))) (e : node),
    (runs_on e (page_load action w found calls) <> 0%nat <->
     found_in e found = true /\ reported e calls = true) /\
    (In e (observationTargets (page_load action w found calls)) <->
     found_in e found = true /\ reported e calls = false).
Proof.
  intros w found calls e.
  destruct (page_load_effect w found calls e) as [H1 H2].
  destruct (first_reports_reported e calls) as [F1 _].
  split; [|exact H2]. rewrite H1.
  destruct (found_in e found); [|intuition discriminate].
  rewrite F1. tauto.
Qed.

End ObserverFacts.

(** C3 as stated fails: the card 0 comes into view, leaves it and comes
    into view again before the browser calls; the call carries the
    three entries and the callback, which has no guard, reveals the card
    twice. *)
Lemma C3_repeated_entry_counterexample :
  let calls := [[Observer.enters; Observer.leaves; Observer.enters]] in
  let o := Observer.page_load Observer.reveal_action (fun _ => [])
                              [0%nat] calls in
  Observer.runs_on 0%nat o = 2%nat /\
  Observer.trace o = [0%nat; 0%nat] /\
  Observer.observationTargets o = [].
Proof. vm_compute. repeat split. Qed.

(** The four observers of the script, each over its own page load in
    which no call reports an element twice as intersecting. *)
Lemma observers_of_the_script (R : Num.Rounding) (e : Observer.node)
      (found : list Observer.node)
      (calls : list (list (Observer.node -> option bool))) :
  (forall updates, In updates calls ->
                   (ObserverMore.reports e updates <= 1)%nat) ->
  let once {world} (action : Observer.node -> world -> world) :=
    forall w,
      (Observer.runs_on e (Observer.page_load action w found calls) <= 1)%nat
  in
  once (@Observer.stats_action R) /\
  once Observer.typing_action /\
  once Observer.reveal_action /\
  once Observer.chart_action.
Proof.
  intros H. repeat split; intros w; apply page_load_once, H.
Qed.

Section StatsObserver.
Import Observer ObserverMore.
Context {R : Num.Rounding}.

Lemma animateValue_on_text (s : stat) : text (animateValue_on s) = text s.
Proof.
  unfold animateValue_on.
  destruct (Counter.timer (Counter.animateValue (text s))); reflexivity.
Qed.

Lemma callback_stats (entries : list entry) (o : observer stats) (x : node) :
  state (callback stats_action entries o) x
  = Nat.iter (triggers x entries) animateValue_on (state o x).
Proof.
  unfold callback. revert o.
  induction entries as [|[t b] entries IH]; intros o; cbn [fold_left].
  - reflexivity.
  - rewrite IH. unfold triggers at 2, on_entry.
    cbn [filter target isIntersecting].
    fold (triggers x entries).
    destruct b.
    + cbn [unobserve state]. unfold stats_action.
      rewrite (Nat.eqb_sym x t).
      destruct (Nat.eqb t x) eqn:E; cbn [andb List.length];
        fold (triggers x entries).
      * apply Nat.eqb_eq in E. subst t.
        rewrite Nat.iter_succ_r. reflexivity.
      * reflexivity.
    + rewrite andb_false_r. reflexivity.
Qed.

(** X4.  One call of the counters' callback runs [animateValue] on each
    observed element once for each update that reports it as
    intersecting, from the text the element has then, and leaves every
    other element as it is; no text is changed by the call itself. *)
Theorem X4_call_starts_counters :
  forall (o : observer stats) (updates : list (node -> option bool))
         (x : node),
    NoDup (observationTargets o) ->
    state (notify stats_action o updates) x
    = Nat.iter (if found_in x (observationTargets o)
                then reports x updates else 0%nat)
               animateValue_on (state o x) /\
    text (state (notify stats_action o updates) x) = text (state o x).
Proof.
  intros o updates x Hn.
  assert (E : state (notify stats_action o updates) x
              = Nat.iter (if found_in x (observationTargets o)
                          then reports x updates else 0%nat)
                         animateValue_on (state o x)).
  { unfold notify. rewrite callback_stats, (@queue_triggers _ updates o x Hn).
    reflexivity. }
  split; [exact E|]. rewrite E.
  generalize (if found_in x (observationTargets o)
              then reports x updates else 0%nat) as n.
  induction n as [|n IH]; [reflexivity|].
  rewrite Nat.iter_succ, animateValue_on_text. exact IH.
Qed.

End StatsObserver.

Lemma X4_call_starts_counters_witness :
  let w : Observer.stats :=
    fun _ => {| Observer.text := "98%"; Observer.intervals := [] |} in
  let o := Observer.page_load (@Observer.stats_action exact) w
                              [0%nat; 1%nat] [] in
  NoDup (Observer.observationTargets o) /\
  Observer.text
    (Observer.state
       (Observer.notify (@Observer.stats_action exact) o
                        [Observer.enters; Observer.enters]) 1%nat)
  = "98%"%string.
Proof.
  cbv zeta.
  assert (Hn : NoDup (Observer.observationTargets
                        (Observer.page_load (@Observer.stats_action exact)
                           (fun _ => {| Observer.text := "98%";
                                        Observer.intervals := [] |})
                           [0%nat; 1%nat] []))).
  { cbn. repeat constructor; cbn; intuition discriminate. }
  split; [exact Hn|].
  exact (proj2 (@X4_call_starts_counters exact _
                  [Observer.enters; Observer.enters] 1%nat Hn)).
Defined.

(** ** Optional elements and the scroll listeners *)

Section PageFacts.
Import Page.
Open Scope Q_scope.

(** The guarded features: without the menu toggle, the form or the
    canvas, their listener is not installed; without the hero content
    the parallax listener leaves the page as it was. *)
Lemma guarded_features_skipped (p : page) :
  (menuToggle p = None -> menu_click (init p) = false) /\
  (has_contactForm p = false -> form_submit (init p) = false) /\
  (has_chartCanvas p = false -> chart_observer (init p) = false) /\
  (heroContent p = None -> forall y, parallax_on_scroll y p = Normal p).
Proof.
  repeat split.
  - intros H. cbn. rewrite H. reflexivity.
  - intros H. exact H.
  - intros H. exact H.
  - intros H y. unfold parallax_on_scroll. rewrite H. reflexivity.
Qed.

(** The scroll listener of the header is installed whatever was found. *)
Lemma header_listener_installed (p : page) : header_scroll (init p) = true.
Proof. reflexivity. Qed.

(** C4, at the header.  On a page without a header element the scroll
    listener of lines 35-41 is installed all the same and throws a
    [TypeError] at every scroll event, whatever the offset. *)
Theorem C4_scroll_without_header_throws :
  forall (p : page) (y : Q),
    header p = None ->
    header_scroll (init p) = true /\
    header_on_scroll y p = Throw TypeError p /\
    In TypeError (snd (scroll_event y p)).
Proof.
  intros p y H. split; [reflexivity|].
  assert (E : header_on_scroll y p = Throw TypeError p).
  { unfold header_on_scroll. rewrite H. reflexivity. }
  split; [exact E|].
  unfold scroll_event, run_listener at 2. cbn [fst snd]. rewrite E.
  unfold run_listener. cbn [fst snd app].
  destruct (parallax_on_scroll y p); cbn; left; reflexivity.
Qed.

Lemma C4_scroll_without_header_throws_witness :
  header hero_only = None /\
  header_on_scroll 150 hero_only = Throw TypeError hero_only.
Proof.
  assert (H : header hero_only = None) by reflexivity.
  split; [exact H|].
  exact (proj1 (proj2 (@C4_scroll_without_header_throws hero_only 150 H))).
Defined.








End PageFacts.

(** ** The contact form *)

Section FormFacts.
Import Form.
Open Scope string_scope.
Open Scope Z_scope.

Lemma has_property_In (k : string) (o : object) :
  has_property k o = true <-> In k (map fst o).
Proof.
  unfold has_property. rewrite existsb_exists, in_map_iff. split.
  - intros (kv & Hin & E). apply String.eqb_eq in E. exists kv. auto.
  - intros (kv & E & Hin). exists kv. split; [exact Hin|].
    apply String.eqb_eq. auto.
Qed.

Lemma get_property_None (k : string) (o : object) :
  get_property k o = None <-> ~ In k (map fst o).
Proof.
  induction o as [|[k' v'] o IH]; cbn; [tauto|].
  destruct (String.eqb k k') eqn:E.
  - apply String.eqb_eq in E. subst k'. split; [discriminate | tauto].
  - apply String.eqb_neq in E. rewrite IH. intuition congruence.
Qed.

Lemma get_property_In (k : string) (v : entry_value) (o : object) :
  get_property k o = Some v -> In (k, v) o.
Proof.
  induction o as [|[k' v'] o IH]; cbn; [discriminate|].
  destruct (String.eqb k k') eqn:E.
  - apply String.eqb_eq in E. subst k'. intros H. injection H as ->. auto.
  - auto.
Qed.

Lemma replace_keys (k : string) (v : entry_value) (o : object) :
  map fst (replace_property k v o) = map fst o.
Proof.
  induction o as [|[k' v'] o IH]; cbn; [reflexivity|].
  destruct (String.eqb k k') eqn:E; cbn.
  - apply String.eqb_eq in E. subst k'. reflexivity.
  - rewrite IH. reflexivity.
Qed.

Lemma get_replace (k k2 : string) (v : entry_value) (o : object) :
  In k (map fst o) ->
  get_property k2 (replace_property k v o)
  = if String.eqb k2 k then Some v else get_property k2 o.
Proof.
  induction o as [|[k' v'] o IH]; cbn; [intros []|]. intros Hin.
  destruct (String.eqb k k') eqn:E; cbn.
  - apply String.eqb_eq in E. subst k'.
    destruct (String.eqb k2 k); reflexivity.
  - destruct Hin as [Hin|Hin].
    + subst k'. rewrite String.eqb_refl in E. discriminate.
    + rewrite (IH Hin). destruct (String.eqb k2 k') eqn:E2; [|reflexivity].
      apply String.eqb_eq in E2. subst k'.
      rewrite String.eqb_sym, E. reflexivity.
Qed.

Lemma insert_keys (n : Z) (k : string) (v : entry_value) (o : object)
      (x : string) :
  In x (map fst (insert_index n k v o)) <-> x = k \/ In x (map fst o).
Proof.
  induction o as [|[k' v'] o IH]; cbn; [intuition congruence|].
  destruct (array_index k') as [n'|]; [destruct (n' <? n)|]; cbn;
    rewrite ?IH; intuition congruence.
Qed.

Lemma get_insert (n : Z) (k k2 : string) (v : entry_value) (o : object) :
  ~ In k (map fst o) ->
  get_property k2 (insert_index n k v o)
  = if String.eqb k2 k then Some v else get_property k2 o.
Proof.
  induction o as [|[k' v'] o IH]; cbn; intros Hn.
  - reflexivity.
  - destruct (array_index k') as [n'|]; [destruct (n' <? n)|];
      cbn; try reflexivity.
    rewrite IH by tauto.
    destruct (String.eqb k2 k') eqn:E2; [|reflexivity].
    apply String.eqb_eq in E2. subst k'.
    destruct (String.eqb k2 k) eqn:E; [|reflexivity].
    apply String.eqb_eq in E. subst k2. tauto.
Qed.

Lemma get_append (k k2 : string) (v : entry_value) (o : object) :
  ~ In k (map fst o) ->
  get_property k2 (o ++ [(k, v)])%list
  = if String.eqb k2 k then Some v else get_property k2 o.
Proof.
  induction o as [|[k' v'] o IH]; cbn; intros Hn.
  - reflexivity.
  - rewrite IH by tauto.
    destruct (String.eqb k2 k') eqn:E2; [|reflexivity].
    apply String.eqb_eq in E2. subst k'.
    destruct (String.eqb k2 k) eqn:E; [|reflexivity].
    apply String.eqb_eq in E. subst k2. tauto.
Qed.

(** What setting a property does to the values and to the keys. *)
Lemma get_set (k k2 : string) (v : entry_value) (o : object) :
  get_property k2 (set_property k v o)
  = if String.eqb k2 k then Some v else get_property k2 o.
Proof.
  unfold set_property. destruct (has_property k o) eqn:H.
  - apply get_replace, has_property_In, H.
  - assert (Hn : ~ In k (map fst o)).
    { rewrite <- has_property_In. congruence. }
    destruct (array_index k); [apply get_insert | apply get_append]; exact Hn.
Qed.

Lemma get_set_same (k : string) (v : entry_value) (o : object) :
  get_property k (set_property k v o) = Some v.
Proof. rewrite get_set, String.eqb_refl. reflexivity. Qed.

Lemma get_set_other (k k' : string) (v : entry_value) (o : object) :
  k <> k' -> get_property k (set_property k' v o) = get_property k o.
Proof.
  intros Hne. apply String.eqb_neq in Hne. rewrite get_set, Hne. reflexivity.
Qed.

Lemma set_keys (k : string) (v : entry_value) (o : object) (x : string) :
  In x (map fst (set_property k v o)) <-> x = k \/ In x (map fst o).
Proof.
  unfold set_property. destruct (has_property k o) eqn:H.
  - rewrite replace_keys. apply has_property_In in H.
    intuition (subst; assumption).
  - destruct (array_index k).
    + apply insert_keys.
    + rewrite map_app, in_app_iff. cbn. intuition congruence.
Qed.

Lemma insert_NoDup (n : Z) (k : string) (v : entry_value) (o : object) :
  ~ In k (map fst o) -> NoDup (map fst o) ->
  NoDup (map fst (insert_index n k v o)).
Proof.
  induction o as [|[k' v'] o IH]; cbn; intros Hn Hd.
  - repeat constructor. intros [].
  - inversion Hd as [|? ? Hk' Ho]; subst.
    destruct (array_index k') as [n'|]; [destruct (n' <? n)|]; cbn.
    + constructor; [|apply IH; tauto].
      rewrite insert_keys. intuition congruence.
    + constructor; [cbn; tauto | exact Hd].
    + constructor; [cbn; tauto | exact Hd].
Qed.

Lemma set_NoDup (k : string) (v : entry_value) (o : object) :
  NoDup (map fst o) -> NoDup (map fst (set_property k v o)).
Proof.
  intros Hd. unfold set_property. destruct (has_property k o) eqn:H.
  - rewrite replace_keys. exact Hd.
  - assert (Hn : ~ In k (map fst o)).
    { rewrite <- has_property_In. congruence. }
    destruct (array_index k).
    + apply insert_NoDup; assumption.
    + rewrite map_app. apply NoDup_app; [exact Hd | repeat constructor; intros [] |].
      cbn. intros x Hx [<-|[]]. exact (Hn Hx).
Qed.

(** An array index is written in one way. *)
Lemma array_index_canonical (k : string) (n : Z) :
  array_index k = Some n -> k = Str.of_Z n.
Proof.
  unfold array_index. destruct (Str.parseInt k) as [m|]; [|discriminate].
  destruct (String.eqb (Str.of_Z m) k) eqn:E; cbn; [|discriminate].
  destruct (m <=? 4294967294); [|discriminate].
  intros H. injection H as <-. apply String.eqb_eq in E. auto.
Qed.

Lemma key_before_index (k x : string) (n : Z) :
  array_index k = Some n -> array_index x = None -> key_before k x.
Proof. unfold key_before. intros -> ->. exact I. Qed.

Lemma sorted_after_name (k : string) (l : list string) :
  array_index k = None -> StronglySorted key_before (k :: l) ->
  Forall (fun x => array_index x = None) l.
Proof.
  intros Hk Hs. inversion Hs as [|? ? _ Hall]; subst.
  eapply Forall_impl; [|exact Hall]. cbv beta. intros x Hx.
  unfold key_before in Hx. rewrite Hk in Hx.
  destruct (array_index x); [destruct Hx | reflexivity].
Qed.

Lemma insert_sorted (n : Z) (k : string) (v : entry_value) (o : object) :
  array_index k = Some n -> ~ In k (map fst o) ->
  StronglySorted key_before (map fst o) ->
  StronglySorted key_before (map fst (insert_index n k v o)).
Proof.
  intros Hk. induction o as [|[k' v'] o IH]; cbn [insert_index map fst];
    intros Hn Hs.
  - repeat constructor.
  - inversion Hs as [|? ? Hs' Hall]; subst.
    destruct (array_index k') as [n'|] eqn:Ek'.
    + destruct (n' <? n) eqn:Elt; cbn [map fst].
      * apply Z.ltb_lt in Elt. constructor.
        -- apply IH; [cbn in Hn; tauto | exact Hs'].
        -- apply Forall_forall. intros x Hx. apply insert_keys in Hx.
           destruct Hx as [->|Hx].
           ++ unfold key_before. rewrite Ek', Hk. exact Elt.
           ++ rewrite Forall_forall in Hall. apply Hall, Hx.
      * apply Z.ltb_ge in Elt.
        assert (Hne : n <> n').
        { intros ->. apply Hn. left.
          rewrite (array_index_canonical _ Hk).
          rewrite (array_index_canonical _ Ek'). reflexivity. }
        constructor; [exact Hs|].
        constructor.
        -- unfold key_before. rewrite Hk, Ek'. lia.
        -- eapply Forall_impl; [|exact Hall]. cbv beta. intros x Hx.
           unfold key_before in *. rewrite Ek' in Hx. rewrite Hk.
           destruct (array_index x); [lia | exact I].
    + cbn [map fst]. constructor; [exact Hs|].
      pose proof (sorted_after_name Ek' Hs) as Hnames.
      constructor.
      * apply key_before_index with n; assumption.
      * eapply Forall_impl; [|exact Hnames]. cbv beta. intros x Hx.
        apply key_before_index with n; assumption.
Qed.

Lemma append_sorted (k : string) (l : list string) :
  array_index k = None -> StronglySorted key_before l ->
  StronglySorted key_before (l ++ [k])%list.
Proof.
  intros Hk. induction l as [|x l IH]; cbn; intros Hs.
  - repeat constructor.
  - inversion Hs as [|? ? Hs' Hall]; subst. constructor; [apply IH, Hs'|].
    apply Forall_app. split; [exact Hall|].
    constructor; [|constructor]. unfold key_before. rewrite Hk.
    destruct (array_index x); exact I.
Qed.

Lemma set_sorted (k : string) (v : entry_value) (o : object) :
  StronglySorted key_before (map fst o) ->
  StronglySorted key_before (map fst (set_property k v o)).
Proof.
  intros Hs. unfold set_property. destruct (has_property k o) eqn:H.
  - rewrite replace_keys. exact Hs.
  - assert (Hn : ~ In k (map fst o)).
    { rewrite <- has_property_In. congruence. }
    destruct (array_index k) as [n|] eqn:Ek.
    + apply insert_sorted; assumption.
    + rewrite map_app. apply append_sorted; assumption.
Qed.

Lemma set_property_fresh (k : string) (v : entry_value) (o : object) :
  ~ In k (map fst o) -> array_index k = None ->
  set_property k v o = (o ++ [(k, v)])%list.
Proof.
  intros Hn Hk. unfold set_property.
  replace (has_property k o) with false.
  - rewrite Hk. reflexivity.
  - symmetry. apply not_true_is_false. rewrite has_property_In. exact Hn.
Qed.

Lemma last_value_from (k : string) (entries : list (string * entry_value))
      (acc : option entry_value) :
  fold_left (fun acc kv => if String.eqb k (fst kv) then Some (snd kv) else acc)
            entries acc
  = match last_value k entries with
    | Some v => Some v
    | None => acc
    end.
Proof.
  unfold last_value. revert acc.
  induction entries as [|[k' v'] entries IH]; intros acc; cbn [fold_left fst snd].
  - reflexivity.
  - rewrite IH, (IH (if String.eqb k k' then Some v' else None)).
    destruct (fold_left _ entries None); [reflexivity|].
    destruct (String.eqb k k'); reflexivity.
Qed.

Lemma last_value_None (k : string) (entries : list (string * entry_value)) :
  last_value k entries = None <-> ~ In k (map fst entries).
Proof.
  induction entries as [|[k' v'] entries IH].
  - cbn. tauto.
  - unfold last_value in *. cbn [fold_left fst snd map In].
    rewrite last_value_from. unfold last_value.
    destruct (fold_left _ entries None) as [v|] eqn:E.
    + split; [discriminate|]. intros H. exfalso.
      assert (Hin : ~ In k (map fst entries)) by tauto.
      apply IH in Hin. discriminate.
    + destruct (String.eqb k k') eqn:E'.
      * apply String.eqb_eq in E'. subst k'. split; [discriminate | tauto].
      * apply String.eqb_neq in E'. destruct IH as [IH _].
        specialize (IH eq_refl). intuition congruence.
Qed.

Lemma last_value_In (k : string) (v : entry_value)
      (entries : list (string * entry_value)) :
  last_value k entries = Some v -> In (k, v) entries.
Proof.
  induction entries as [|[k' v'] entries IH].
  - discriminate.
  - unfold last_value in *. cbn [fold_left fst snd].
    rewrite last_value_from. unfold last_value.
    destruct (fold_left _ entries None) as [v0|] eqn:E.
    + intros H. injection H as ->. right. apply IH. reflexivity.
    + destruct (String.eqb k k') eqn:E'; [|discriminate].
      apply String.eqb_eq in E'. subst k'. intros H. injection H as ->.
      left. reflexivity.
Qed.

(** The record built from an entry list: each name once, the array
    indices first, and under each name the value of its last entry. *)
Lemma fold_set_property (entries : list (string * entry_value)) (o : object) :
  let o' := fold_left (fun o kv => set_property (fst kv) (snd kv) o) entries o in
  (NoDup (map fst o) -> NoDup (map fst o')) /\
  (StronglySorted key_before (map fst o) ->
   StronglySorted key_before (map fst o')) /\
  (forall k, get_property k o'
             = match last_value k entries with
               | Some v => Some v
               | None => get_property k o
               end) /\
  (NoDup (map fst (o ++ entries)%list) ->
   Forall (fun kv => array_index (fst kv) = None) entries ->
   o' = (o ++ entries)%list).
Proof.
  revert o. induction entries as [|[k0 v0] entries IH]; intros o; cbn zeta.
  - cbn. rewrite app_nil_r. repeat split; auto.
  - cbn [fold_left fst snd].
    destruct (IH (set_property k0 v0 o)) as (I1 & I2 & I3 & I4).
    split; [|split; [|split]].
    + intros H. apply I1, set_NoDup, H.
    + intros H. apply I2, set_sorted, H.
    + intros k. rewrite I3. unfold last_value at 2.
      cbn [fold_left fst snd]. rewrite last_value_from.
      destruct (last_value k entries); [reflexivity|].
      rewrite get_set. destruct (String.eqb k k0); reflexivity.
    + intros H Hall. inversion Hall as [|? ? Hk0 Hrest]; subst.
      cbn [fst] in Hk0.
      assert (Hf : ~ In k0 (map fst o)).
      { rewrite map_app in H. cbn in H. apply NoDup_remove_2 in H.
        intros Hin. apply H. apply in_or_app. left. exact Hin. }
      rewrite (@set_property_fresh k0 v0 o Hf Hk0) in *.
      rewrite I4, <- app_assoc; [reflexivity | | exact Hrest].
      rewrite <- app_assoc. exact H.
Qed.



(** Every entry comes from an enabled control that bears its name. *)
Lemma FormData_from (fs : list field) (k : string) (v : entry_value) :
  In (k, v) (FormData fs) ->
  exists f, In f fs /\ disabled f = false /\ name f = k /\ k <> "".
Proof.
  unfold FormData. rewrite in_flat_map. intros (f & Hf & Hin).
  exists f. split; [exact Hf|]. unfold entries_of in Hin.
  destruct (disabled f) eqn:D; cbn [orb] in Hin; [destruct Hin|].
  destruct (String.eqb (name f) "") eqn:E; [destruct Hin|].
  apply String.eqb_neq in E.
  assert (Hk : name f = k).
  { destruct (control f) as [x d|x c d|sel d|files|].
    - destruct Hin as [H|[]]. congruence.
    - destruct c; [|destruct Hin]. destruct Hin as [H|[]]. congruence.
    - apply in_map_iff in Hin. destruct Hin as (y & H & _). congruence.
    - destruct files as [|n files].
      + destruct Hin as [H|[]]. congruence.
      + apply in_map_iff in Hin. destruct Hin as (y & H & _). congruence.
    - destruct Hin. }
  repeat split; congruence.
Qed.








(** A second submission before the first timeout ran reads the success
    label as the label to give back: the control keeps it for good. *)
Example second_submission_keeps_success_label :
  let s1 := after (submit_event sample) in
  let s2 := after (submit_event (elapse 1000 s1)) in
  let s3 := elapse 3000 s2 in
  option_map textContent (submitButton s3) = Some success_label /\
  timeouts s3 = [].
Proof. cbn. split; reflexivity. Qed.

End FormFacts.

(** ** The chart *)

Section ChartFacts.
Import Chart.
Open Scope Q_scope.
Variables width height : Q.

Lemma mapi_from_length {A B} (f : A -> nat -> B) (l : list A) (i : nat) :
  List.length (mapi_from i f l) = List.length l.
Proof.
  revert i. induction l as [|a l IH]; intros i; cbn; [|rewrite IH]; reflexivity.
Qed.

Lemma slice0_length {A} (stop : Z) (l : list A) :
  (0 <= stop <= Z.of_nat (List.length l))%Z ->
  List.length (slice0 stop l) = Z.to_nat stop.
Proof.
  intros H. unfold slice0.
  replace (stop <? 0)%Z with false by (symmetry; apply Z.ltb_ge; lia).
  rewrite length_firstn. lia.
Qed.

Lemma visible_count (progress : Q) :
  0 <= progress <= 1 ->
  (0 <= Qfloor (length_Q data * progress) <= 12)%Z.
Proof.
  intros [H0 H1]. change (length_Q data) with 12. split.
  - change 0%Z with (Qfloor 0). apply Qfloor_resp_le. lra.
  - change 12%Z with (Qfloor 12) at 2. apply Qfloor_resp_le. lra.
Qed.

Lemma points_length (progress : Q) :
  0 <= progress <= 1 ->
  List.length (points width height progress)
  = Z.to_nat (Qfloor (12 * progress)).
Proof.
  intros H. unfold points, mapi. rewrite mapi_from_length.
  rewrite slice0_length; [reflexivity|]. apply visible_count, H.
Qed.

Lemma count_app (f : op -> bool) (a b : list op) :
  count f (a ++ b) = (count f a + count f b)%nat.
Proof. unfold count. rewrite filter_app, length_app. reflexivity. Qed.

Lemma count_lineTo (f : op -> bool) (pts : list point) :
  f (lineTo 0 0) = false -> (forall a b c d, f (lineTo a b) = f (lineTo c d)) ->
  count f (map lineTo_point pts) = 0%nat.
Proof.
  intros H0 Hsame. unfold count.
  induction pts as [|p pts IH]; cbn; [reflexivity|].
  unfold lineTo_point at 1. rewrite (Hsame _ _ 0 0), H0. exact IH.
Qed.

Lemma count_dots (pts : list point) :
  count is_fill (dots pts) = (2 * List.length pts)%nat /\
  count is_arc (dots pts) = List.length pts /\
  count is_stroke (dots pts) = 0%nat.
Proof.
  unfold count, dots.
  induction pts as [|p pts (IH1 & IH2 & IH3)]; cbn; [auto|].
  rewrite IH1, IH2, IH3. repeat split; lia.
Qed.

Lemma count_grid :
  count is_fill (grid width height) = 0%nat /\
  count is_arc (grid width height) = 0%nat /\
  count is_stroke (grid width height) = 6%nat.
Proof. repeat split. Qed.

(** What a frame holds, by the number [n] of points it plots. *)
Lemma frame_counts (progress : Q) :
  let n := List.length (points width height progress) in
  count is_fill (frame width height progress)
  = (if (2 <=? n)%nat then 1 + 2 * n else 0)%nat /\
  count is_arc (frame width height progress)
  = (if (2 <=? n)%nat then n else 0)%nat /\
  count is_stroke (frame width height progress)
  = (if (2 <=? n)%nat then 7 else 6)%nat.
Proof.
  cbn zeta. unfold frame.
  destruct count_grid as (G1 & G2 & G3).
  rewrite !count_app, G1, G2, G3.
  destruct (points width height progress) as [|first [|second rest]];
    [repeat split .. |].
  set (pts := first :: second :: rest).
  destruct (count_dots pts) as (D1 & D2 & D3).
  rewrite !count_app. unfold area, line. rewrite !count_app, D1, D2, D3.
  rewrite !count_lineTo by (reflexivity || (intros; reflexivity)).
  change ((2 <=? List.length pts)%nat) with true. cbn iota.
  repeat split; cbn [count filter is_fill is_arc is_stroke List.length Nat.add];
    lia.
Qed.

Lemma mapi_from_nth {A B} (f : A -> nat -> B) (l : list A) (i k : nat) :
  nth_error (mapi_from i f l) k
  = option_map (fun v => f v (i + k)%nat) (nth_error l k).
Proof.
  revert i k. induction l as [|a l IH]; intros i [|k]; cbn; try reflexivity.
  - rewrite Nat.add_0_r. reflexivity.
  - rewrite IH. replace (S i + k)%nat with (i + S k)%nat by lia. reflexivity.
Qed.

(** At full progress the plot spans the padded canvas: the first point
    is at its left edge, the last one (the maximum of the data) at its
    right edge and at its top. *)
Lemma full_chart_spans_plot :
  exists first last_,
    nth_error (points width height 1) 0 = Some first /\
    nth_error (points width height 1) 11 = Some last_ /\
    x first == padding /\
    x last_ == width - padding /\
    y last_ == padding.
Proof.
  unfold points, mapi. rewrite !mapi_from_nth.
  change (slice0 (Qfloor (length_Q data * 1)) data) with data.
  cbn [nth_error data option_map Nat.add].
  do 2 eexists. split; [reflexivity|]. split; [reflexivity|].
  cbn [x y]. change (Math_max data) with 110. change (length_Q data) with 12.
  unfold chartWidth, chartHeight, padding, Qdiv.
  change (/ (12 - 1)) with (1 # 11). change (/ 110) with (1 # 110).
  change (inject_Z (Z.of_nat 0)) with 0. change (inject_Z (Z.of_nat 11)) with 11.
  repeat split; lra.
Qed.

(** C7.  In a frame with progress [p] between 0 and 1 the number of
    points plotted is [floor (12 * p)]: 12 at [p = 1], none at [p = 0].
    With fewer than two points the frame is the grid alone; the filled
    area, the stroked line and the circles (one [arc] and two [fill]s
    each) are drawn exactly when two points or more are plotted. *)
Theorem C7_chart_visible_points :
  forall p : Q,
    0 <= p <= 1 ->
    let n := List.length (points width height p) in
    n = Z.to_nat (Qfloor (12 * p)) /\
    (n <= 12)%nat /\
    List.length (points width height 1) = 12%nat /\
    List.length (points width height 0) = 0%nat /\
    ((n < 2)%nat -> frame width height p = grid width height) /\
    count is_fill (frame width height p)
    = (if (2 <=? n)%nat then 1 + 2 * n else 0)%nat /\
    count is_arc (frame width height p) = (if (2 <=? n)%nat then n else 0)%nat /\
    count is_stroke (frame width height p) = (if (2 <=? n)%nat then 7 else 6)%nat.
Proof.
  intros p Hp n. subst n. rewrite (points_length Hp).
  pose proof (visible_count Hp) as Hv. change (length_Q data) with 12 in Hv.
  split; [reflexivity|]. split; [lia|].
  split; [reflexivity|]. split; [reflexivity|].
  split.
  - rewrite <- (points_length Hp). unfold frame.
    destruct (points width height p) as [|first [|second rest]];
      cbn [List.length]; intros H; try lia; apply app_nil_r.
  - rewrite <- (points_length Hp). apply frame_counts.
Qed.

End ChartFacts.

Lemma C7_chart_visible_points_witness :
  0 <= 1 # 2 <= 1 /\
  List.length (Chart.points 600 200 (1 # 2)) = 6%nat.
Proof.
  assert (H : 0 <= 1 # 2 <= 1) by (split; discriminate).
  split; [exact H|].
  exact (proj1 (@C7_chart_visible_points 600 200 (1 # 2) H)).
Defined.

Section ChartLoop.
Import Chart.
Open Scope Q_scope.

Lemma progress_complete (startTime currentTime : Z) :
  (startTime + 2000 <= currentTime)%Z ->
  progress_at startTime currentTime == 1 /\
  again (progress_at startTime currentTime) = false.
Proof.
  intros H.
  assert (E : progress_at startTime currentTime == 1).
  { unfold progress_at, Math_min. apply Q.min_r.
    unfold animationDuration, Qdiv. change (/ 2000) with (1 # 2000).
    assert (2000 <= inject_Z (currentTime - startTime)).
    { change 2000 with (inject_Z 2000). rewrite <- Zle_Qle. lia. }
    lra. }
  split; [exact E|]. unfold again.
  destruct (Qlt_le_dec (progress_at startTime currentTime) 1); [lra|reflexivity].
Qed.

Lemma progress_incomplete (startTime currentTime : Z) :
  (currentTime < startTime + 2000)%Z ->
  again (progress_at startTime currentTime) = true.
Proof.
  intros H. unfold again.
  destruct (Qlt_le_dec (progress_at startTime currentTime) 1) as [|Hge];
    [reflexivity|].
  exfalso. unfold progress_at, Math_min in Hge.
  assert (inject_Z (currentTime - startTime) < 2000).
  { change 2000 with (inject_Z 2000). rewrite <- Zlt_Qlt. lia. }
  pose proof
    (Q.le_min_l (inject_Z (currentTime - startTime) / animationDuration) 1)
    as Hmin.
  unfold animationDuration, Qdiv in *. change (/ 2000) with (1 # 2000) in *. lra.
Qed.

(** Once a clock reading is 2000 ms past the start, the loop has drawn a
    last frame at progress 1 and requests no other. *)
Lemma animate_stops (startTime : Z) (clock : list Z) (t : Z) :
  In t clock -> (startTime + 2000 <= t)%Z ->
  snd (animate startTime clock) = false /\
  last (fst (animate startTime clock)) 0 == 1 /\
  (List.length (fst (animate startTime clock)) <= List.length clock)%nat.
Proof.
  intros Hin Ht. induction clock as [|c clock IH]; [destruct Hin|].
  cbn [animate].
  destruct (again (progress_at startTime c)) eqn:E.
  - destruct Hin as [->|Hin].
    + destruct (@progress_complete startTime t Ht) as [_ Hf]. congruence.
    + destruct (IH Hin) as (I1 & I2 & I3).
      destruct (animate startTime clock) as [ps pending]. cbn [fst snd] in *.
      split; [exact I1|]. split; [|cbn; lia].
      destruct ps as [|q ps]; [cbn in I2; lra | exact I2].
  - cbn [fst snd last List.length]. split; [reflexivity|]. split; [|lia].
    unfold again in E.
    destruct (Qlt_le_dec (progress_at startTime c) 1) as [|Hge]; [discriminate|].
    pose proof (Q.le_min_r (inject_Z (c - startTime) / animationDuration) 1).
    unfold progress_at, Math_min in *. lra.
Qed.

(** Before that, every frame requests the next one. *)
Lemma animate_continues (startTime : Z) (clock : list Z) :
  Forall (fun t => t < startTime + 2000)%Z clock ->
  snd (animate startTime clock) = true /\
  List.length (fst (animate startTime clock)) = List.length clock.
Proof.
  induction 1 as [|c clock Hc _ [IH1 IH2]]; [split; reflexivity|].
  cbn [animate]. rewrite (@progress_incomplete startTime c Hc).
  destruct (animate startTime clock). cbn in *. split; congruence.
Qed.

End ChartLoop.

(** ** Both loops end *)

Section Termination.
Import Num Counter.
Open Scope string_scope.

Lemma parse_installed (R : Rounding) (text : string) (target : number) :
  parse text = Some target ->
  Str.has_digit text = true /\ target = numericValue (installed text).
Proof.
  intros Hp.
  assert (Hd : Str.has_digit text = true).
  { unfold parse in Hp. rewrite parseInt_strip in Hp.
    destruct (Str.has_digit text); [reflexivity | discriminate]. }
  split; [exact Hd|]. rewrite (parse_digits _ Hd) in Hp. congruence.
Qed.

(** C9.  For every target parsed from a counter text, the interval
    loop ends: there is an [n] of at most 41 such that the first [n]
    occasions each fire a callback on the running interval, whose
    target is the parsed one; the test [current >= numericValue] of
    line 79 succeeds at the [n]th of them and at none before; and the
    interval is cleared from then on, so that exactly [n] callbacks
    fire however long one waits.  The frame loop of the chart requests
    no further frame at a clock reading 2000 ms or more past its start,
    where the progress is 1. *)
Theorem C9_loops_terminate :
  forall (R : Rounding) (text : string) (target : number),
    parse text = Some target ->
    (exists n, (1 <= n <= 41)%nat /\
       (forall k, (k < n)%nat ->
          exists t, timer (run k (animateValue text)) = Some t /\
                    numericValue t = target /\
                    (reaches t = true <-> S k = n)) /\
       (forall k, (n <= k)%nat -> timer (run k (animateValue text)) = None) /\
       (forall k, firings k (animateValue text) = Nat.min k n)) /\
    (forall startTime t,
        (startTime + 2000 <= t)%Z ->
        (Chart.progress_at startTime t == 1)%Q /\
        Chart.again (Chart.progress_at startTime t) = false) /\
    (forall startTime clock t,
        In t clock -> (startTime + 2000 <= t)%Z ->
        snd (Chart.animate startTime clock) = false /\
        (List.length (fst (Chart.animate startTime clock))
         <= List.length clock)%nat).
Proof.
  intros R text target Hp.
  destruct (@parse_installed R text target Hp) as [Hd ->].
  split; [|split].
  - destruct (animateValue_reaches text Hd) as (n & Hn & Hbefore & Hat & Hf).
    cbn zeta in *. exists n. split; [exact Hn|].
    split; [exact Hbefore|]. split; [|exact Hf].
    intros k Hk. rewrite (Hat k Hk). reflexivity.
  - intros startTime t Ht. apply progress_complete, Ht.
  - intros startTime clock t Hin Ht.
    destruct (animate_stops startTime clock Hin Ht) as (H1 & _ & H3).
    split; assumption.
Qed.

Lemma C9_loops_terminate_witness :
  @parse exact "99%" = Some (integer 99) /\
  timer (@run exact 40 (@animateValue exact "99%")) = None /\
  @firings exact 1000 (@animateValue exact "99%") = 40%nat.
Proof.
  assert (Hp : @parse exact "99%" = Some (integer 99)) by reflexivity.
  split; [exact Hp|].
  destruct (@C9_loops_terminate exact "99%" (integer 99) Hp)
    as ((n & Hn & Hbefore & Hat & Hf) & _).
  assert (E : n = 40%nat).
  { destruct (Nat.lt_ge_cases 39 n) as [H1|H1];
      [destruct (Nat.lt_ge_cases 40 n) as [H2|H2]|].
    - destruct (Hbefore 40%nat H2) as (t & Ht & _).
      vm_compute in Ht. discriminate Ht.
    - lia.
    - specialize (Hat 39%nat H1). vm_compute in Hat. discriminate Hat. }
  subst n. split; [apply Hat; lia | rewrite Hf; reflexivity].
Defined.

End Termination.

(** ** Sample runs *)

Section Samples.
Import Num Counter.
Open Scope string_scope.

Example counter_150 :
  @shown exact 50 (@animateValue exact "+150%")
  = map integer
      [3; 7; 11; 15; 18; 22; 26; 30; 33; 37; 41; 45; 48; 52; 56; 60; 63; 67;
       71; 75; 78; 82; 86; 90; 93; 97; 101; 105; 108; 112; 116; 120; 123;
       127; 131; 135; 138; 142; 146; 150]%Z.
Proof. vm_compute. reflexivity. Qed.

(** The same counter in binary64: the same numbers, the same texts. *)
Example counter_150_binary64 :
  @shown binary64 50 (@animateValue binary64 "+150%")
  = @shown exact 50 (@animateValue exact "+150%") /\
  @displayed binary64 50 (@animateValue binary64 "+150%")
  = @displayed exact 50 (@animateValue exact "+150%") /\
  nth_error (@displayed binary64 50 (@animateValue binary64 "+150%")) 0
  = Some "+3%".
Proof. vm_compute. repeat split. Qed.

Example counter_24_7 :
  @run exact 40 (@animateValue exact "24/7")
  = {| textContent := "247"; timer := None |}.
Proof. vm_compute. reflexivity. Qed.

Example counter_both_signs :
  textContent (@run exact 40 (@animateValue exact "+5-3%")) = "+-53%".
Proof. vm_compute. reflexivity. Qed.

(** With rounding the 40th sum of the increments can fall short of the
    target, and a 41st firing ends the count. *)
Example counter_one_rounded_down :
  @firings chopped 50 (@animateValue chopped "1") = 41%nat /\
  @firings exact 50 (@animateValue exact "1") = 40%nat /\
  @run chopped 41 (@animateValue chopped "1")
  = {| textContent := "1"; timer := None |}.
Proof. vm_compute. repeat split. Qed.

Example counter_zero :
  @run exact 1 (@animateValue exact "0")
  = {| textContent := "0"; timer := None |}.
Proof. vm_compute. reflexivity. Qed.

(** Beyond [2^53] the count ends on the Number nearest to the digits,
    as [String] writes it; a text of 400 nines ends on "Infinity" at the
    first firing. *)
Example counter_beyond_exact :
  textContent (@run binary64 41 (@animateValue binary64 "9007199254740993"))
  = "9007199254740992" /\
  textContent
    (@run binary64 41 (@animateValue binary64 "1000000000000000000000"))
  = "1e+21" /\
  @run binary64 1
    (@animateValue binary64 (String.concat "" (repeat "9" 400)))
  = {| textContent := "Infinity"; timer := None |}.
Proof. vm_compute. repeat split. Qed.

(** Two counters.  The first call of the browser reports the first one
    as intersecting, the second one as not; a later call reports the
    same: one run of the action, on the first counter, which then has
    one interval. *)
Example stats_observer_twice :
  let w : Observer.stats :=
    fun _ => {| Observer.text := "98%"; Observer.intervals := [] |} in
  let seen : Observer.node -> option bool :=
    fun e => if Nat.eqb e 0 then Some true else Some false in
  let o := Observer.page_load (@Observer.stats_action exact) w [0; 1]%nat
                              [[seen]; [seen]] in
  Observer.trace o = [0%nat] /\ Observer.observationTargets o = [1%nat] /\
  List.length (Observer.intervals (Observer.state o 0%nat)) = 1%nat /\
  List.length (Observer.intervals (Observer.state o 1%nat)) = 0%nat.
Proof. vm_compute. repeat split. Qed.

(** One call of the browser with three updates of the rendering
    behind it, the counter in view, out of view and in view again: two
    runs of the action, two intervals on the element. *)
Example stats_observer_two_entries :
  let w : Observer.stats :=
    fun _ => {| Observer.text := "98%"; Observer.intervals := [] |} in
  let o := Observer.page_load (@Observer.stats_action exact) w [0]%nat
                              [[Observer.enters; Observer.leaves; Observer.enters]] in
  Observer.trace o = [0; 0]%nat /\
  List.length (Observer.intervals (Observer.state o 0%nat)) = 2%nat.
Proof. vm_compute. repeat split. Qed.

(** With a header: at offset 150 its background is the flat colour, back
    at offset 0 it is the gradient again. *)
Example header_scenario :
  let p := Page.set_header Page.hero_only Page.plain in
  let bg y q :=
    match fst (Page.scroll_event y q) with
    | {| Page.header := Some h |} => Some (Page.background h)
    | _ => None
    end in
  bg 150%Q p = Some (Page.Text "rgba(10, 10, 10, 0.98)") /\
  bg 0%Q (fst (Page.scroll_event 150 p)) = Some (Page.Text Page.header_gradient) /\
  snd (Page.scroll_event 150 p) = [].
Proof. vm_compute. repeat split. Qed.

Example chart_loop :
  Chart.animate 1000 [1000; 1016; 2000; 2999; 3000; 3016]%Z
  = ([0 # 2000; 16 # 2000; 1000 # 2000; 1999 # 2000; 2000 # 2000]%Q, false).
Proof. vm_compute. reflexivity. Qed.

End Samples.

(* ===================================================================== *)
(** * Part III.  Further properties of the script                        *)
(* ===================================================================== *)

(** ** The counter: pace of the count, and its final text read again *)

Section CounterPace.
Import Num Counter CounterMore.
Context {R : Rounding}.
Open Scope Q_scope.

Ltac qlin2 :=
  unfold behind, steps, duration, stepTime, Qdiv, u, range_min, MAX_VALUE in *;
  cbn [value] in *;
  repeat match goal with
         | |- context [ / ?c ] =>
             let r := eval vm_compute in (/ c) in change (/ c) with r
         | H : context [ / ?c ] |- _ =>
             let r := eval vm_compute in (/ c) in change (/ c) with r in H
         end;
  lra.

(** One firing gains less than a 39.5th of the target, and does not
    clear the interval while a gain of that size stays below the
    target. *)
Lemma advance_slow (t : closure) (v : Q) :
  running t v ->
  value (fst (advance t)) <= value (current t) + v * (2 # 79) /\
  (value (current t) + v * (2 # 79) < v -> snd (advance t) = false).
Proof.
  intros ([Hv1 Hv2] & [Fn Hn] & [Fi [Hi1 Hi2]] & [Fc [Hc1 Hc2]]).
  unfold advance.
  rewrite (finite_value _ Fn), (finite_value _ Fi), (finite_value _ Fc) in *.
  set (n := value (numericValue t)) in *.
  set (i := value (increment t)) in *.
  set (c := value (current t)) in *.
  cbn [value] in *.
  assert (Hr : (1 - u) * (c + i) <= rnd (c + i) <= (1 + u) * (c + i)).
  { apply rnd_relative. qlin2. }
  destruct Hr as [_ Hr2].
  cbn [add].
  destruct (to_number_cases (c + i)) as [[-> _]|[-> Hover]]; cbn [geb].
  - destruct (Qle_bool n (rnd (c + i))) eqn:E; cbn [fst snd value].
    + apply Qle_bool_iff in E. split; [qlin2|]. intros H. exfalso. qlin2.
    + split; [qlin2 | reflexivity].
  - cbn [fst snd value]. split; [qlin2|]. intros H. exfalso. qlin2.
Qed.

Lemma behind_step (k : nat) (t : closure) (v : Q) :
  running t v -> behind (S k) t v ->
  snd (advance t) = false /\
  running (set_current t (fst (advance t))) v /\
  behind k (set_current t (fst (advance t))) v /\
  lt (Math_floor (fst (advance t))) (Finite v).
Proof.
  intros Hr Hb. destruct (advance_slow Hr) as [Hs Hn].
  destruct (advance_running Hr) as (Hfin & Hb1 & _ & Hf).
  assert (Hv1 : 1 <= v) by (destruct Hr as ([H _] & _); exact H).
  assert (Hk0 : 0 <= inject_Z (Z.of_nat k)).
  { change 0 with (inject_Z 0). rewrite <- Zle_Qle. lia. }
  assert (Hlt : value (current t) + v * (2 # 79) < v).
  { unfold behind in Hb. rewrite Nat2Z.inj_succ in Hb. unfold Z.succ in Hb.
    rewrite inject_Z_plus in Hb. change (inject_Z 1) with 1 in Hb.
    nra. }
  specialize (Hn Hlt). specialize (Hf Hn).
  split; [exact Hn|]. split; [|split].
  - apply running_next; assumption.
  - unfold behind in *. cbn [current set_current].
    rewrite Nat2Z.inj_succ in Hb. unfold Z.succ in Hb.
    rewrite inject_Z_plus in Hb. change (inject_Z 1) with 1 in Hb.
    set (a := inject_Z (Z.of_nat k)) in *. nra.
  - rewrite (finite_value _ Hfin). cbn [Math_floor lt].
    apply Qle_lt_trans with (value (fst (advance t)));
      [apply Qfloor_le | tauto].
Qed.

(** While [k] gains of that size stay below the target, [k] callbacks
    fire, none clears the interval, and each shows a number below the
    target. *)
Lemma shown_behind (k : nat) (txt : string) (t : closure) (v : Q) :
  running t v -> behind k t v ->
  let el := {| textContent := txt; timer := Some t |} in
  List.length (shown k el) = k /\
  Forall (fun x => lt x (Finite v)) (shown k el) /\
  exists txt' t', run k el = {| textContent := txt'; timer := Some t' |} /\
                  running t' v.
Proof.
  revert txt t. induction k as [|k IH]; intros txt t Hr Hb; cbn zeta.
  - cbn. repeat split; [constructor|]. exists txt, t. split; [reflexivity|exact Hr].
  - destruct (behind_step Hr Hb) as (Hs & Hr' & Hb' & Hlt).
    cbn [shown timer]. rewrite run_S, tick_timer, Hs.
    destruct (IH (displayValue t (fst (advance t))) _ Hr' Hb')
      as (I1 & I2 & I3).
    cbn [List.length]. rewrite I1. split; [reflexivity|].
    split; [constructor; assumption | exact I3].
Qed.

Lemma shown_plus (a b : nat) (el : element) :
  shown (a + b) el = (shown a el ++ shown b (run a el))%list.
Proof.
  revert el. induction a as [|a IH]; intros el; [reflexivity|].
  cbn [Nat.add shown]. destruct (timer el) eqn:E.
  - rewrite IH. reflexivity.
  - rewrite run_cleared by exact E. destruct b; cbn; rewrite ?E; reflexivity.
Qed.

Lemma installed_behind (text : string) (v : Q) :
  1 <= v -> behind 39 (installed text) v.
Proof.
  intros Hv. unfold behind. cbn [current installed value].
  change (inject_Z (Z.of_nat 39)) with 39. lra.
Qed.

Lemma behind_less (j k : nat) (t : closure) (v : Q) :
  1 <= v -> (j <= k)%nat -> behind k t v -> behind j t v.
Proof.
  intros Hv Hjk Hb. unfold behind in *.
  assert (inject_Z (Z.of_nat j) <= inject_Z (Z.of_nat k)).
  { rewrite <- Zle_Qle. lia. }
  nra.
Qed.

(** The closure installed for digits that write an integer from 1 to
    [2^53]. *)
Lemma installed_integer (text : string) :
  let z := Str.decimal (Str.digits text) in
  (1 <= z <= MAX_EXACT)%Z ->
  exists v, v == inject_Z z /\ 1 <= v /\
            running (installed text) v /\ within 41 (installed text) v.
Proof.
  intros z Hz.
  destruct (@parseInt_decimal_integer R z) as (q & Eq & Hq & _); [lia|].
  exists q. split; [exact Hq|].
  assert (H1 : 1 <= q).
  { rewrite Hq. change 1 with (inject_Z 1). rewrite <- Zle_Qle. lia. }
  split; [exact H1|].
  apply installed_running; [lia | exact Eq].
Qed.

End CounterPace.

Section CounterPaceClaims.
Import Num Counter CounterMore.
Open Scope string_scope.

(** X1.  A counter with a target of at least 1 never ends early: each of
    the first 39 callbacks fires, leaves the interval running and shows
    a number below the target; in all, 40 or 41 callbacks fire. *)
Theorem X1_counter_never_ends_early :
  forall (R : Rounding) (text : string) (target : Z),
    Str.parseInt (Str.strip_non_digits text) = Some target ->
    (1 <= target <= MAX_EXACT)%Z ->
    (forall k, (k <= 39)%nat ->
       firings k (animateValue text) = k /\
       timer (run k (animateValue text)) <> None /\
       Forall (fun x => lt x (integer target)) (shown k (animateValue text))) /\
    (forall k, (40 <= k)%nat ->
       (40 <= firings k (animateValue text) <= 41)%nat).
Proof.
  intros R text target Hp Ht.
  destruct (parsed_target _ Hp) as [Hd ->].
  destruct (@installed_integer R text Ht) as (v & Hv & Hv1 & Hr & _).
  pose proof (@installed_behind R text v Hv1) as Hb.
  split.
  - intros k Hk. rewrite (animateValue_digits _ Hd).
    assert (Hbk : behind k (installed text) v).
    { apply behind_less with (k := 39%nat); [exact Hv1 | exact Hk | exact Hb]. }
    destruct (shown_behind text Hr Hbk) as (H1 & H2 & txt' & t' & H3 & _).
    unfold firings. split; [exact H1|]. split.
    + rewrite H3. discriminate.
    + eapply Forall_impl; [|exact H2]. cbv beta.
      intros [x|]; cbn; [|tauto]. intros Hx. rewrite <- Hv. exact Hx.
  - intros k Hk. split.
    + rewrite (animateValue_digits _ Hd). unfold firings.
      destruct (shown_behind text Hr Hb) as (H1 & _ & txt' & t' & H3 & _).
      replace k with (39 + S (k - 40))%nat by lia.
      rewrite shown_plus, length_app, H1, H3. cbn [shown timer List.length]. lia.
    + unfold firings.
      destruct (shown_animateValue text k Hd) as (_ & _ & Hl).
      exact Hl.
Qed.

Lemma X1_counter_never_ends_early_witness :
  Str.parseInt (Str.strip_non_digits "24/7") = Some 247%Z /\
  (1 <= 247 <= MAX_EXACT)%Z /\
  @firings chopped 39 (@animateValue chopped "24/7") = 39%nat.
Proof.
  assert (Hp : Str.parseInt (Str.strip_non_digits "24/7") = Some 247%Z)
    by reflexivity.
  assert (Ht : (1 <= 247 <= MAX_EXACT)%Z) by (split; discriminate).
  split; [exact Hp|]. split; [exact Ht|].
  destruct (@X1_counter_never_ends_early chopped "24/7" 247%Z Hp Ht)
    as (Hearly & _).
  exact (proj1 (Hearly 39%nat (le_n 39))).
Defined.

End CounterPaceClaims.

(** *** The final text read again *)

Section FinalText.
Import Num Counter CounterMore.
Open Scope string_scope.

Lemma digits_of_uint_acc (d : Decimal.uint) (acc : positive) :
  Str.leading_digits (Zpos acc) (NilEmpty.string_of_uint d)
  = Zpos (Pos.of_uint_acc d acc).
Proof.
  revert acc.
  induction d; intros acc; cbn [NilEmpty.string_of_uint Pos.of_uint_acc];
    [reflexivity | ..];
    cbn [Str.leading_digits];
    match goal with
    | |- context [Str.is_digit ?c] => change (Str.is_digit c) with true
    end; cbn iota;
    match goal with
    | |- Str.leading_digits ?a _ = Zpos (Pos.of_uint_acc _ ?b) =>
        replace a with (Zpos b)
          by (match goal with
              | |- context [Str.digit_value ?c] =>
                  let v := eval vm_compute in (Str.digit_value c) in
                  change (Str.digit_value c) with v
              end; lia)
    end; apply IHd.
Qed.

Lemma digits_of_uint (d : Decimal.uint) :
  Str.leading_digits 0 (NilEmpty.string_of_uint d) = Z.of_N (Pos.of_uint d).
Proof.
  induction d; cbn [NilEmpty.string_of_uint Pos.of_uint];
    [reflexivity | exact IHd | ..];
    cbn [Str.leading_digits];
    match goal with
    | |- context [Str.is_digit ?c] => change (Str.is_digit c) with true
    end; cbn iota;
    match goal with
    | |- Str.leading_digits ?a _ = Z.of_N (Npos (Pos.of_uint_acc _ ?b)) =>
        change a with (Zpos b)
    end; apply digits_of_uint_acc.
Qed.

Lemma all_digits_of_uint (d : Decimal.uint) :
  all_digits (NilEmpty.string_of_uint d) = true.
Proof. induction d; cbn; auto. Qed.

Lemma of_Z_digits (v : Z) :
  (0 <= v)%Z ->
  all_digits (Str.of_Z v) = true /\
  Str.of_Z v <> "" /\
  Str.leading_digits 0 (Str.of_Z v) = v.
Proof.
  intros Hv. destruct v as [|p|p]; [repeat split; discriminate | | lia].
  unfold Str.of_Z. cbn [Z.to_int NilZero.string_of_int].
  pose proof (DecimalPos.Unsigned.of_to p) as Hp.
  pose proof (digits_of_uint (Pos.to_uint p)) as Hd.
  pose proof (all_digits_of_uint (Pos.to_uint p)) as Ha.
  rewrite Hp in Hd. cbn [Z.of_N] in Hd.
  unfold NilZero.string_of_uint.
  destruct (Pos.to_uint p) eqn:E; [discriminate Hp | ..];
    (split; [exact Ha | split; [discriminate | exact Hd]]).
Qed.

Lemma parseInt_all_digits (s : string) :
  all_digits s = true -> s <> "" ->
  Str.parseInt s = Some (Str.leading_digits 0 s).
Proof.
  destruct s as [|c s]; [congruence|]. cbn [all_digits Str.parseInt].
  intros H _. apply andb_true_iff in H. destruct H as [-> _]. reflexivity.
Qed.

Lemma strip_all_digits (s : string) :
  all_digits s = true -> Str.strip_non_digits s = s.
Proof.
  induction s as [|c s IH]; cbn; [reflexivity|].
  intros H. apply andb_true_iff in H. destruct H as [Hc Hs].
  rewrite Hc, (IH Hs). reflexivity.
Qed.

Lemma strip_app (a b : string) :
  Str.strip_non_digits (a ++ b)
  = Str.strip_non_digits a ++ Str.strip_non_digits b.
Proof.
  induction a as [|c a IH]; cbn; [reflexivity|].
  destruct (Str.is_digit c); cbn; rewrite IH; reflexivity.
Qed.

Lemma includes_char_app (c : ascii) (a b : string) :
  Str.includes (String c "") (a ++ b)
  = Str.includes (String c "") a || Str.includes (String c "") b.
Proof.
  induction a as [|x a IH].
  - cbn [append Str.includes String.prefix]. reflexivity.
  - cbn [append Str.includes String.prefix]. rewrite IH.
    destruct (ascii_dec c x); cbn.
    + destruct (a ++ b), a; reflexivity.
    + reflexivity.
Qed.

Lemma includes_char_digits (c : ascii) (s : string) :
  Str.is_digit c = false -> all_digits s = true ->
  Str.includes (String c "") s = false.
Proof.
  intros Hc. induction s as [|x s IH]; [reflexivity|].
  cbn [all_digits Str.includes String.prefix]. intros H.
  apply andb_true_iff in H. destruct H as [Hx Hs]. rewrite (IH Hs).
  destruct (ascii_dec c x); [congruence | reflexivity].
Qed.

Lemma prefix_empty (s : string) : String.prefix "" s = true.
Proof. destruct s; reflexivity. Qed.

(** The decorated digits of a non-negative number parse back to it and
    carry the decorations they were given, no other. *)
Lemma decorated_reads_back (text : string) (v : Z) :
  (0 <= v)%Z ->
  let final := decorated text v in
  Str.parseInt (Str.strip_non_digits final) = Some v /\
  Str.includes "+" final = Str.includes "+" text /\
  Str.includes "-" final = Str.includes "-" text /\
  Str.includes "%" final = Str.includes "%" text.
Proof.
  intros Hv final. subst final. unfold decorated.
  destruct (of_Z_digits Hv) as (Ha & Hne & Hd).
  set (D := Str.of_Z v) in *.
  assert (Hs : Str.strip_non_digits (D ++ "%") = D).
  { rewrite strip_app, (@strip_all_digits D Ha). apply append_empty. }
  assert (Hs0 : Str.strip_non_digits (D ++ "") = D).
  { rewrite append_empty. apply strip_all_digits, Ha. }
  assert (Hp : Str.parseInt D = Some v).
  { rewrite (@parseInt_all_digits D Ha Hne), Hd. reflexivity. }
  assert (Hi : forall c e, Str.is_digit c = false ->
                 Str.includes (String c "") (D ++ e)
                 = Str.includes (String c "") e).
  { intros c e Hc.
    rewrite includes_char_app, (@includes_char_digits c D Hc Ha).
    reflexivity. }
  destruct (Str.includes "+" text), (Str.includes "-" text),
    (Str.includes "%" text);
    cbn [append Str.strip_non_digits];
    repeat match goal with
           | |- context [Str.is_digit ?c] =>
               let b := eval vm_compute in (Str.is_digit c) in
               change (Str.is_digit c) with b; cbn iota
           end;
    rewrite ?Hs, ?Hs0, Hp;
    (split; [reflexivity|]);
    cbn [Str.includes String.prefix];
    repeat match goal with
           | |- context [ascii_dec ?a ?b] =>
               let r := eval vm_compute in
                 (if ascii_dec a b then true else false) in
               match r with
               | true => destruct (ascii_dec a b); [|congruence]
               | false => destruct (ascii_dec a b); [discriminate|]
               end
           end;
    rewrite ?prefix_empty, ?Hi by reflexivity;
    repeat split.
Qed.

(** X2.  For a counter whose digits write a target of at most [2^53],
    the text it shows when finished reads back as the same counter: it
    parses to the same target with the same three flags, so animating
    it again ends on that very text, as the first animation did. *)
Theorem X2_final_text_reads_back :
  forall (R : Rounding) (text : string) (target : Z),
    Str.parseInt (Str.strip_non_digits text) = Some target ->
    (target <= MAX_EXACT)%Z ->
    let final := decorated text target in
    Str.parseInt (Str.strip_non_digits final) = Some target /\
    Str.includes "+" final = Str.includes "+" text /\
    Str.includes "-" final = Str.includes "-" text /\
    Str.includes "%" final = Str.includes "%" text /\
    (forall k, (41 <= k)%nat ->
       run k (animateValue final) = {| textContent := final; timer := None |}) /\
    (forall k, (41 <= k)%nat ->
       run k (animateValue text) = {| textContent := final; timer := None |}).
Proof.
  intros R text target Hp Hmax final.
  destruct (parsed_target _ Hp) as [Hd0 Ht].
  assert (H0 : (0 <= target)%Z) by (rewrite Ht; apply decimal_digits_nonneg).
  destruct (decorated_reads_back text H0) as (Hq & Hplus & Hminus & Hpct).
  fold final in Hq, Hplus, Hminus, Hpct.
  split; [exact Hq|]. split; [exact Hplus|]. split; [exact Hminus|].
  split; [exact Hpct|]. split.
  - intros k Hk. destruct (parsed_target _ Hq) as [Hd Hv].
    assert (Hmax' : (Str.decimal (Str.digits final) <= MAX_EXACT)%Z)
      by (rewrite <- Hv; exact Hmax).
    rewrite (run_animateValue _ Hd Hmax' Hk), <- Hv. f_equal.
    unfold decorated at 1. rewrite Hplus, Hminus, Hpct. reflexivity.
  - intros k Hk.
    assert (Hmax0 : (Str.decimal (Str.digits text) <= MAX_EXACT)%Z)
      by (rewrite <- Ht; exact Hmax).
    rewrite (run_animateValue _ Hd0 Hmax0 Hk). unfold final.
    rewrite <- Ht. reflexivity.
Qed.

Lemma X2_final_text_reads_back_witness :
  Str.parseInt (Str.strip_non_digits "+1,500 %") = Some 1500%Z /\
  (1500 <= MAX_EXACT)%Z /\
  decorated "+1,500 %" 1500 = "+1500%" /\
  Str.parseInt (Str.strip_non_digits "+1500%") = Some 1500%Z.
Proof.
  assert (Hp : Str.parseInt (Str.strip_non_digits "+1,500 %") = Some 1500%Z)
    by reflexivity.
  assert (Hm : (1500 <= MAX_EXACT)%Z) by discriminate.
  split; [exact Hp|]. split; [exact Hm|]. split; [reflexivity|].
  exact (proj1 (@X2_final_text_reads_back exact "+1,500 %" 1500%Z Hp Hm)).
Defined.

End FinalText.

(** ** The menu, the anchors and the scroll listeners *)

Section NavFacts.
Import Page Nav.
Open Scope string_scope.

Lemma has_class_toggle (c a : string) (e : element) :
  has_class c (classList_toggle a e)
  = if String.eqb c a then negb (has_class a e) else has_class c e.
Proof.
  unfold has_class, classList_toggle. cbn [classList].
  destruct (String.eqb c a) eqn:E.
  - apply String.eqb_eq in E. subst c.
    destruct (existsb (String.eqb a) (classList e)) eqn:Ha; cbn [negb].
    + apply not_true_is_false. intros H. apply existsb_exists in H.
      destruct H as (x & Hx & Hax). apply filter_In in Hx.
      destruct Hx as [_ Hx]. rewrite Hax in Hx. discriminate.
    + rewrite existsb_app, Ha. cbn. rewrite String.eqb_refl. reflexivity.
  - destruct (existsb (String.eqb a) (classList e)).
    + induction (classList e) as [|x l IH]; cbn; [reflexivity|].
      destruct (String.eqb a x) eqn:Eax; cbn.
      * apply String.eqb_eq in Eax. subst x. rewrite E. exact IH.
      * rewrite IH. reflexivity.
    + rewrite existsb_app. cbn. rewrite E. rewrite !orb_false_r. reflexivity.
Qed.

Lemma has_class_remove (c a : string) (e : element) :
  has_class c (classList_remove a e)
  = if String.eqb c a then false else has_class c e.
Proof.
  unfold has_class, classList_remove. cbn [classList].
  induction (classList e) as [|x l IH]; cbn.
  - destruct (String.eqb c a); reflexivity.
  - destruct (String.eqb a x) eqn:Eax; cbn.
    + apply String.eqb_eq in Eax. subst x. rewrite IH.
      destruct (String.eqb c a); reflexivity.
    + rewrite IH. destruct (String.eqb c a) eqn:E; [|reflexivity].
      apply String.eqb_eq in E. subst c. rewrite Eax. reflexivity.
Qed.

(** X5.  A click on the menu toggle flips [active] on the menu and on
    the toggle and touches no other class, nor the header, nor the hero
    content; so the two stay in agreement, and a second click gives
    every class back its state. *)
Theorem X5_menu_toggle_flips_active :
  forall (p : page) (nav toggle : element),
    navMenu p = Some nav -> menuToggle p = Some toggle ->
    exists nav' toggle',
      menuToggle_click p = Normal (set_menu p toggle' nav') /\
      (forall c, has_class c nav'
                 = if String.eqb c "active" then negb (has_class c nav)
                   else has_class c nav) /\
      (forall c, has_class c toggle'
                 = if String.eqb c "active" then negb (has_class c toggle)
                   else has_class c toggle) /\
      (in_sync p -> in_sync (set_menu p toggle' nav')) /\
      exists nav'' toggle'',
        menuToggle_click (set_menu p toggle' nav')
        = Normal (set_menu p toggle'' nav'') /\
        (forall c, has_class c nav'' = has_class c nav) /\
        (forall c, has_class c toggle'' = has_class c toggle).
Proof.
  intros p nav toggle Hn Ht.
  exists (classList_toggle "active" nav), (classList_toggle "active" toggle).
  assert (F : forall c e, has_class c (classList_toggle "active" e)
                = if String.eqb c "active" then negb (has_class c e)
                  else has_class c e).
  { intros c e. rewrite has_class_toggle.
    destruct (String.eqb c "active") eqn:E; [|reflexivity].
    apply String.eqb_eq in E. subst c. reflexivity. }
  split; [unfold menuToggle_click; rewrite Hn, Ht; reflexivity|].
  split; [intros c; apply F|]. split; [intros c; apply F|]. split.
  - unfold in_sync. rewrite Hn, Ht. cbn [navMenu menuToggle set_menu].
    intros H. rewrite !F. cbn. rewrite H. reflexivity.
  - exists (classList_toggle "active" (classList_toggle "active" nav)),
      (classList_toggle "active" (classList_toggle "active" toggle)).
    split; [reflexivity|].
    split; intros c; rewrite !F;
      destruct (String.eqb c "active"); try reflexivity; apply negb_involutive.
Qed.

Lemma X5_menu_toggle_flips_active_witness :
  navMenu (set_menu hero_only plain plain) = Some plain /\
  menuToggle (set_menu hero_only plain plain) = Some plain /\
  exists nav' toggle',
    menuToggle_click (set_menu hero_only plain plain)
    = Normal (set_menu (set_menu hero_only plain plain) toggle' nav') /\
    has_class "active" nav' = true.
Proof.
  split; [reflexivity|]. split; [reflexivity|].
  destruct (@X5_menu_toggle_flips_active (set_menu hero_only plain plain)
              plain plain eq_refl eq_refl)
    as (nav' & toggle' & Hc & Hnav & _).
  exists nav', toggle'. split; [exact Hc|]. rewrite Hnav. reflexivity.
Defined.

(** X6.  A click on an internal anchor always prevents the default
    jump.  When the [href] is not a valid selector, as the lone "#" never
    is, [document.querySelector] throws and nothing else happens; when
    no element matches nothing else happens either.  With a target, the
    target is scrolled into view and, the menu and its toggle being
    there, the menu ends up without [active], no other class is touched,
    and a toggle that agreed with the menu ends up without [active] too.
    With a target but no menu element the listener throws after the
    scroll. *)
Theorem X6_anchor_click_closes_menu :
  forall (document : string -> selected) (href : string) (p : page),
    defaultPrevented (outcome (anchor_click document href p)) = true /\
    anchor_click document "#" p
    = Throw SyntaxError {| page_after := p; defaultPrevented := true;
                           scrolledIntoView := None |} /\
    (querySelector document href = Invalid ->
     anchor_click document href p
     = Throw SyntaxError {| page_after := p; defaultPrevented := true;
                            scrolledIntoView := None |}) /\
    (querySelector document href = Missing ->
     anchor_click document href p
     = Normal {| page_after := p; defaultPrevented := true;
                 scrolledIntoView := None |}) /\
    (forall t, querySelector document href = Found t -> navMenu p = None ->
       anchor_click document href p
       = Throw TypeError {| page_after := p; defaultPrevented := true;
                            scrolledIntoView := Some t |}) /\
    (forall t nav toggle,
       querySelector document href = Found t ->
       navMenu p = Some nav -> menuToggle p = Some toggle ->
       exists nav' toggle',
         anchor_click document href p
         = Normal {| page_after := set_menu p toggle' nav';
                     defaultPrevented := true;
                     scrolledIntoView := Some t |} /\
         has_class "active" nav' = false /\
         (forall c, c <> "active" ->
                    has_class c nav' = has_class c nav /\
                    has_class c toggle' = has_class c toggle) /\
         (in_sync p ->
          has_class "active" toggle' = false /\
          in_sync (set_menu p toggle' nav'))).
Proof.
  intros document href p. split; [|split; [|split; [|split; [|split]]]].
  - unfold anchor_click. destruct (querySelector document href);
      [reflexivity | reflexivity |].
    destruct (navMenu p); [|reflexivity].
    destruct (has_class "active" e); [|reflexivity].
    destruct (menuToggle p); reflexivity.
  - reflexivity.
  - intros H. unfold anchor_click. rewrite H. reflexivity.
  - intros H. unfold anchor_click. rewrite H. reflexivity.
  - intros t H Hn. unfold anchor_click. rewrite H, Hn. reflexivity.
  - intros t nav toggle H Hn Ht. unfold anchor_click. rewrite H, Hn, Ht.
    assert (Hne : forall c, c <> "active" -> String.eqb c "active" = false)
      by (intros c; apply String.eqb_neq).
    destruct (has_class "active" nav) eqn:Ha.
    + exists (classList_remove "active" nav), (classList_remove "active" toggle).
      split; [reflexivity|]. split; [rewrite has_class_remove; reflexivity|].
      split.
      * intros c Hc. rewrite !has_class_remove, (Hne c Hc). split; reflexivity.
      * intros _. split; [rewrite has_class_remove; reflexivity|].
        unfold in_sync. cbn [navMenu menuToggle set_menu].
        rewrite !has_class_remove. reflexivity.
    + exists nav, toggle. split.
      * f_equal. f_equal. destruct p. cbn in *. subst. reflexivity.
      * split; [exact Ha|]. split; [intros c _; split; reflexivity|].
        unfold in_sync. rewrite Hn, Ht. cbn [navMenu menuToggle set_menu].
        intros H'. split; [rewrite <- H'; exact Ha | exact H'].
Qed.

Lemma scroll_event_twice (p : page) (y y' : Q) :
  fst (scroll_event y (fst (scroll_event y' p))) = fst (scroll_event y p).
Proof.
  unfold scroll_event, run_listener, header_on_scroll, parallax_on_scroll.
  destruct p as [mt nm [h|] [hero|] f c]; cbn; reflexivity.
Qed.

Lemma scroll_all_last (offsets : list Q) (y : Q) (p : page) :
  scroll_all (offsets ++ [y]) p = fst (scroll_event y p).
Proof.
  unfold scroll_all. revert p.
  induction offsets as [|y' offsets IH]; intros p; cbn [app fold_left].
  - reflexivity.
  - rewrite IH. apply scroll_event_twice.
Qed.

(** X7.  After any sequence of scroll events the page is what the last
    event alone makes of it: the header, if any, has the flat colour
    above offset 100 and the gradient up to 100 included, the hero
    content, if any, has the translation and opacity of the last offset,
    and nothing else of the two elements has changed. *)
Theorem X7_scroll_keeps_no_history :
  forall (p : page) (offsets : list Q) (y : Q),
    let p' := scroll_all (offsets ++ [y]) p in
    p' = fst (scroll_event y p) /\
    (forall h, header p = Some h ->
       header p'
       = Some {| classList := classList h;
                 background :=
                   if Qlt_le_dec 100 y then Text "rgba(10, 10, 10, 0.98)"
                   else Text header_gradient;
                 transform := transform h;
                 opacity := opacity h |}) /\
    (forall hero, heroContent p = Some hero ->
       heroContent p'
       = Some {| classList := classList hero;
                 background := background hero;
                 transform := TranslateY_px (parallax_translateY y);
                 opacity := Number (parallax_opacity y) |}) /\
    (header p = None -> header p' = None) /\
    (heroContent p = None -> heroContent p' = None).
Proof.
  intros p offsets y p'. subst p'. rewrite scroll_all_last.
  split; [reflexivity|].
  unfold scroll_event, run_listener, header_on_scroll, parallax_on_scroll.
  destruct p as [mt nm [h|] [hero|] f c]; cbn;
    repeat split; intros; try discriminate; try congruence.
Qed.

End NavFacts.

(** ** The contact form: the record logged, and the form over time *)

Section FormRecord.
Import Form.
Open Scope string_scope.

(** X8.  The record built from the entries of the form has each name
    once, with the array indices first, in ascending order; a name has
    no value in it exactly when no entry bears it; every value in it is
    the value of an entry of that name, which comes from an enabled
    control of that name; and when the names of the entries are
    distinct and none is an array index the record is the entry list,
    in order. *)
Theorem X8_record_of_the_fields :
  forall fs : list field,
    let entries := FormData fs in
    let data := fromEntries entries in
    NoDup (map fst data) /\
    StronglySorted key_before (map fst data) /\
    (forall k, get_property k data = None <-> ~ In k (map fst entries)) /\
    (forall k v, get_property k data = Some v ->
                 In (k, v) entries /\
                 exists f, In f fs /\ disabled f = false /\ name f = k) /\
    (NoDup (map fst entries) ->
     Forall (fun kv => array_index (fst kv) = None) entries ->
     data = entries).
Proof.
  intros fs entries data. subst data. unfold fromEntries.
  destruct (fold_set_property entries []) as (H1 & H2 & H3 & H4).
  cbn zeta in *.
  split; [apply H1; constructor|]. split; [apply H2; constructor|].
  split; [|split].
  - intros k. rewrite H3. cbn [get_property].
    rewrite <- last_value_None.
    destruct (last_value k entries); intuition discriminate.
  - intros k v H. rewrite H3 in H. cbn [get_property] in H.
    destruct (last_value k entries) as [v'|] eqn:E; [|discriminate].
    injection H as ->. apply last_value_In in E. split; [exact E|].
    destruct (@FormData_from fs k v E) as (f & Hf & Hd & Hn & _). eauto.
  - intros Hn Hall. apply H4; assumption.
Qed.

(** A record whose keys are not in entry order: the array index comes
    first. *)
Example record_integer_key :
  fromEntries
    (FormData [ {| name := "b"; disabled := false; control := Input "x" "" |};
                {| name := "1"; disabled := false; control := Input "y" "" |} ])
  = [("1", Text "y"); ("b", Text "x")].
Proof. reflexivity. Qed.

End FormRecord.

Section FormOverTime.
Import Form FormLoop.
Open Scope string_scope.
Open Scope Z_scope.

Lemma run_snoc (evs : list event) (ev : event) (s : state) :
  run (evs ++ [ev]) s = step (run evs s) ev.
Proof. unfold run. rewrite fold_left_app. reflexivity. Qed.


(** X9.  On a form without a [.submit-button], whatever the sequence of
    submissions and delays, nothing is ever logged, reset or scheduled:
    every submission has its default prevented and then throws. *)
Theorem X9_form_without_submit_control :
  forall (s : state) (evs : list event),
    submitButton s = None -> timeouts s = [] ->
    let s' := run evs s in
    fields s' = fields s /\
    console s' = console s /\
    timeouts s' = [] /\
    submitButton s' = None /\
    exists thrown, submit_event s' = Throw thrown /\
                   defaultPrevented thrown = true /\
                   fields thrown = fields s /\
                   console thrown = console s.
Proof.
  intros s evs Hb Ht. cbn zeta.
  assert (H : fields (run evs s) = fields s /\ console (run evs s) = console s /\
              timeouts (run evs s) = [] /\ submitButton (run evs s) = None).
  { induction evs as [|ev evs IH] using rev_ind; [repeat split; assumption|].
    rewrite run_snoc. destruct IH as (I1 & I2 & I3 & I4).
    destruct ev as [|dt]; cbn [step].
    - unfold submit_event, on_submit. cbn [submitButton]. rewrite I4.
      cbn. repeat split; assumption.
    - unfold elapse. rewrite I3, I4. cbn. repeat split; assumption. }
  destruct H as (I1 & I2 & I3 & I4).
  repeat split; try assumption.
  unfold submit_event, on_submit. cbn [submitButton]. rewrite I4.
  eexists. split; [reflexivity|]. cbn. repeat split; assumption.
Qed.

Lemma X9_form_without_submit_control_witness :
  submitButton (after (on_submit
    {| now := 0; fields := fields sample; submitButton := None;
       defaultPrevented := false; timeouts := []; console := [] |})) = None /\
  console (run [Submit; Elapse 5000; Submit]
             {| now := 0; fields := fields sample; submitButton := None;
                defaultPrevented := false; timeouts := []; console := [] |})
  = [].
Proof.
  split; [reflexivity|].
  exact (proj1 (proj2 (@X9_form_without_submit_control
    {| now := 0; fields := fields sample; submitButton := None;
       defaultPrevented := false; timeouts := []; console := [] |}
    [Submit; Elapse 5000; Submit] eq_refl eq_refl))).
Defined.










End FormOverTime.

(** ** The chart: what each frame adds, odd clocks *)

Section ChartLists.
Import Chart.
Open Scope Q_scope.

Lemma mapi_from_app {A B} (f : A -> nat -> B) (l1 l2 : list A) (i : nat) :
  mapi_from i f (l1 ++ l2)
  = (mapi_from i f l1 ++ mapi_from (i + List.length l1) f l2)%list.
Proof.
  revert i. induction l1 as [|a l1 IH]; intros i; cbn.
  - rewrite Nat.add_0_r. reflexivity.
  - rewrite IH. replace (S i + List.length l1)%nat
      with (i + S (List.length l1))%nat by lia. reflexivity.
Qed.

Lemma slice0_firstn {A} (stop : Z) (l : list A) :
  exists n, (n <= List.length l)%nat /\ slice0 stop l = firstn n l /\
            ((0 <= stop)%Z -> n = Z.to_nat (Z.min stop (Z.of_nat (List.length l)))).
Proof.
  unfold slice0. destruct (stop <? 0)%Z eqn:E.
  - exists (Z.to_nat (Z.max (Z.of_nat (List.length l) + stop) 0)).
    apply Z.ltb_lt in E. repeat split; lia.
  - exists (Z.to_nat (Z.min stop (Z.of_nat (List.length l)))).
    repeat split; lia.
Qed.

End ChartLists.

Section ChartFrames.
Import Chart.
Open Scope Q_scope.
Variables width height : Q.

Lemma floor_is (x : Q) (z : Z) :
  inject_Z z <= x -> x < inject_Z (z + 1) -> Qfloor x = z.
Proof.
  intros H1 H2.
  assert (z <= Qfloor x)%Z.
  { rewrite <- (Qfloor_Z z). apply Qfloor_resp_le, H1. }
  assert (Qfloor x < z + 1)%Z.
  { rewrite Zlt_Qlt. apply Qle_lt_trans with x; [apply Qfloor_le | exact H2]. }
  lia.
Qed.

Lemma firstn_plus {A} (a k : nat) (l : list A) :
  firstn (a + k) l = (firstn a l ++ firstn k (skipn a l))%list.
Proof.
  revert l. induction a as [|a IH]; intros [|x l]; cbn; try reflexivity.
  - destruct k; reflexivity.
  - rewrite IH. reflexivity.
Qed.

(** X13.  Frames are cumulative: for progress [p <= q], [p] not
    negative, the points of the frame at [q] are the points of the frame
    at [p], unmoved, followed by the new ones. *)
Theorem X13_frames_are_cumulative :
  forall p q : Q,
    0 <= p -> p <= q ->
    exists added,
      points width height q = (points width height p ++ added)%list.
Proof.
  intros p q Hp Hpq. unfold points, mapi.
  destruct (slice0_firstn (Qfloor (length_Q data * p)) data)
    as (a & _ & -> & Ha).
  destruct (slice0_firstn (Qfloor (length_Q data * q)) data)
    as (b & _ & -> & Hb).
  change (length_Q data) with 12 in *.
  assert (H0 : (0 <= Qfloor (12 * p))%Z).
  { change 0%Z with (Qfloor 0). apply Qfloor_resp_le. lra. }
  assert (H1 : (Qfloor (12 * p) <= Qfloor (12 * q))%Z).
  { apply Qfloor_resp_le. lra. }
  assert (Hab : (a <= b)%nat) by (rewrite Ha, Hb; lia).
  replace b with (a + (b - a))%nat by lia.
  rewrite firstn_plus, mapi_from_app. eexists. reflexivity.
Qed.

(** X14.  When the clock reads less than the start time, the progress is
    negative, another frame is requested, and the end of the slice is
    counted from the end of the data: the frame plots 12 plus the
    (negative) floor of 12 times the progress points, that is 11 of the
    12 points for a clock up to 166 ms behind. *)
Theorem X14_clock_behind_start :
  forall startTime currentTime : Z,
    (currentTime < startTime)%Z ->
    let p := progress_at startTime currentTime in
    p < 0 /\
    again p = true /\
    List.length (points width height p)
    = Z.to_nat (Z.max (12 + Qfloor (12 * p)) 0) /\
    ((startTime - 166 <= currentTime)%Z ->
     List.length (points width height p) = 11%nat).
Proof.
  intros startTime currentTime Hlt p.
  assert (Hd : inject_Z (currentTime - startTime) <= -1).
  { change (-1) with (inject_Z (-1)). rewrite <- Zle_Qle. lia. }
  assert (Hp : p == inject_Z (currentTime - startTime) * (1 # 2000)).
  { subst p. unfold progress_at, Math_min, animationDuration, Qdiv.
    change (/ 2000) with (1 # 2000). apply Q.min_l. lra. }
  assert (Hneg : p < 0) by lra.
  assert (Hlen : List.length (points width height p)
                 = Z.to_nat (Z.max (12 + Qfloor (12 * p)) 0)).
  { unfold points, mapi. rewrite mapi_from_length. unfold slice0.
    change (length_Q data) with 12. change (List.length data) with 12%nat.
    assert (Hf : (Qfloor (12 * p) < 0)%Z).
    { rewrite Zlt_Qlt. apply Qle_lt_trans with (12 * p); [apply Qfloor_le|].
      change (inject_Z 0) with 0. lra. }
    replace (Qfloor (12 * p) <? 0)%Z with true
      by (symmetry; apply Z.ltb_lt; exact Hf).
    rewrite length_firstn. change (List.length data) with 12%nat. lia. }
  split; [exact Hneg|]. split; [|split; [exact Hlen|]].
  - unfold again. destruct (Qlt_le_dec p 1); [reflexivity | lra].
  - intros Hnear. rewrite Hlen.
    assert (Hn : -166 <= inject_Z (currentTime - startTime)).
    { change (-166) with (inject_Z (-166)). rewrite <- Zle_Qle. lia. }
    rewrite (@floor_is (12 * p) (-1)); [reflexivity | |].
    + change (inject_Z (-1)) with (-1). lra.
    + change (inject_Z (-1 + 1)) with 0. lra.
Qed.

End ChartFrames.

Lemma X13_frames_are_cumulative_witness :
  0 <= 1 # 4 /\ 1 # 4 <= 1 # 2 /\
  exists added,
    Chart.points 600 200 (1 # 2)
    = (Chart.points 600 200 (1 # 4) ++ added)%list.
Proof.
  assert (H0 : 0 <= 1 # 4) by discriminate.
  assert (H1 : 1 # 4 <= 1 # 2) by discriminate.
  split; [exact H0|]. split; [exact H1|].
  exact (@X13_frames_are_cumulative 600 200 (1 # 4) (1 # 2) H0 H1).
Defined.

Lemma X14_clock_behind_start_witness :
  (999 < 1000)%Z /\
  List.length (Chart.points 600 200 (Chart.progress_at 1000 999)) = 11%nat.
Proof.
  assert (H : (999 < 1000)%Z) by reflexivity.
  split; [exact H|].
  apply (proj2 (proj2 (proj2 (@X14_clock_behind_start 600 200 1000 999 H)))).
  discriminate.
Defined.

Section ChartLoopEnd.
Import Chart.
Open Scope Q_scope.

Lemma again_spec (p : Q) : again p = true <-> p < 1.
Proof.
  unfold again. destruct (Qlt_le_dec p 1); split; intros H;
    try reflexivity; try assumption; try discriminate; lra.
Qed.

Lemma progress_at_most_1 (startTime currentTime : Z) :
  progress_at startTime currentTime <= 1.
Proof. unfold progress_at, Math_min. apply Q.le_min_r. Qed.

Lemma full_progress_points (width height p : Q) :
  p == 1 -> List.length (points width height p) = 12%nat.
Proof.
  intros H. unfold points, mapi. rewrite mapi_from_length.
  rewrite (Qfloor_comp _ 12) by (change (length_Q data) with 12; rewrite H; reflexivity).
  reflexivity.
Qed.

(** X15.  No frame is drawn at a progress above 1.  The loop stops only
    on a frame at progress 1, which plots all 12 points, after frames
    all below 1; and as long as it has not stopped, it has drawn one
    frame per clock reading, each below 1. *)
Theorem X15_loop_stops_on_the_full_chart :
  forall (startTime : Z) (clock : list Z),
    let frames := fst (animate startTime clock) in
    Forall (fun p => p <= 1) frames /\
    (snd (animate startTime clock) = false ->
     exists earlier final,
       frames = (earlier ++ [final])%list /\
       Forall (fun p => p < 1) earlier /\
       final == 1 /\
       forall width height, List.length (points width height final) = 12%nat) /\
    (snd (animate startTime clock) = true ->
     Forall (fun p => p < 1) frames /\
     List.length frames = List.length clock).
Proof.
  intros startTime clock. cbn zeta.
  induction clock as [|c clock (IH1 & IH2 & IH3)]; cbn [animate].
  - cbn. repeat split; try constructor. discriminate.
  - pose proof (progress_at_most_1 startTime c) as Hle.
    destruct (again (progress_at startTime c)) eqn:E.
    + apply again_spec in E.
      destruct (animate startTime clock) as [ps pending]. cbn [fst snd] in *.
      split; [constructor; assumption|]. split.
      * intros Hp. destruct (IH2 Hp) as (earlier & final & -> & He & Hf & Hpts).
        exists (progress_at startTime c :: earlier), final.
        repeat split; try assumption. constructor; assumption.
      * intros Hp. destruct (IH3 Hp) as [Ha Hb]. split.
        -- constructor; assumption.
        -- cbn. rewrite Hb. reflexivity.
    + cbn [fst snd]. split; [repeat constructor; exact Hle|]. split.
      * intros _. exists [], (progress_at startTime c).
        assert (Hone : progress_at startTime c == 1).
        { apply Qle_antisym; [exact Hle|].
          apply Qnot_lt_le. intros H. apply again_spec in H. congruence. }
        repeat split; [constructor | exact Hone |].
        intros width height. apply full_progress_points, Hone.
      * discriminate.
Qed.

End ChartLoopEnd.

(** ** The cards *)

Section CardFacts.
Import Cards.
Open Scope string_scope.

Lemma revealed_add (l : list string) :
  existsb (String.eqb "animate-in") (Observer.classList_add "animate-in" l)
  = true.
Proof.
  unfold Observer.classList_add.
  destruct (existsb (String.eqb "animate-in") l) eqn:E; [exact E|].
  rewrite existsb_app, E. reflexivity.
Qed.

Lemma run_card (hover : bool) (evs : list event) (c : card) :
  let c' := run hover evs c in
  opacity c' = opacity c /\
  transition c' = transition c /\
  transform c'
  = (if hover then last_hover evs (transform c) else transform c) /\
  revealed c' = revealed c || existsb is_reveal evs.
Proof.
  unfold run. revert c.
  induction evs as [|ev evs IH]; intros c; cbn [fold_left].
  - cbn. rewrite orb_false_r. destruct hover; repeat split.
  - destruct (IH (step hover c ev)) as (I1 & I2 & I3 & I4).
    cbn zeta in *. rewrite I1, I2, I3, I4.
    destruct ev, hover; cbn; repeat split;
      unfold revealed; cbn [classList reveal];
      rewrite ?revealed_add, ?orb_true_r; reflexivity.
Qed.

(** X16.  Whatever mouse events and reveal follow the preparation of a
    card, its inline opacity stays "0" and its inline transform is what
    the last mouse event left (the 50px offset if there was none, and
    always for a card without mouse listeners).  By the inline style and
    the injected rule together, the card is opaque and at rest exactly
    once it is revealed, hovered or not. *)
Theorem X16_card_shown_by_the_rule_only :
  forall (hover : bool) (evs : list event) (c : card),
    revealed c = false ->
    let c' := run hover evs (prepare c) in
    opacity c' = "0" /\
    transform c'
    = (if hover then last_hover evs "translateY(50px)"
       else "translateY(50px)") /\
    (existsb is_reveal evs = true ->
     styled_opacity c' = "1" /\ styled_transform c' = "translateY(0)") /\
    (existsb is_reveal evs = false ->
     styled_opacity c' = "0" /\ styled_transform c' = transform c').
Proof.
  intros hover evs c Hc. cbn zeta.
  destruct (run_card hover evs (prepare c)) as (H1 & _ & H3 & H4).
  cbn [opacity transform prepare] in *.
  assert (Hr : revealed (prepare c) = false) by exact Hc.
  rewrite Hr in H4. cbn [orb] in H4.
  split; [exact H1|]. split; [exact H3|].
  unfold styled_opacity, styled_transform. rewrite H4, H1.
  split; intros ->; split; reflexivity.
Qed.

Lemma X16_card_shown_by_the_rule_only_witness :
  revealed {| classList := ["solution-card"]; opacity := "";
              transform := ""; transition := "" |} = false /\
  transform (run true [MouseEnter; MouseLeave; Reveal]
               (prepare {| classList := ["solution-card"]; opacity := "";
                           transform := ""; transition := "" |}))
  = "translateY(0)".
Proof.
  split; [reflexivity|].
  exact (proj1 (proj2 (@X16_card_shown_by_the_rule_only true
    [MouseEnter; MouseLeave; Reveal]
    {| classList := ["solution-card"]; opacity := "";
       transform := ""; transition := "" |} eq_refl))).
Defined.

End CardFacts.

(** ** The chat bubbles over time *)

Section BubbleFacts.
Import Observer Bubbles.
Open Scope Z_scope.

Lemma later_refl (o : observer world) : later o o.
Proof.
  unfold later. repeat split; try reflexivity; try apply incl_refl.
  - intros d x H. left. exact H.
  - intros x H. left. exact H.
Qed.

Lemma later_trans (a b c : observer world) :
  later a b -> later b c -> later a c.
Proof.
  intros (A1 & A2 & A3 & A4 & A5 & A6) (B1 & B2 & B3 & B4 & B5 & B6).
  unfold later. rewrite B1, B2, A1, A2 in *.
  repeat split; try reflexivity.
  - eapply incl_tran; eassumption.
  - eapply incl_tran; eassumption.
  - intros d x H. destruct (B5 d x H) as [H'|[-> H']].
    + destruct (A5 d x H') as [H''|[-> H'']].
      * left. exact H''.
      * right. split; [reflexivity | apply B4, H''].
    + right. split; [reflexivity | exact H'].
  - intros x H. destruct (B6 x H) as [H'|H'].
    + destruct (A6 x H') as [H''|H''].
      * left. exact H''.
      * right. apply B3, H''.
    + right. exact H'.
Qed.

Lemma later_on_entry (o : observer world) (en : entry) :
  later o (on_entry action o en).
Proof.
  unfold on_entry. destruct (isIntersecting en); [|apply later_refl].
  unfold later, unobserve, action. cbn.
  repeat split; try reflexivity.
  - intros x H. apply in_or_app. left. exact H.
  - intros x H. right. exact H.
  - intros d x H. apply in_app_or in H. destruct H as [H|[H|[]]].
    + left. exact H.
    + inversion H; subst. right. split; [reflexivity | left; reflexivity].
  - intros x [<-|H].
    + right. apply in_or_app. right. left. reflexivity.
    + left. exact H.
Qed.

Lemma later_notify (o : observer world)
      (updates : list (node -> option bool)) :
  later o (notify action o updates).
Proof.
  unfold notify, callback.
  generalize (flat_map (fun change => queued change o) updates) as entries.
  intros entries.
  assert (H : forall o', later o o' ->
                         later o (fold_left (on_entry action) entries o')).
  { induction entries as [|en entries IH]; intros o' Ho'; cbn; [exact Ho'|].
    apply IH. eapply later_trans; [exact Ho' | apply later_on_entry]. }
  apply H, later_refl.
Qed.

(** The styles after the timeouts due by [t] have run. *)
Lemma fold_show (t : Z) (l : list (Z * node)) (st : node -> style)
      (x : node) :
  fold_left (fun st to => if due t to then show (snd to) st else st) l st x
  = if existsb (fun to => due t to && Nat.eqb x (snd to)) l
    then shown_style (st x) else st x.
Proof.
  revert st. induction l as [|to l IH]; intros st; cbn [fold_left existsb];
    [reflexivity|].
  rewrite IH. destruct (due t to); cbn [andb orb]; [|reflexivity].
  unfold show, set_style. destruct (Nat.eqb x (snd to)) eqn:E; cbn [orb].
  - apply Nat.eqb_eq in E. subst x.
    destruct (existsb _ l); reflexivity.
  - reflexivity.
Qed.

Lemma existsb_due (t : Z) (l : list (Z * node)) (x : node) :
  existsb (fun to => due t to && Nat.eqb x (snd to)) l = true <->
  exists d, In (d, x) l /\ d <= t.
Proof.
  rewrite existsb_exists. split.
  - intros ([d y] & Hin & H). apply andb_true_iff in H. destruct H as [H1 H2].
    cbn in H2. apply Nat.eqb_eq in H2. subst y.
    unfold due in H1. cbn in H1. apply Z.leb_le in H1.
    exists d. split; assumption.
  - intros (d & Hin & Hd). exists (d, x). split; [exact Hin|].
    unfold due. cbn. rewrite Nat.eqb_refl, andb_true_r.
    apply Z.leb_le. exact Hd.
Qed.

Lemma run_snoc_event (evs : list event) (ev : event) (o : observer world) :
  run (evs ++ [ev]) o = step (run evs o) ev.
Proof. unfold run. rewrite fold_left_app. reflexivity. Qed.

Lemma run_app_events (evs more : list event) (o : observer world) :
  run (evs ++ more) o = run more (run evs o).
Proof. unfold run. apply fold_left_app. Qed.

Lemma elapsed_app (a b : list event) :
  elapsed (a ++ b) = elapsed a + elapsed b.
Proof.
  induction a as [|[c|dt] a IH]; cbn [app elapsed]; lia.
Qed.

Lemma elapsed_forward (evs : list event) :
  Forall forward evs -> 0 <= elapsed evs.
Proof.
  induction 1 as [|ev evs Hev _ IH]; cbn [elapsed]; [lia|].
  destruct ev as [c|dt]; cbn in Hev; lia.
Qed.

Lemma prepare_all (found : list node) (o : observer world) :
  let o' := fold_left (fun o e => prepare e o) found o in
  now (state o') = now (state o) /\
  timeouts (state o') = timeouts (state o) /\
  trace o' = trace o /\
  forall x, styles (state o') x
            = if existsb (Nat.eqb x) found then hidden
              else styles (state o) x.
Proof.
  revert o. induction found as [|e found IH]; intros o; cbn [fold_left].
  - cbn. repeat split.
  - destruct (IH (prepare e o)) as (I1 & I2 & I3 & I4). cbn zeta in *.
    rewrite I1, I2, I3.
    assert (P : now (state (prepare e o)) = now (state o) /\
                timeouts (state (prepare e o)) = timeouts (state o) /\
                trace (prepare e o) = trace o /\
                styles (state (prepare e o))
                = set_style e hidden (styles (state o))).
    { unfold prepare, observe. cbn.
      destruct (existsb (Nat.eqb e) (observationTargets o));
        cbn; repeat split. }
    destruct P as (P1 & P2 & P3 & P4).
    repeat split; try assumption.
    intros x. rewrite I4, P4. cbn [existsb]. unfold set_style.
    destruct (Nat.eqb x e), (existsb (Nat.eqb x) found); reflexivity.
Qed.

Lemma start_spec (found : list node) (st0 : node -> style) :
  let o := start found st0 in
  now (state o) = 0 /\
  timeouts (state o) = [] /\
  trace o = [] /\
  forall x, In x found -> styles (state o) x = hidden.
Proof.
  unfold start.
  destruct (prepare_all found
              (create {| now := 0; styles := st0; timeouts := [] |}))
    as (H1 & H2 & H3 & H4).
  cbn zeta in *. repeat split; try assumption.
  intros x Hx. rewrite H4.
  assert (E : existsb (Nat.eqb x) found = true).
  { apply existsb_exists. exists x. split; [exact Hx | apply Nat.eqb_refl]. }
  rewrite E. reflexivity.
Qed.

(** The invariant of the page. *)
Lemma run_sound (found : list node) (st0 : node -> style)
      (evs : list event) :
  Forall forward evs -> sound found st0 evs.
Proof.
  induction evs as [|ev evs IH] using rev_ind; intros Hf.
  - unfold sound. cbn [run fold_left elapsed].
    destruct (start_spec found st0) as (S1 & S2 & S3 & S4). cbn zeta in *.
    split; [exact S1|]. split.
    + intros d x H. rewrite S2 in H. destruct H.
    + intros x Hx. left. split; [apply S4, Hx|].
      rewrite S3. intros [].
  - apply Forall_app in Hf. destruct Hf as [Hf Hev].
    inversion Hev as [|? ? Hev' _]; subst.
    specialize (IH Hf). unfold sound in *. cbn zeta in *.
    rewrite run_snoc_event, elapsed_app.
    set (o := run evs (start found st0)) in *.
    destruct IH as (A & B & C).
    destruct ev as [c|dt]; cbn [step].
    + (* a notification *)
      destruct (later_notify o c) as (L1 & L2 & L3 & L4 & L5 & L6).
      rewrite L1, L2. cbn [elapsed]. split; [lia|]. split.
      * intros d x H. destruct (L5 d x H) as [H'|[-> H']].
        -- destruct (B d x H') as (B1 & pre & post & E & Hin & Hd).
           split; [exact B1|].
           exists pre, (post ++ [Notify c])%list.
           rewrite app_assoc, E. repeat split; assumption.
        -- split; [lia|].
           exists (evs ++ [Notify c])%list, [].
           rewrite app_nil_r, run_snoc_event, elapsed_app.
           cbn [elapsed step]. fold o.
           repeat split; [exact H' | lia].
      * intros x Hx. destruct (C x Hx) as [[C1 C2]|[C1 C2]].
        -- left. split; [exact C1|]. intros Hin.
           destruct (L6 x Hin) as [H'|H'].
           ++ destruct (C2 H') as (d & Hd). exists d. apply L3, Hd.
           ++ eexists. exact H'.
        -- right. split; [exact C1|].
           destruct C2 as (pre & post & E & Hin & Hd).
           exists pre, (post ++ [Notify c])%list.
           rewrite app_assoc, E, elapsed_app. cbn [elapsed].
           repeat split; [exact Hin | lia].
    + (* time passes *)
      cbn in Hev'. cbn [state trace elapse now styles timeouts elapsed].
      split; [lia|]. split.
      * intros d x H. apply filter_In in H. destruct H as [H Hd].
        unfold due in Hd. cbn in Hd. apply negb_true_iff, Z.leb_gt in Hd.
        destruct (B d x H) as (B1 & pre & post & E & Hin & Hd').
        split; [exact Hd|].
        exists pre, (post ++ [Elapse dt])%list.
        rewrite app_assoc, E. repeat split; assumption.
      * intros x Hx. rewrite fold_show.
        destruct (existsb (fun to => due (now (state o) + dt) to
                                     && Nat.eqb x (snd to))
                          (timeouts (state o))) eqn:Ex.
        -- right.
           apply existsb_due in Ex. destruct Ex as (d & Hin & Hd).
           destruct (B d x Hin) as (_ & pre & post & E & Hin' & Hd').
           split.
           ++ destruct (C x Hx) as [[C1 _]|[C1 _]]; rewrite C1; reflexivity.
           ++ exists pre, (post ++ [Elapse dt])%list.
              rewrite app_assoc, E, elapsed_app. cbn [elapsed].
              split; [reflexivity|]. split; [exact Hin'|].
              rewrite E, elapsed_app in A. lia.
        -- destruct (C x Hx) as [[C1 C2]|[C1 C2]].
           ++ left. split; [exact C1|]. intros Hin.
              destruct (C2 Hin) as (d & Hd). exists d.
              apply filter_In. split; [exact Hd|].
              unfold due. cbn. apply negb_true_iff, Z.leb_gt.
              destruct (Z.le_gt_cases d (now (state o) + dt)) as [Hle|Hgt];
                [|exact Hgt].
              assert (Ex' : existsb (fun to => due (now (state o) + dt) to
                                               && Nat.eqb x (snd to))
                                    (timeouts (state o)) = true).
              { apply existsb_due. exists d. split; assumption. }
              rewrite Ex in Ex'. discriminate.
           ++ right. split; [exact C1|].
              destruct C2 as (pre & post & E & Hin & Hd).
              exists pre, (post ++ [Elapse dt])%list.
              rewrite app_assoc, E, elapsed_app. cbn [elapsed].
              repeat split; [exact Hin | lia].
Qed.

Lemma awaited_step (e : node) (D : Z) (o : observer world) (ev : event) :
  awaited e D o -> awaited e D (step o ev).
Proof.
  unfold awaited. intros H. destruct ev as [c|dt]; cbn [step].
  - destruct (later_notify o c) as (_ & L2 & L3 & _).
    rewrite L2. destruct H as [H|(H & d & Hin & Hd)].
    + left. exact H.
    + right. split; [exact H|]. exists d. split; [apply L3, Hin | exact Hd].
  - cbn [state elapse styles timeouts]. rewrite fold_show.
    destruct (existsb (fun to => due (now (state o) + dt) to
                                 && Nat.eqb e (snd to))
                      (timeouts (state o))) eqn:Ex.
    + left. destruct H as [H|(H & _)]; rewrite H; reflexivity.
    + destruct H as [H|(H & d & Hin & Hd)].
      * left. exact H.
      * right. split; [exact H|]. exists d. split; [|exact Hd].
        apply filter_In. split; [exact Hin|].
        unfold due. cbn. apply negb_true_iff, Z.leb_gt.
        destruct (Z.le_gt_cases d (now (state o) + dt)) as [Hle|Hgt];
          [|exact Hgt].
        assert (Ex' : existsb (fun to => due (now (state o) + dt) to
                                         && Nat.eqb e (snd to))
                              (timeouts (state o)) = true).
        { apply existsb_due. exists d. split; assumption. }
        rewrite Ex in Ex'. discriminate.
Qed.

Lemma awaited_run (e : node) (D : Z) (evs : list event)
      (o : observer world) :
  awaited e D o -> awaited e D (run evs o).
Proof.
  unfold run. revert o.
  induction evs as [|ev evs IH]; intros o H; cbn [fold_left]; [exact H|].
  apply IH, awaited_step, H.
Qed.

(** X17.  Whatever notifications and delays follow the page load, a
    chat bubble carries either the hidden style the script gave it or
    the shown one; and when it is shown, the observer's action ran on it
    at some point of the history after which at least 300 ms passed. *)
Theorem X17_bubble_not_shown_early :
  forall (found : list node) (st0 : node -> style) (evs : list event)
         (e : node),
    In e found ->
    Forall forward evs ->
    let o := run evs (start found st0) in
    (styles (state o) e = hidden \/ styles (state o) e = visible) /\
    (styles (state o) e = visible ->
     exists pre post,
       evs = (pre ++ post)%list /\
       runs_on e (run pre (start found st0)) <> 0%nat /\
       300 <= elapsed post).
Proof.
  intros found st0 evs e He Hf. cbn zeta.
  destruct (run_sound found st0 Hf) as (_ & _ & C). cbn zeta in C.
  destruct (C e He) as [[C1 _]|[C1 C2]].
  - split; [left; exact C1|]. rewrite C1. discriminate.
  - split; [right; exact C1|]. intros _.
    destruct C2 as (pre & post & E & Hin & Hd).
    exists pre, post. repeat split; [exact E | | exact Hd].
    unfold runs_on. intros H0.
    apply (count_occ_not_In Nat.eq_dec) in H0. exact (H0 Hin).
Qed.

(** X18.  Once the observer's action has run on a chat bubble, the
    bubble has the shown style from 300 ms later on, whatever happens in
    between and afterwards. *)
Theorem X18_bubble_shown_after_300ms :
  forall (found : list node) (st0 : node -> style)
         (evs more : list event) (e : node),
    In e found ->
    Forall forward evs ->
    Forall forward more ->
    runs_on e (run evs (start found st0)) <> 0%nat ->
    300 <= elapsed more ->
    styles (state (run (evs ++ more) (start found st0))) e = visible.
Proof.
  intros found st0 evs more e He Hf Hm Hrun Hlong.
  assert (Hin : In e (trace (run evs (start found st0)))).
  { destruct (in_dec Nat.eq_dec e (trace (run evs (start found st0))))
      as [H|H]; [exact H|].
    apply (count_occ_not_In Nat.eq_dec) in H. contradiction. }
  destruct (run_sound found st0 Hf) as (A & B & C). cbn zeta in *.
  assert (Hw : awaited e (elapsed evs + 300) (run evs (start found st0))).
  { destruct (C e He) as [[C1 C2]|[C1 _]].
    - right. split; [exact C1|].
      destruct (C2 Hin) as (d & Hd). exists d. split; [exact Hd|].
      destruct (B d e Hd) as (_ & pre & post & E & _ & Hd').
      assert (Hp : Forall forward post).
      { rewrite E in Hf. apply Forall_app in Hf. apply Hf. }
      apply elapsed_forward in Hp.
      rewrite E, elapsed_app. lia.
    - left. exact C1. }
  apply (awaited_run more) in Hw. rewrite <- run_app_events in Hw.
  destruct Hw as [Hw|(_ & d & Hd & Hle)]; [exact Hw|].
  assert (Hall : Forall forward (evs ++ more)).
  { apply Forall_app. split; assumption. }
  destruct (run_sound found st0 Hall) as (A' & B' & _). cbn zeta in *.
  destruct (B' d e Hd) as (Hlt & _).
  rewrite A', elapsed_app in Hlt. lia.
Qed.

End BubbleFacts.

Lemma X17_bubble_not_shown_early_witness :
  In 0%nat [0%nat; 1%nat] /\
  Forall Bubbles.forward [Bubbles.Notify Bubbles.appear; Bubbles.Elapse 300] /\
  (Bubbles.styles
     (Observer.state
        (Bubbles.run [Bubbles.Notify Bubbles.appear; Bubbles.Elapse 300]
           (Bubbles.start [0%nat; 1%nat] Bubbles.blank))) 0%nat
   = Bubbles.hidden \/
   Bubbles.styles
     (Observer.state
        (Bubbles.run [Bubbles.Notify Bubbles.appear; Bubbles.Elapse 300]
           (Bubbles.start [0%nat; 1%nat] Bubbles.blank))) 0%nat
   = Bubbles.visible).
Proof.
  assert (H1 : In 0%nat [0%nat; 1%nat]) by (left; reflexivity).
  assert (H2 : Forall Bubbles.forward
                 [Bubbles.Notify Bubbles.appear; Bubbles.Elapse 300]).
  { repeat constructor. cbn. lia. }
  split; [exact H1|]. split; [exact H2|].
  exact (proj1 (@X17_bubble_not_shown_early [0%nat; 1%nat] Bubbles.blank
                  [Bubbles.Notify Bubbles.appear; Bubbles.Elapse 300]
                  0%nat H1 H2)).
Defined.

Lemma X18_bubble_shown_after_300ms_witness :
  In 1%nat [0%nat; 1%nat] /\
  Forall Bubbles.forward [Bubbles.Notify Bubbles.appear] /\
  Forall Bubbles.forward [Bubbles.Elapse 100; Bubbles.Elapse 200] /\
  Observer.runs_on 1%nat
    (Bubbles.run [Bubbles.Notify Bubbles.appear]
       (Bubbles.start [0%nat; 1%nat] Bubbles.blank)) <> 0%nat /\
  (300 <= Bubbles.elapsed [Bubbles.Elapse 100; Bubbles.Elapse 200])%Z /\
  Bubbles.styles
    (Observer.state
       (Bubbles.run ([Bubbles.Notify Bubbles.appear]
                     ++ [Bubbles.Elapse 100; Bubbles.Elapse 200])
          (Bubbles.start [0%nat; 1%nat] Bubbles.blank))) 1%nat
  = Bubbles.visible.
Proof.
  assert (H1 : In 1%nat [0%nat; 1%nat]) by (right; left; reflexivity).
  assert (H2 : Forall Bubbles.forward [Bubbles.Notify Bubbles.appear]).
  { repeat constructor. }
  assert (H3 : Forall Bubbles.forward
                 [Bubbles.Elapse 100; Bubbles.Elapse 200]).
  { repeat constructor; cbn; lia. }
  assert (H4 : Observer.runs_on 1%nat
                 (Bubbles.run [Bubbles.Notify Bubbles.appear]
                    (Bubbles.start [0%nat; 1%nat] Bubbles.blank)) <> 0%nat).
  { vm_compute. discriminate. }
  assert (H5 : (300 <= Bubbles.elapsed
                         [Bubbles.Elapse 100; Bubbles.Elapse 200])%Z).
  { cbn. lia. }
  split; [exact H1|]. split; [exact H2|]. split; [exact H3|].
  split; [exact H4|]. split; [exact H5|].
  exact (@X18_bubble_shown_after_300ms [0%nat; 1%nat] Bubbles.blank
           [Bubbles.Notify Bubbles.appear]
           [Bubbles.Elapse 100; Bubbles.Elapse 200] 1%nat H1 H2 H3 H4 H5).
Defined.
